(** * EHF analyzer: extraction and ownership reconstruction

    A shallow embedding of [extraction_complete.py]: the splitting of the
    document text into formalities, the act-type classifier and its counts,
    the mortgage and mutation analysers, the table of the last page and the
    reconstruction of the current ownership, followed by the properties the
    specification states about them.

    Text is a sequence of Unicode code points, as a Python [str] is.  What
    Python takes from its Unicode database (case mappings, decimal digits) is
    an interface, [Unicode]; the general theorems hold for every instance of
    it, and the examples run on the instance [latin1], which is exact on
    Basic Latin and Latin-1, the repertoire of the documents processed. *)

From Stdlib Require Import NArith ZArith String Ascii.
From stdpp Require Import gmap list sorting.

Local Open Scope N_scope.

(** ** Text *)

(** A Python [str]: its code points. *)
Definition pystr := list N.

Fixpoint bytes_of (s : string) : list N :=
  match s with
  | EmptyString => []
  | String a r => N_of_ascii a :: bytes_of r
  end.

(** Literals are written as Rocq strings, whose bytes are the UTF-8 encoding
    of the text; [utf8_decode] gives back the code points. *)
Fixpoint utf8_decode (fuel : nat) (bs : list N) : pystr :=
  match fuel with
  | O => []
  | S f =>
    match bs with
    | [] => []
    | b0 :: r =>
      if b0 <? 128 then b0 :: utf8_decode f r
      else if b0 <? 224 then
        match r with
        | b1 :: r' => ((b0 - 192) * 64 + (b1 - 128)) :: utf8_decode f r'
        | _ => []
        end
      else if b0 <? 240 then
        match r with
        | b1 :: b2 :: r' =>
            ((b0 - 224) * 4096 + (b1 - 128) * 64 + (b2 - 128)) :: utf8_decode f r'
        | _ => []
        end
      else
        match r with
        | b1 :: b2 :: b3 :: r' =>
            ((b0 - 240) * 262144 + (b1 - 128) * 4096 + (b2 - 128) * 64 + (b3 - 128))
              :: utf8_decode f r'
        | _ => []
        end
    end
  end.

Definition u (s : string) : pystr := utf8_decode (String.length s) (bytes_of s).

(** The newline character. *)
Definition NL : N := 10.

(** [str.isspace] on one character, which is also the regular expressions'
    [\s] on text patterns. *)
Definition is_space (c : N) : bool :=
  ((9 <=? c) && (c <=? 13)) || ((28 <=? c) && (c <=? 32))
  || (c =? 133) || (c =? 160) || (c =? 5760)
  || ((8192 <=? c) && (c <=? 8202))
  || (c =? 8232) || (c =? 8233) || (c =? 8239) || (c =? 8287) || (c =? 12288).

(** What the program takes from Python's Unicode database. *)
Class Unicode := {
  (** [uc_fold p c]: under [re.IGNORECASE] the pattern character [p]
      matches the text character [c] *)
  uc_fold : N → N → bool;
  (** the full upper-case mapping of one character ([str.upper]) *)
  uc_upper : N → list N;
  (** the value of a decimal digit ([\d], [int]) *)
  uc_decimal : N → option N;
  (** [str.isdigit] on one character *)
  uc_isdigit : N → bool
}.

(** Simple lower-case mapping, exact on every character whose image is in
    Basic Latin or Latin-1. *)
Definition latin1_lower (c : N) : N :=
  if (65 <=? c) && (c <=? 90) then c + 32
  else if (192 <=? c) && (c <=? 222) && negb (c =? 215) then c + 32
  else if c =? 304 then 105
  else if c =? 376 then 255
  else if c =? 7838 then 223
  else if c =? 8490 then 107
  else if c =? 8491 then 229
  else c.

(** The characters [re] identifies beyond lower-casing: dotless i with i,
    long s with s. *)
Definition latin1_fold (p c : N) : bool :=
  let lp := latin1_lower p in
  let lc := latin1_lower c in
  (lp =? lc)
  || ((lp =? 105) && (lc =? 305)) || ((lp =? 305) && (lc =? 105))
  || ((lp =? 115) && (lc =? 383)) || ((lp =? 383) && (lc =? 115)).

Definition latin1_upper (c : N) : list N :=
  if (97 <=? c) && (c <=? 122) then [c - 32]
  else if (224 <=? c) && (c <=? 254) && negb (c =? 247) then [c - 32]
  else if c =? 223 then [83; 83]
  else if c =? 255 then [376]
  else if c =? 181 then [924]
  else [c].

Definition latin1_decimal (c : N) : option N :=
  if (48 <=? c) && (c <=? 57) then Some (c - 48) else None.

Definition latin1_isdigit (c : N) : bool :=
  ((48 <=? c) && (c <=? 57)) || (c =? 178) || (c =? 179) || (c =? 185).

Definition latin1 : Unicode :=
  {| uc_fold := latin1_fold; uc_upper := latin1_upper;
     uc_decimal := latin1_decimal; uc_isdigit := latin1_isdigit |}.

(** *** String methods *)

Fixpoint lstrip (s : pystr) : pystr :=
  match s with
  | c :: r => if is_space c then lstrip r else s
  | [] => []
  end.

Definition rstrip (s : pystr) : pystr := reverse (lstrip (reverse s)).

(** [s.strip()] *)
Definition strip (s : pystr) : pystr := rstrip (lstrip s).

Fixpoint starts_with (p s : pystr) : bool :=
  match p, s with
  | [], _ => true
  | a :: p', b :: s' => (a =? b) && starts_with p' s'
  | _ :: _, [] => false
  end.

(** [needle in hay] *)
Fixpoint str_in (needle hay : pystr) : bool :=
  starts_with needle hay
  || match hay with
     | [] => false
     | _ :: h => str_in needle h
     end.

(** [s.split(sep)] for a separator that is not empty: [cur] is the piece
    being read, reversed, and [skip] counts the characters of a separator
    still to pass. *)
Fixpoint split_go (sep cur : pystr) (skip : nat) (s : pystr) : list pystr :=
  match s with
  | [] => [reverse cur]
  | c :: s' =>
    match skip with
    | S k => split_go sep cur k s'
    | O =>
      if starts_with sep s
      then reverse cur :: split_go sep [] (pred (length sep)) s'
      else split_go sep (c :: cur) O s'
    end
  end.

Definition str_split (sep s : pystr) : list pystr := split_go sep [] O s.

(** [s.split(sep, 1)] *)
Fixpoint split_once_go (sep cur s : pystr) : list pystr :=
  match s with
  | [] => [reverse cur]
  | c :: s' =>
    if starts_with sep s
    then [reverse cur; drop (length sep) s]
    else split_once_go sep (c :: cur) s'
  end.

Definition str_split_once (sep s : pystr) : list pystr := split_once_go sep [] s.

(** The limit of [int] on the number of digits of a decimal text, as
    CPython sets it when the program does not change it
    ([sys.int_info.default_max_str_digits]): above it, [int] raises
    [ValueError]. *)
Definition int_max_str_digits : N := 4300.

Section WithUnicode.
Context `{Unicode}.

(** [s.upper()] *)
Definition upper (s : pystr) : pystr := flat_map uc_upper s.

(** [s.isdigit()] *)
Definition isdigit (s : pystr) : bool :=
  match s with
  | [] => false
  | _ => forallb uc_isdigit s
  end.

(** The digits of [int(s)] after the sign: decimal digits, single
    underscores allowed between two of them. *)
Fixpoint int_digits (acc : Z) (prev_digit : bool) (s : pystr) : option Z :=
  match s with
  | [] => if prev_digit then Some acc else None
  | c :: r =>
    match uc_decimal c with
    | Some d => int_digits (10 * acc + Z.of_N d)%Z true r
    | None =>
      if (c =? 95) && prev_digit
      then match r with
           | [] => None
           | c' :: _ =>
             match uc_decimal c' with
             | Some _ => int_digits acc false r
             | None => None
             end
           end
      else None
    end
  end.

(** The decimal digits of a text, which [int] counts against its limit:
    the sign and the underscores are not counted, the leading zeros are. *)
Definition nombre_chiffres (s : pystr) : N :=
  N.of_nat (length (filter (λ c, is_Some (uc_decimal c)) s)).

(** The text after the sign: [int] refuses it when it has more digits than
    the limit, whatever the digits are. *)
Definition int_sans_signe (r : pystr) : option Z :=
  if int_max_str_digits <? nombre_chiffres r then None else int_digits 0 false r.

(** [int(s)]: [None] stands for [ValueError]. *)
Definition py_int (s : pystr) : option Z :=
  match strip s with
  | 43 :: r => int_sans_signe r
  | 45 :: r => Z.opp <$> int_sans_signe r
  | r => int_sans_signe r
  end.

End WithUnicode.

(** [s.zfill(width)] *)
Definition zfill (width : nat) (s : pystr) : pystr :=
  let pad := replicate (width - length s) 48 in
  match s with
  | 43 :: r => 43 :: pad ++ r
  | 45 :: r => 45 :: pad ++ r
  | _ => pad ++ s
  end.

(** Comparison of strings, by code points. *)
Fixpoint str_lt (a b : pystr) : bool :=
  match a, b with
  | [], [] => false
  | [], _ :: _ => true
  | _ :: _, [] => false
  | x :: a', y :: b' => (x <? y) || ((x =? y) && str_lt a' b')
  end.

(** [str(n)] for an integer. *)
Fixpoint digits_of (fuel : nat) (n : N) (acc : pystr) : pystr :=
  match fuel with
  | O => acc
  | S f =>
    let acc' := (48 + n mod 10) :: acc in
    if n <? 10 then acc' else digits_of f (n / 10) acc'
  end.

Definition str_of_Z (z : Z) : pystr :=
  let n := Z.abs_N z in
  let ds := digits_of (S (N.to_nat (N.log2 n))) n [] in
  if (z <? 0)%Z then 45 :: ds else ds.

(** [range(a, b + 1)] *)
Definition range_incl (a b : Z) : list Z :=
  (λ i : nat, (a + Z.of_nat i)%Z) <$> seq 0 (Z.to_nat (b + 1 - a)).

(** ** Regular expressions

    The fragment of Python's [re] the program uses, with its backtracking
    semantics: the leftmost match, greedy repetitions trying the longest
    first, lazy ones the shortest, alternatives from left to right. *)

Inductive regex :=
| Eps
| Chr (p : N → bool)
| Seq (a b : regex)
| Alt (a b : regex)
| Star (a : regex)
| Lazy (a : regex)
| Group (i : nat) (a : regex)
| Ahead (a : regex)
| Bos
| Bol
| Eol
| Eos.

Record flags := { IGNORECASE : bool; DOTALL : bool; MULTILINE : bool }.

Definition NOFLAG := {| IGNORECASE := false; DOTALL := false; MULTILINE := false |}.
Definition I_ := {| IGNORECASE := true; DOTALL := false; MULTILINE := false |}.
Definition IS_ := {| IGNORECASE := true; DOTALL := true; MULTILINE := false |}.
Definition M_ := {| IGNORECASE := false; DOTALL := false; MULTILINE := true |}.

(** *** Matching *)

(** The groups captured so far: number, start and end. *)
Definition caps := list (nat * (nat * nat)).

(** A position in the subject: the text before it, reversed, and the text
    after it. *)
Definition outcome := (pystr * pystr * caps)%type.
Definition kont := pystr → pystr → caps → option outcome.

Fixpoint rx (r : regex) (pre rest : pystr) (c : caps) (k : kont) {struct r}
  : option outcome :=
  match r with
  | Eps => k pre rest c
  | Chr p =>
    match rest with
    | x :: rest' => if p x then k (x :: pre) rest' c else None
    | [] => None
    end
  | Seq a b => rx a pre rest c (λ pre' rest' c', rx b pre' rest' c' k)
  | Alt a b =>
    match rx a pre rest c k with
    | Some v => Some v
    | None => rx b pre rest c k
    end
  | Star a =>
    (fix loop (n : nat) (pre rest : pystr) (c : caps) : option outcome :=
       match n with
       | O => k pre rest c
       | S n' =>
         match rx a pre rest c
                 (λ pre' rest' c',
                   if (length rest' <? length rest)%nat
                   then loop n' pre' rest' c' else None) with
         | Some v => Some v
         | None => k pre rest c
         end
       end) (S (length rest)) pre rest c
  | Lazy a =>
    (fix loop (n : nat) (pre rest : pystr) (c : caps) : option outcome :=
       match n with
       | O => k pre rest c
       | S n' =>
         match k pre rest c with
         | Some v => Some v
         | None =>
           rx a pre rest c
              (λ pre' rest' c',
                if (length rest' <? length rest)%nat
                then loop n' pre' rest' c' else None)
         end
       end) (S (length rest)) pre rest c
  | Group i a =>
    rx a pre rest c (λ pre' rest' c', k pre' rest' ((i, (length pre, length pre')) :: c'))
  | Ahead a =>
    match rx a pre rest c (λ p r c', Some (p, r, c')) with
    | Some (_, _, c') => k pre rest c'
    | None => None
    end
  | Bos => match pre with [] => k pre rest c | _ :: _ => None end
  | Bol =>
    match pre with
    | [] => k pre rest c
    | x :: _ => if x =? NL then k pre rest c else None
    end
  | Eol =>
    match rest with
    | [] => k pre rest c
    | x :: _ => if x =? NL then k pre rest c else None
    end
  | Eos =>
    match rest with
    | [] => k pre rest c
    | [x] => if x =? NL then k pre rest c else None
    | _ => None
    end
  end.

(** A match object: where the match starts and ends, the remaining text and
    the groups. *)
Record match_obj := {
  m_start : nat;
  m_end : nat;
  m_rest : pystr;
  m_caps : caps
}.

Definition match_at (r : regex) (pre rest : pystr) : option match_obj :=
  match rx r pre rest [] (λ p' r' c', Some (p', r', c')) with
  | Some (p', r', c') =>
      Some {| m_start := length pre; m_end := length p'; m_rest := r'; m_caps := c' |}
  | None => None
  end.

(** The leftmost match at or after the position. *)
Fixpoint search_go (r : regex) (pre rest : pystr) : option match_obj :=
  match match_at r pre rest with
  | Some m => Some m
  | None =>
    match rest with
    | [] => None
    | x :: rest' => search_go r (x :: pre) rest'
    end
  end.

(** The successive matches, each searched from the end of the one before
    (the patterns of this program match no empty string; past an empty match
    the search moves on by one character). *)
Fixpoint finditer_go (fuel : nat) (r : regex) (s : pystr) (pos : nat) : list match_obj :=
  match fuel with
  | O => []
  | S f =>
    match search_go r (reverse (take pos s)) (drop pos s) with
    | None => []
    | Some m =>
      m :: finditer_go f r s (if (m_start m <? m_end m)%nat then m_end m else S (m_end m))
    end
  end.

(** [m.group(i)]: [None] when the group took no part in the match. *)
Definition group (s : pystr) (m : match_obj) (i : nat) : option pystr :=
  match i with
  | O => Some (take (m_end m - m_start m) (drop (m_start m) s))
  | _ =>
    match list_find (λ e, e.1 = i) (m_caps m) with
    | Some (_, (_, (a, b))) => Some (take (b - a) (drop a s))
    | None => None
    end
  end.

(** A group of a pattern in which it always takes part. *)
Definition group' (s : pystr) (m : match_obj) (i : nat) : pystr :=
  default [] (group s m i).

(** The pieces of [s] between the matches. *)
Fixpoint pieces (s : pystr) (pos : nat) (ms : list match_obj) : list pystr :=
  match ms with
  | [] => [drop pos s]
  | m :: ms' => take (m_start m - pos) (drop pos s) :: pieces s (m_end m) ms'
  end.

(** *** Patterns

    The patterns are kept as the program writes them and read by
    [re_compile]; [None] is a pattern outside the fragment. *)

Fixpoint rep (n : nat) (a : regex) : regex :=
  match n with
  | O => Eps
  | S k => Seq a (rep k a)
  end.

(** At most [n] more, the most first. *)
Fixpoint upto (n : nat) (a : regex) : regex :=
  match n with
  | O => Eps
  | S k => Alt (Seq a (upto k a)) Eps
  end.

Definition N_range (lo hi : N) : list N :=
  (λ i : nat, lo + N.of_nat i) <$> seq 0 (N.to_nat (hi + 1 - lo)).

(** A decimal number at the head of a pattern. *)
Fixpoint p_num (s : pystr) (acc : option nat) : option nat * pystr :=
  match s with
  | c :: r =>
    if (48 <=? c) && (c <=? 57)
    then p_num r (Some (10 * default 0%nat acc + N.to_nat (c - 48))%nat)
    else (acc, s)
  | [] => (acc, s)
  end.

Section Patterns.
Context `{Unicode} (fl : flags).

Definition lit (x : N) : N → bool :=
  if IGNORECASE fl then uc_fold x else N.eqb x.

Definition in_range (lo hi : N) : N → bool :=
  if IGNORECASE fl
  then λ c, existsb (λ x, uc_fold x c) (N_range lo hi)
  else λ c, (lo <=? c) && (c <=? hi).

Definition any_char : N → bool :=
  if DOTALL fl then λ _, true else λ c, negb (c =? NL).

Definition is_decimal (c : N) : bool :=
  match uc_decimal c with Some _ => true | None => false end.

Definition is_alnum_ascii (c : N) : bool :=
  ((48 <=? c) && (c <=? 57)) || ((65 <=? c) && (c <=? 90)) || ((97 <=? c) && (c <=? 122)).

(** The character after a backslash: [\s], [\d], [\n], or an escaped
    punctuation mark. *)
Definition escape (c : N) : option (N → bool) :=
  match c with
  | 115 => Some is_space
  | 100 => Some is_decimal
  | 110 => Some (N.eqb NL)
  | _ => if is_alnum_ascii c then None else Some (lit c)
  end.

(** The items of a class, up to its closing bracket. *)
Fixpoint p_class (fuel : nat) (s : pystr) (acc : N → bool) : option ((N → bool) * pystr) :=
  match fuel with
  | O => None
  | S f =>
    match s with
    | [] => None
    | 93 :: r => Some (acc, r)
    | 92 :: c :: r =>
      match escape c with
      | Some e => p_class f r (λ x, acc x || e x)
      | None => None
      end
    | lo :: 45 :: hi :: r =>
      if hi =? 93
      then p_class f (45 :: hi :: r) (λ x, acc x || lit lo x)
      else p_class f r (λ x, acc x || in_range lo hi x)
    | c :: r => p_class f r (λ x, acc x || lit c x)
    end
  end.

(** The quantifier that may follow an atom. *)
Definition p_quant (a : regex) (s : pystr) : option (regex * pystr) :=
  match s with
  | 42 :: 63 :: r => Some (Lazy a, r)
  | 42 :: r => Some (Star a, r)
  | 43 :: 63 :: r => Some (Seq a (Lazy a), r)
  | 43 :: r => Some (Seq a (Star a), r)
  | 63 :: 63 :: r => Some (Alt Eps a, r)
  | 63 :: r => Some (Alt a Eps, r)
  | 123 :: r =>
    match p_num r None with
    | (Some n, 125 :: r') => Some (rep n a, r')
    | (Some n, 44 :: r') =>
      match p_num r' None with
      | (None, 125 :: r'') => Some (Seq (rep n a) (Star a), r'')
      | (Some m, 125 :: r'') => Some (Seq (rep n a) (upto (m - n) a), r'')
      | _ => None
      end
    | _ => None
    end
  | _ => Some (a, s)
  end.

(** Alternatives, sequences and atoms; [g] counts the groups opened. *)
Fixpoint p_alt (fuel : nat) (s : pystr) (g : nat) : option (regex * pystr * nat) :=
  match fuel with
  | O => None
  | S f =>
    match p_seq f s g with
    | Some (a, 124 :: s1, g1) =>
      match p_alt f s1 g1 with
      | Some (b, s2, g2) => Some (Alt a b, s2, g2)
      | None => None
      end
    | other => other
    end
  end
with p_seq (fuel : nat) (s : pystr) (g : nat) : option (regex * pystr * nat) :=
  match fuel with
  | O => None
  | S f =>
    match s with
    | [] | 41 :: _ | 124 :: _ => Some (Eps, s, g)
    | _ =>
      match p_atom f s g with
      | Some (a, s1, g1) =>
        match p_quant a s1 with
        | Some (q, s2) =>
          match p_seq f s2 g1 with
          | Some (Eps, s3, g3) => Some (q, s3, g3)
          | Some (b, s3, g3) => Some (Seq q b, s3, g3)
          | None => None
          end
        | None => None
        end
      | None => None
      end
    end
  end
with p_atom (fuel : nat) (s : pystr) (g : nat) : option (regex * pystr * nat) :=
  match fuel with
  | O => None
  | S f =>
    match s with
    | 40 :: 63 :: 58 :: s1 =>
      match p_alt f s1 g with
      | Some (a, 41 :: s2, g1) => Some (a, s2, g1)
      | _ => None
      end
    | 40 :: 63 :: 61 :: s1 =>
      match p_alt f s1 g with
      | Some (a, 41 :: s2, g1) => Some (Ahead a, s2, g1)
      | _ => None
      end
    | 40 :: 63 :: _ => None
    | 40 :: s1 =>
      match p_alt f s1 (S g) with
      | Some (a, 41 :: s2, g1) => Some (Group (S g) a, s2, g1)
      | _ => None
      end
    | 91 :: 94 :: s1 =>
      match p_class (length s1) s1 (λ _, false) with
      | Some (p, s2) => Some (Chr (λ x, negb (p x)), s2, g)
      | None => None
      end
    | 91 :: s1 =>
      match p_class (length s1) s1 (λ _, false) with
      | Some (p, s2) => Some (Chr p, s2, g)
      | None => None
      end
    | 92 :: c :: s1 =>
      match escape c with
      | Some e => Some (Chr e, s1, g)
      | None => None
      end
    | 46 :: s1 => Some (Chr any_char, s1, g)
    | 94 :: s1 => Some (if MULTILINE fl then Bol else Bos, s1, g)
    | 36 :: s1 => Some (if MULTILINE fl then Eol else Eos, s1, g)
    | c :: s1 =>
      if (c =? 42) || (c =? 43) || (c =? 63) || (c =? 123) || (c =? 92)
      then None else Some (Chr (lit c), s1, g)
    | [] => None
    end
  end.

Definition re_compile (pat : pystr) : option regex :=
  match p_alt (3 * length pat + 3) pat 0 with
  | Some (r, [], _) => Some r
  | _ => None
  end.

(** [re.search(pat, s, fl)] *)
Definition re_search (pat s : pystr) : option match_obj :=
  r ← re_compile pat; search_go r [] s.

(** [re.finditer(pat, s, fl)] *)
Definition re_finditer (pat s : pystr) : list match_obj :=
  match re_compile pat with
  | Some r => finditer_go (S (length s)) r s 0
  | None => []
  end.

(** [re.split(pat, s, flags=fl)] for a pattern without groups *)
Definition re_split (pat s : pystr) : list pystr :=
  pieces s 0 (re_finditer pat s).

(** [re.sub(pat, repl, s)] for a replacement without references *)
Definition re_sub (pat repl s : pystr) : pystr :=
  match pieces s 0 (re_finditer pat s) with
  | [] => []
  | p :: ps => p ++ flat_map (λ q, repl ++ q) ps
  end.

End Patterns.

(** ** Python's [sorted] and insertion-ordered dictionaries *)

(** [sorted(l, key=..., reverse=True)]: [lt x y] says that the key of [x] is
    below the key of [y].  The sort is stable: elements with equal keys keep
    the order they had. *)
Fixpoint insert_desc {A} (lt : A → A → bool) (x : A) (l : list A) : list A :=
  match l with
  | [] => [x]
  | y :: r => if lt x y then y :: insert_desc lt x r else x :: l
  end.

Definition sorted_reverse {A} (lt : A → A → bool) (l : list A) : list A :=
  foldr (insert_desc lt) [] l.

(** [sorted(l)], ascending. *)
Fixpoint insert_asc {A} (lt : A → A → bool) (x : A) (l : list A) : list A :=
  match l with
  | [] => [x]
  | y :: r => if lt y x then y :: insert_asc lt x r else x :: l
  end.

Definition sorted {A} (lt : A → A → bool) (l : list A) : list A :=
  foldr (insert_asc lt) [] l.

(** A [dict] with string keys: the items in insertion order. *)
Definition dict (V : Type) := list (pystr * V).

Fixpoint dict_get {V} (d : dict V) (k : pystr) : option V :=
  match d with
  | [] => None
  | (k', v) :: r => if bool_decide (k' = k) then Some v else dict_get r k
  end.

(** [d[k] = v]: in place when the key is there, at the end otherwise. *)
Fixpoint dict_set {V} (d : dict V) (k : pystr) (v : V) : dict V :=
  match d with
  | [] => [(k, v)]
  | (k', v') :: r =>
    if bool_decide (k' = k) then (k', v) :: r else (k', v') :: dict_set r k v
  end.

Definition dict_keys {V} (d : dict V) : list pystr := d.*1.

(** ** The formalities (FormalityParser) *)

Record formalite := {
  numero_ordre : nat;
  date_depot : pystr;
  date_acte : pystr;
  contenu : pystr;
  nature_acte_redacteur : pystr;
  reference_enliassement : pystr
}.

#[global] Instance formalite_eq_dec : EqDecision formalite.
Proof. solve_decision. Defined.

Definition NON_TROUVE : pystr := u "Non trouvé".

Section Formalites.
Context `{Unicode}.

(** *** [classifier_type_acte] *)

Definition patterns_formalite : list pystr :=
  [ u "\s+de\s+la\s+formalité";
    u "\s+de\s+la\s+formalite";
    u "\s+DE\s+LA\s+FORMALITÉ";
    u "\s+DE\s+LA\s+FORMALITE" ].

(** The loop over the patterns: the first pattern that matches decides. *)
Fixpoint classifier_boucle (nature_acte_original : pystr) (patterns : list pystr) : pystr :=
  match patterns with
  | [] => nature_acte_original
  | pattern :: suite =>
    match re_search I_ pattern nature_acte_original with
    | Some m =>
      let type_acte := strip (take (m_start m) nature_acte_original) in
      if bool_decide (type_acte = []) then nature_acte_original else type_acte
    | None => classifier_boucle nature_acte_original suite
    end
  end.

Definition classifier_type_acte (nature_acte : pystr) : pystr :=
  classifier_boucle (strip nature_acte) patterns_formalite.

(** *** The split of the text and the fields of a formality *)

Definition depot_pattern : pystr := u "Date de d[eé]p[oô]t\s*:".

(** The text of the document: the text of each page and a newline. *)
Definition full_text_of (pages : list pystr) : pystr :=
  flat_map (λ page_text, page_text ++ [NL]) pages.

(** The body of the loop for the section of index [i]: no formality for
    the text before the first anchor, nor for a section that is blank. *)
Definition formalite_of_section (i : nat) (section : pystr) : option formalite :=
  if bool_decide (i = 0%nat) then None
  else
    let contenu := strip section in
    if bool_decide (contenu = []) then None
    else
      let chaine_entre :=
        match re_search IS_ (u "Nature de l'acte\s*:\s*(.+?)(?:\n|Rédacteur)") contenu with
        | Some m => strip (group' contenu m 1)
        | None => NON_TROUVE
        end in
      let date_depot :=
        match re_search NOFLAG (u "(\d{2}/\d{2}/\d{4})") contenu with
        | Some m => group' contenu m 1
        | None => NON_TROUVE
        end in
      let date_acte :=
        match re_search I_ (u "Date de l'acte\s*:\s*(\d{2}/\d{2}/\d{4})") contenu with
        | Some m => group' contenu m 1
        | None => NON_TROUVE
        end in
      let ref_enliassement :=
        match re_search I_ (u "Réference d'enliassement\s*:\s*([^\n]+)") contenu with
        | Some m =>
          re_sub NOFLAG (u "\s+Date de l\'acte\s*:\s*\d{2}/\d{2}/\d{4}") []
                 (strip (group' contenu m 1))
        | None => []
        end in
      Some {| numero_ordre := i;
              date_depot := date_depot;
              date_acte := date_acte;
              contenu := u "Date de depot: " ++ contenu;
              nature_acte_redacteur := chaine_entre;
              reference_enliassement := ref_enliassement |}.

Definition sections_of (full_text : pystr) : list pystr :=
  re_split I_ depot_pattern full_text.

Definition formalites_of_text (full_text : pystr) : list formalite :=
  omap (λ p, formalite_of_section p.1 p.2) (imap pair (sections_of full_text)).

(** *** The count of the act types *)

(** The labels counted, in the order of the formalities. *)
Definition types_comptes (formalites : list formalite) : list pystr :=
  omap (λ f,
          let nature_acte := strip (nature_acte_redacteur f) in
          if bool_decide (nature_acte ≠ []) && bool_decide (upper nature_acte ≠ u "NON TROUVÉ")
          then Some (classifier_type_acte nature_acte) else None)
       formalites.

Definition compter (comptage_types : dict nat) (type_acte : pystr) : dict nat :=
  match dict_get comptage_types type_acte with
  | Some n => dict_set comptage_types type_acte (n + 1)%nat
  | None => dict_set comptage_types type_acte 1%nat
  end.

Definition comptage_types (formalites : list formalite) : dict nat :=
  foldl compter [] (types_comptes formalites).

Definition comptage_trie (formalites : list formalite) : dict nat :=
  sorted_reverse (λ x y, (x.2 <? y.2)%nat) (comptage_types formalites).

End Formalites.

(** ** Mortgages and mutations (MortgageAnalyzer, MutationAnalyzer) *)

(** The first of the alternatives that gives a result. *)
Fixpoint first_some {A B} (f : A → option B) (l : list A) : option B :=
  match l with
  | [] => None
  | x :: r => match f x with Some y => Some y | None => first_some f r end
  end.

(** [list(dict.fromkeys(l))]: without repeats, first occurrences kept. *)
Definition ajouter_nouveau (acc : list pystr) (x : pystr) : list pystr :=
  if bool_decide (x ∈ acc) then acc else acc ++ [x].

Definition sans_doublons (l : list pystr) : list pystr :=
  foldl ajouter_nouveau [] l.

(** The number of times [t] is in [l]. *)
Definition occurrences (t : pystr) (l : list pystr) : nat :=
  length (filter (λ x, x = t) l).

Record finances := {
  montant_principal : pystr;
  accessoires : pystr;
  taux_interet : pystr;
  date_extreme_exigibilite : pystr;
  date_extreme_effet : pystr;
  complement : pystr
}.

(** The result of [extraire_lots_volumes_hypotheque]; [lv_finances] is
    [None] for the short dictionary returned on an empty content. *)
Record lots_volumes := {
  lv_lots : list pystr;
  lv_volume : pystr;
  lv_commune : pystr;
  lv_designation_cadastrale : pystr;
  lv_finances : option finances
}.

Record hypotheque_active := {
  ha_numero_ordre : nat;
  ha_date_depot : pystr;
  ha_date_acte : pystr;
  ha_nature_acte : pystr;
  ha_reference_enliassement : pystr;
  ha_contenu : pystr;
  ha_lots_volumes : lots_volumes;
  ha_statut : pystr
}.

Record personne := {
  p_numero : pystr;
  p_designation : pystr;
  p_date_naissance : pystr
}.

Record ligne_immeuble := {
  li_beneficiaire_numero : pystr;
  li_droits : pystr;
  li_commune : pystr;
  li_designation_cadastrale : pystr;
  li_volume : pystr;
  li_lots : list pystr
}.

(** The ["immeubles"] entry of a mutation when it is not empty. *)
Record immeubles_mutation := {
  im_beneficiaire_numero : pystr;
  im_droits : pystr;
  im_commune : pystr;
  im_designation_cadastrale : pystr;
  im_volume : pystr;
  im_lots : list pystr;
  im_lignes_detaillees : list ligne_immeuble
}.

(** The result of [extraire_mutations]; [md_immeubles] is [None] for the
    empty dictionary. *)
Record mutations_data := {
  md_disposant_donateur : list personne;
  md_beneficiaire_donataire : list personne;
  md_immeubles : option immeubles_mutation;
  md_montant : pystr
}.

Record mutation := {
  mu_numero_ordre : nat;
  mu_date_depot : pystr;
  mu_date_acte : pystr;
  mu_nature_acte : pystr;
  mu_reference_enliassement : pystr;
  mu_mutations : mutations_data
}.

#[global] Instance finances_eq_dec : EqDecision finances.
Proof. solve_decision. Defined.
#[global] Instance lots_volumes_eq_dec : EqDecision lots_volumes.
Proof. solve_decision. Defined.
#[global] Instance hypotheque_active_eq_dec : EqDecision hypotheque_active.
Proof. solve_decision. Defined.
#[global] Instance personne_eq_dec : EqDecision personne.
Proof. solve_decision. Defined.
#[global] Instance ligne_immeuble_eq_dec : EqDecision ligne_immeuble.
Proof. solve_decision. Defined.
#[global] Instance immeubles_mutation_eq_dec : EqDecision immeubles_mutation.
Proof. solve_decision. Defined.
#[global] Instance mutations_data_eq_dec : EqDecision mutations_data.
Proof. solve_decision. Defined.
#[global] Instance mutation_eq_dec : EqDecision mutation.
Proof. solve_decision. Defined.

Section Analyse.
Context `{Unicode}.

(** [m.group(1).strip()] of the first match of the pattern, [""] without
    a match. *)
Definition champ (fl : flags) (pattern s : pystr) : pystr :=
  match re_search fl pattern s with
  | Some m => strip (group' s m 1)
  | None => []
  end.

(** [re.findall(pattern, s)] for a pattern without group or with one:
    the text of the group [g] of each match. *)
Definition re_findall (fl : flags) (pattern : pystr) (g : nat) (s : pystr) : list pystr :=
  (λ m, group' s m g) <$> re_finditer fl pattern s.

(** *** [extraire_lots_volumes_hypotheque] *)

Definition lots_apres_designation (section_immeubles designation_cadastrale : pystr)
  : list pystr :=
  if bool_decide (designation_cadastrale = []) then []
  else
    match str_split_once designation_cadastrale section_immeubles with
    | [_; remaining_text] => re_findall M_ (u "^\s*(\d+)\s*$") 1 remaining_text
    | _ => []
    end.

Definition extraire_finances (contenu : pystr) : finances :=
  {| montant_principal := champ I_ (u "Montant principal\s*:\s*([\d\s,\.]+\s*EUR)") contenu;
     accessoires := champ I_ (u "Accessoires\s*:\s*([\d\s,\.]+\s*EUR)") contenu;
     taux_interet := champ I_ (u "Taux d'intérêt\s*:\s*([\d,\.]+\s*%)") contenu;
     date_extreme_exigibilite :=
       champ I_ (u "Date d'extrême exigibilité\s*:\s*(\d{2}/\d{2}/\d{4})") contenu;
     date_extreme_effet :=
       champ I_ (u "Date d'extrême effet\s*:\s*(\d{2}/\d{2}/\d{4})") contenu;
     complement :=
       match re_search IS_
               (u "Complément\s*:\s*(.*?)(?=\n\s*Disposition|\n\s*\d+\s*/\s*\d+\s*Demande|$)")
               contenu with
       | Some m => strip (re_sub NOFLAG (u "\n+") (u " ") (strip (group' contenu m 1)))
       | None => []
       end |}.

Definition extraire_lots_volumes_hypotheque (contenu : pystr) : lots_volumes :=
  if bool_decide (contenu = []) then
    {| lv_lots := []; lv_volume := []; lv_commune := [];
       lv_designation_cadastrale := []; lv_finances := None |}
  else
    let '(lots, volume, commune, designation_cadastrale) :=
      match re_search IS_ (u "Immeubles\s*.*?(?=\n\s*Montant|$)") contenu with
      | Some immeubles_match =>
        let section_immeubles := group' contenu immeubles_match 0 in
        let '(lots, commune, designation_cadastrale) :=
          match re_search NOFLAG
                  (u "([A-Z][A-Z\s\d]+?)\s+([A-Z]{1,3}\s*\d+)\s*\n((?:\s*\d+\s*\n?)+)")
                  section_immeubles with
          | Some m =>
            (re_findall NOFLAG (u "\d+") 0 (group' section_immeubles m 3),
             strip (group' section_immeubles m 1),
             strip (group' section_immeubles m 2))
          | None =>
            let commune :=
              default []
                (first_some
                   (λ pattern, (λ m, strip (group' section_immeubles m 1))
                                 <$> re_search I_ pattern section_immeubles)
                   [ u "([A-Z][A-Z\s\d]+?)\s+[A-Z]{1,3}\s+\d+";
                     u "Commune[:\s]*([A-Z][A-Z\s\d]+)" ]) in
            let designation_cadastrale :=
              default []
                (first_some
                   (λ pattern, (λ m, strip (group' section_immeubles m 1))
                                 <$> re_search I_ pattern section_immeubles)
                   [ u "([A-Z]{1,3}\s*\d+)(?:\s*\n|\s*$)";
                     u "cadastrale[:\s]*([A-Z]{1,3}\s*\d+)" ]) in
            (lots_apres_designation section_immeubles designation_cadastrale,
             commune, designation_cadastrale)
          end in
        (lots, champ I_ (u "Volume[:\s]*(\d+|[A-Z]\d+)") section_immeubles,
         commune, designation_cadastrale)
      | None => ([], [], [], [])
      end in
    {| lv_lots := sans_doublons (strip <$> filter (λ lot, isdigit (strip lot) = true) lots);
       lv_volume := volume;
       lv_commune := commune;
       lv_designation_cadastrale := designation_cadastrale;
       lv_finances := Some (extraire_finances contenu) |}.

(** *** [analyser_hypotheques_actives] *)

Definition est_radiation (formalite : formalite) : bool :=
  let nature_acte := upper (nature_acte_redacteur formalite) in
  str_in (u "RADIATION") nature_acte && str_in (u "TOTALE") nature_acte.

Definition est_hypotheque_explicite (formalite : formalite) : bool :=
  str_in (u "HYPOTHEQUE") (upper (nature_acte_redacteur formalite)).

Definition est_hypotheque_implicite (formalite : formalite) : bool :=
  let contenu := upper (contenu formalite) in
  str_in (u "CRÉANCIERS") contenu
  && (str_in (u "DÉBITEUR") contenu || str_in (u "PROPRIÉTAIRES IMMEUBLE") contenu).

(** The first loop: the cancellations on one side, the mortgages on the
    other. *)
Definition radiations (formalites : list formalite) : list formalite :=
  filter (λ f, est_radiation f = true) formalites.

Definition hypotheques (formalites : list formalite) : list formalite :=
  filter (λ f, est_radiation f = false
               ∧ (est_hypotheque_explicite f || est_hypotheque_implicite f) = true)
         formalites.

(** The test of the inner loop: the cancellation names the date of the
    mortgage. *)
Definition radie_par (hypotheque radiation : formalite) : bool :=
  let nature_rad := nature_acte_redacteur radiation in
  str_in (date_depot hypotheque) nature_rad
  && str_in (u "RADIATION") (upper nature_rad)
  && str_in (u "TOTALE") (upper nature_rad).

Definition est_radiee (radiations : list formalite) (hypotheque : formalite) : bool :=
  existsb (radie_par hypotheque) radiations.

Definition hypotheque_active_de (hypotheque : formalite) : hypotheque_active :=
  {| ha_numero_ordre := numero_ordre hypotheque;
     ha_date_depot := date_depot hypotheque;
     ha_date_acte := date_acte hypotheque;
     ha_nature_acte := nature_acte_redacteur hypotheque;
     ha_reference_enliassement := reference_enliassement hypotheque;
     ha_contenu := contenu hypotheque;
     ha_lots_volumes := extraire_lots_volumes_hypotheque (contenu hypotheque);
     ha_statut := u "ACTIVE" |}.

Definition analyser_hypotheques_actives (formalites : list formalite)
  : list hypotheque_active :=
  hypotheque_active_de
    <$> filter (λ h, est_radiee (radiations formalites) h = false) (hypotheques formalites).

End Analyse.

Section Mutations.
Context `{Unicode}.

(** *** [extraire_mutations] *)

Definition ligne_personne : pystr :=
  u "(\d+)\s+([A-Z\'][A-Z\s\']+?)\s+(\d{2}/\d{2}/\d{4}|\d{3}\s+\d{3}\s+\d{3})".

Definition personne_de (s : pystr) (m : match_obj) : personne :=
  {| p_numero := strip (group' s m 1);
     p_designation := strip (group' s m 2);
     p_date_naissance := strip (group' s m 3) |}.

(** The table of persons under one of the headers [patterns], or the single
    line found after the label [simple]. *)
Definition extraire_personnes (patterns : list pystr) (simple : pystr) (contenu : pystr)
  : list personne :=
  let tableau :=
    match first_some (λ pattern, re_search IS_ pattern contenu) patterns with
    | Some m =>
      let texte := strip (group' contenu m 1) in
      personne_de texte <$> re_finditer NOFLAG ligne_personne texte
    | None => []
    end in
  match tableau with
  | [] =>
    match re_search IS_ simple contenu with
    | Some m => [personne_de contenu m]
    | None => []
    end
  | _ => tableau
  end.

Definition disposant_patterns : list pystr :=
  [ u "Disposant[,\s]*Donateur\s*.*?Numéro\s+Désignation des personnes\s+Date de naissance.*?\n(.*?)(?=\n\s*Bénéficiaire|\n\s*Immeubles|$)";
    u "Disposant\s*.*?Numéro\s+Désignation des personnes\s+Date de naissance.*?\n(.*?)(?=\n\s*Bénéficiaire|\n\s*Immeubles|$)";
    u "Donateur\s*.*?Numéro\s+Désignation des personnes\s+Date de naissance.*?\n(.*?)(?=\n\s*Bénéficiaire|\n\s*Immeubles|$)" ].

Definition simple_disposant : pystr :=
  u "Disposant.*?\n.*?(\d+)\s+([A-Z\'][A-Z\s\']+?)\s+(\d{2}/\d{2}/\d{4}|\d{3}\s+\d{3}\s+\d{3})".

Definition beneficiaire_patterns : list pystr :=
  [ u "Bénéficiaire[,\s]*Donataire\s*.*?Numéro\s+Désignation des personnes\s+Date de naissance.*?\n(.*?)(?=\n\s*Immeubles|$)";
    u "Bénéficiaire\s*.*?Numéro\s+Désignation des personnes\s+Date de naissance.*?\n(.*?)(?=\n\s*Immeubles|$)";
    u "Donataire\s*.*?Numéro\s+Désignation des personnes\s+Date de naissance.*?\n(.*?)(?=\n\s*Immeubles|$)" ].

Definition simple_beneficiaire : pystr :=
  u "Bénéficiaire.*?\n.*?(\d+)\s+([A-Z\'][A-Z\s\']+?)\s+(\d{2}/\d{2}/\d{4}|\d{3}\s+\d{3}\s+\d{3})".

Definition immeubles_patterns : list pystr :=
  [ u "Immeubles\s*.*?Bénéficiaires\s+Droits\s+Commune\s+Désignation cadastrale\s+Volume\s+Lot\s*\n(.*?)(?=\n\s*US\s*:|$)";
    u "Immeubles\s*\n\s*Bénéficiaires\s+Droits\s+Commune\s+Désignation cadastrale\s+Volume\s+Lot\s*\n(.*?)(?=\n\s*[A-Z]{2,}\s*:|$)" ].

Definition ligne_patterns : list pystr :=
  [ u "(\d+(?:\s+à\s+\d+)?)\s+([A-Z/]{1,3})\s+([A-Z\s\d]+?)\s+([A-Z]{1,3}\s*\d+)\s*\n((?:\s*\d+\s*\n?)*)";
    u "(\d+(?:\s+à\s+\d+)?)\s+([A-Z]{2,})\s+([A-Z\s\d]+?)\s+([A-Z]{1,3}\s*\d+)\s*\n((?:\s*\d+\s*\n?)*)" ].

Definition ligne_immeuble_de (immeubles_text : pystr) (m : match_obj) : ligne_immeuble :=
  let lots_text := default [] (group immeubles_text m 5) in
  {| li_beneficiaire_numero := strip (group' immeubles_text m 1);
     li_droits := strip (group' immeubles_text m 2);
     li_commune := strip (group' immeubles_text m 3);
     li_designation_cadastrale := strip (group' immeubles_text m 4);
     li_volume := [];
     li_lots := if bool_decide (lots_text = []) then []
                else re_findall NOFLAG (u "\d+") 0 lots_text |}.

(** The lines of the table, by the first of the line patterns that finds
    some. *)
Fixpoint lignes_immeubles (immeubles_text : pystr) (patterns : list pystr)
  : list ligne_immeuble :=
  match patterns with
  | [] => []
  | ligne_pattern :: suite =>
    match ligne_immeuble_de immeubles_text <$> re_finditer M_ ligne_pattern immeubles_text with
    | [] => lignes_immeubles immeubles_text suite
    | lignes => lignes
    end
  end.

Definition extraire_immeubles (contenu : pystr) : option immeubles_mutation :=
  let immeubles_text :=
    match first_some (λ pattern, re_search IS_ pattern contenu) immeubles_patterns with
    | Some m => strip (group' contenu m 1)
    | None => []
    end in
  if bool_decide (immeubles_text = []) then None
  else
    match lignes_immeubles immeubles_text ligne_patterns with
    | [] => None
    | (premiere_ligne :: _) as lignes =>
      Some {| im_beneficiaire_numero := li_beneficiaire_numero premiere_ligne;
              im_droits := li_droits premiere_ligne;
              im_commune := li_commune premiere_ligne;
              im_designation_cadastrale := li_designation_cadastrale premiere_ligne;
              im_volume := [];
              im_lots := sans_doublons (flat_map li_lots lignes);
              im_lignes_detaillees := lignes |}
    end.

Definition montant_patterns : list pystr :=
  [ u "Prix/évaluation\s*:\s*([0-9\s,\.]+\s*EUR)";
    u "Prix\s*:\s*([0-9\s,\.]+\s*EUR)";
    u "Évaluation\s*:\s*([0-9\s,\.]+\s*EUR)";
    u "Montant\s*:\s*([0-9\s,\.]+\s*EUR)" ].

(** [None] is the empty dictionary returned for an empty content. *)
Definition extraire_mutations (contenu : pystr) : option mutations_data :=
  if bool_decide (contenu = []) then None
  else
    Some {| md_disposant_donateur :=
              extraire_personnes disposant_patterns simple_disposant contenu;
            md_beneficiaire_donataire :=
              extraire_personnes beneficiaire_patterns simple_beneficiaire contenu;
            md_immeubles := extraire_immeubles contenu;
            md_montant :=
              match first_some (λ pattern, re_search I_ pattern contenu) montant_patterns with
              | Some m => strip (group' contenu m 1)
              | None => []
              end |}.

(** *** [analyser_mutations] *)

(** The formalities looked at: neither a mortgage nor a cancellation by
    their act text. *)
Definition hors_hypotheque (formalite : formalite) : bool :=
  let nature_acte := upper (nature_acte_redacteur formalite) in
  negb (str_in (u "HYPOTHEQUE") nature_acte) && negb (str_in (u "RADIATION") nature_acte).

Definition mutations_trouvees (mutations_data : mutations_data) : bool :=
  bool_decide (md_disposant_donateur mutations_data ≠ [])
  || bool_decide (md_beneficiaire_donataire mutations_data ≠ [])
  || bool_decide (md_immeubles mutations_data ≠ None).

Definition mutation_de (formalite : formalite) : option mutation :=
  if hors_hypotheque formalite then
    match extraire_mutations (contenu formalite) with
    | Some mutations_data =>
      if mutations_trouvees mutations_data then
        Some {| mu_numero_ordre := numero_ordre formalite;
                mu_date_depot := date_depot formalite;
                mu_date_acte := date_acte formalite;
                mu_nature_acte := nature_acte_redacteur formalite;
                mu_reference_enliassement := reference_enliassement formalite;
                mu_mutations := mutations_data |}
      else None
    | None => None
    end
  else None.

Definition analyser_mutations (formalites : list formalite) : list mutation :=
  omap mutation_de formalites.

End Mutations.

(** ** The table of the last page (ReferencePropertyExtractor) *)

(** A value that is a string or, for a cell of several lines, a list. *)
Inductive valeur :=
| Texte (s : pystr)
| Liste (l : list pystr).

#[global] Instance valeur_eq_dec : EqDecision valeur.
Proof. solve_decision. Defined.

Record immeuble := {
  i_code : pystr;
  i_commune : pystr;
  i_designation_cadastrale : pystr;
  i_volume : valeur;
  i_lot : valeur;
  i_page : nat
}.

#[global] Instance immeuble_eq_dec : EqDecision immeuble.
Proof. solve_decision. Defined.

(** A cell of a table: [None] or a string; a row: its cells. *)
Definition cellule := option pystr.
Definition rangee := list cellule.

(** The truth value of a cell. *)
Definition cellule_vraie (cell : cellule) : bool :=
  match cell with
  | Some (_ :: _) => true
  | _ => false
  end.

(** [sep.join(l)] *)
Fixpoint join (sep : pystr) (l : list pystr) : pystr :=
  match l with
  | [] => []
  | [x] => x
  | x :: r => x ++ sep ++ join sep r
  end.

(** [str(row[k]).strip() if len(row) > k and row[k] else ""] *)
Definition colonne (data_row : rangee) (k : nat) : pystr :=
  match data_row !! k with
  | Some (Some (c :: s)) => strip (c :: s)
  | _ => []
  end.

(** The stripped lines of a cell that are not blank. *)
Definition lignes_non_vides (s : pystr) : list pystr :=
  filter (λ l, l ≠ []) (strip <$> str_split [NL] s).

Section Tableau.
Context `{Unicode}.

Definition est_entete (row : rangee) : bool :=
  let row_text := join (u " ") (omap (λ cell, if cellule_vraie cell then cell else None) row) in
  existsb (λ keyword, str_in keyword (upper row_text))
          [u "CODE"; u "COMMUNE"; u "DESIGNATION"].

(** One line of a volume cell: a range [A à B] gives the numbers from [A]
    to [B].  The integers between two bounds that [int] has read have no
    more digits than its limit, so that [str] does not fail on them. *)
Definition traiter_volume_part (volume_part : pystr) : list pystr :=
  if str_in (u " à ") volume_part then
    match str_split (u " à ") volume_part with
    | [a; b] =>
      match py_int (strip a), py_int (strip b) with
      | Some start, Some end_ => str_of_Z <$> range_incl start end_
      | _, _ => [volume_part]
      end
    | _ => [volume_part]
    end
  else [volume_part].

Definition traiter_lot (lot : pystr) : valeur :=
  if bool_decide (lot ≠ []) && str_in [NL] lot
  then Liste (lignes_non_vides lot) else Texte lot.

Definition traiter_volume (volume : pystr) : valeur :=
  if bool_decide (volume ≠ []) && str_in [NL] volume
  then Liste (flat_map traiter_volume_part (lignes_non_vides volume)) else Texte volume.

(** The building for a data row, when the row is kept. *)
Definition immeuble_de (page_num : nat) (data_row : rangee) : option immeuble :=
  if bool_decide (data_row = []) || negb (existsb cellule_vraie data_row) then None
  else
    let code := colonne data_row 0 in
    let commune := colonne data_row 1 in
    if bool_decide (code ≠ []) || bool_decide (commune ≠ []) then
      Some {| i_code := code;
              i_commune := commune;
              i_designation_cadastrale := colonne data_row 2;
              i_volume := traiter_volume (colonne data_row 3);
              i_lot := traiter_lot (colonne data_row 4);
              i_page := page_num |}
    else None.

(** The rows of a table from [row] on: under each header row, the rows that
    follow it. *)
Fixpoint immeubles_de_table (page_num : nat) (table : list rangee) : list immeuble :=
  match table with
  | [] => []
  | row :: suite =>
    (if bool_decide (row ≠ []) && est_entete row
     then omap (immeuble_de page_num) suite else [])
    ++ immeubles_de_table page_num suite
  end.

(** [tables] are the tables of the last page, [total_pages] its number. *)
Definition extract_tableau_derniere_page (total_pages : nat) (tables : list (list rangee))
  : list immeuble :=
  flat_map (immeubles_de_table total_pages) tables.

End Tableau.

(** ** The reconstruction of the ownership (OwnershipReconstructor) *)

(** The order in which a Python [set] of strings is iterated is not fixed by
    its elements (it follows the hashes, which change from one run to the
    next): an order is any enumeration of the elements. *)
Record ordre_ensembles := {
  enum : gset pystr → list pystr;
  enum_perm : ∀ X, enum X ≡ₚ elements X
}.

Definition ordre_canonique : ordre_ensembles :=
  {| enum := elements; enum_perm := λ X, reflexivity (elements X) |}.

Definition IMMEUBLE_ENTIER : pystr := u "IMMEUBLE_ENTIER".

(** The value of [propriete_lots] for a lot. *)
Record attribution := {
  a_proprietaire : personne;
  a_droits : pystr;
  a_date_acquisition : pystr;
  a_nature_acte : pystr;
  a_numero_ordre_mutation : nat
}.

#[global] Instance attribution_eq_dec : EqDecision attribution.
Proof. solve_decision. Defined.

Record immeuble_ref_desc := {
  ir_commune : pystr;
  ir_designation_cadastrale : pystr;
  ir_code : pystr
}.

(** An entry of [propriete_actuelle]. *)
Record propriete := {
  pr_immeuble : immeuble_ref_desc;
  pr_proprietaire : personne;
  pr_lots : list pystr;
  pr_droits : pystr;
  pr_date_acquisition : pystr
}.

#[global] Instance immeuble_ref_desc_eq_dec : EqDecision immeuble_ref_desc.
Proof. solve_decision. Defined.
#[global] Instance propriete_eq_dec : EqDecision propriete.
Proof. solve_decision. Defined.

(** The value of [proprietaires] for an owner. *)
Record groupe := {
  g_proprietaire : personne;
  g_lots : list pystr;
  g_droits : pystr;
  g_date_acquisition_plus_recente : pystr
}.

(** [convertir_date_pour_tri]: the unpacking of the split fails unless it
    has three parts, and the handler answers the default date. *)
Definition convertir_date_pour_tri (date_str : pystr) : pystr :=
  if str_in (u "/") date_str then
    match str_split (u "/") date_str with
    | [jour; mois; annee] => annee ++ u "-" ++ zfill 2 mois ++ u "-" ++ zfill 2 jour
    | _ => u "0000-00-00"
    end
  else date_str.

(** The key of the sort. *)
Definition cle_tri (m : mutation) : pystr := convertir_date_pour_tri (mu_date_depot m).

Definition mutations_triees (mutations : list mutation) : list mutation :=
  sorted_reverse
    (λ x y, str_lt (convertir_date_pour_tri (mu_date_depot x))
                   (convertir_date_pour_tri (mu_date_depot y)))
    mutations.

(** The entries of the ["immeubles"] dictionary of a mutation, with the
    defaults of [get] when it is empty. *)
Definition im_get {A} (f : immeubles_mutation → A) (d : A) (mutation : mutation) : A :=
  match md_immeubles (mu_mutations mutation) with
  | Some im => f im
  | None => d
  end.

(** [d[k] = v] for each [k] of [ks] that [d] does not have. *)
Definition attribuer (lots : list pystr) (info : attribution) (propriete_lots : dict attribution)
  : dict attribution :=
  foldl (λ d lot, match dict_get d lot with
                  | None => dict_set d lot info
                  | Some _ => d
                  end)
        propriete_lots lots.

Section Reconstitution.
Context `{Unicode} (o : ordre_ensembles).

(** The lots of the building of reference, from its ["lot"] entry. *)
Definition lots_immeuble_ref (immeuble_ref : immeuble) : gset pystr :=
  match i_lot immeuble_ref with
  | Texte lots_immeuble =>
    if bool_decide (strip lots_immeuble ≠ []) then {[ lots_immeuble ]} else ∅
  | Liste lots_immeuble => list_to_set lots_immeuble
  end.

Definition meme_commune (commune_ref : pystr) (mutation : mutation) : bool :=
  str_in (upper (im_get im_commune [] mutation)) (upper commune_ref).

Definition meme_immeuble (commune_ref designation_ref : pystr) (mutation : mutation) : bool :=
  meme_commune commune_ref mutation
  && bool_decide (im_get im_designation_cadastrale [] mutation = designation_ref).

(** The lots to reconstruct: those of the building of reference, or else
    those of the mutations on the same building, or else those of the
    mutations in the same commune. *)
Definition lots_ref_de (mutations : list mutation) (immeuble_ref : immeuble) : gset pystr :=
  let commune_ref := i_commune immeuble_ref in
  let designation_ref := i_designation_cadastrale immeuble_ref in
  let lots_des (critere : mutation → bool) : gset pystr :=
    list_to_set (flat_map (im_get im_lots []) (filter (λ m, critere m = true) mutations)) in
  let lots_ref := lots_immeuble_ref immeuble_ref in
  if bool_decide (lots_ref ≠ ∅) then lots_ref
  else
    let lots_ref := lots_des (meme_immeuble commune_ref designation_ref) in
    if bool_decide (lots_ref ≠ ∅) then lots_ref
    else lots_des (meme_commune commune_ref).

Definition concerne_immeuble (commune_ref designation_ref : pystr) (mutation : mutation) : bool :=
  if bool_decide (im_get im_commune [] mutation ≠ [])
     && bool_decide (im_get im_designation_cadastrale [] mutation ≠ [])
  then meme_immeuble commune_ref designation_ref mutation
  else true.

Definition lots_concernes_de (lots_ref : gset pystr) (mutation : mutation) : gset pystr :=
  let lots_mutation : gset pystr := list_to_set (im_get im_lots [] mutation) in
  if bool_decide (lots_ref = ∅) && bool_decide (lots_mutation = ∅)
  then {[ IMMEUBLE_ENTIER ]}
  else lots_ref ∩ lots_mutation.

Definition attribution_de (mutation : mutation) (beneficiaire : personne) (droits : pystr)
  : attribution :=
  {| a_proprietaire := {| p_numero := p_numero beneficiaire;
                          p_designation := p_designation beneficiaire;
                          p_date_naissance := p_date_naissance beneficiaire |};
     a_droits := droits;
     a_date_acquisition := mu_date_depot mutation;
     a_nature_acte := mu_nature_acte mutation;
     a_numero_ordre_mutation := mu_numero_ordre mutation |}.

(** The body of the loop over the detailed lines. *)
Definition traiter_ligne (mutation : mutation) (lots_concernes : gset pystr)
    (beneficiaires : list personne) (propriete_lots : dict attribution)
    (ligne_immeuble : ligne_immeuble) : dict attribution :=
  let numero_beneficiaire := li_beneficiaire_numero ligne_immeuble in
  let lots_ligne : gset pystr := list_to_set (li_lots ligne_immeuble) in
  let lots_ligne_concernes : gset pystr :=
    if bool_decide (IMMEUBLE_ENTIER ∈ lots_concernes) then {[ IMMEUBLE_ENTIER ]}
    else lots_concernes ∩ lots_ligne in
  if bool_decide (lots_ligne_concernes ≠ ∅) then
    match list_find (λ b, p_numero b = numero_beneficiaire) beneficiaires with
    | Some (_, beneficiaire_correspondant) =>
      attribuer (enum o lots_ligne_concernes)
                (attribution_de mutation beneficiaire_correspondant (li_droits ligne_immeuble))
                propriete_lots
    | None => propriete_lots
    end
  else propriete_lots.

(** The body of the loop over the sorted mutations, before the test that
    ends it. *)
Definition traiter_mutation (lots_ref : gset pystr) (commune_ref designation_ref : pystr)
    (propriete_lots : dict attribution) (mutation : mutation) : dict attribution :=
  if concerne_immeuble commune_ref designation_ref mutation then
    let lots_concernes := lots_concernes_de lots_ref mutation in
    if bool_decide (lots_concernes ≠ ∅) then
      let beneficiaires := md_beneficiaire_donataire (mu_mutations mutation) in
      let lignes_detaillees := im_get im_lignes_detaillees [] mutation in
      match beneficiaires, lignes_detaillees with
      | _ :: _, _ :: _ =>
        foldl (traiter_ligne mutation lots_concernes beneficiaires) propriete_lots
              lignes_detaillees
      | beneficiaire :: _, [] =>
        attribuer (enum o lots_concernes)
                  (attribution_de mutation beneficiaire (im_get im_droits [] mutation))
                  propriete_lots
      | [], _ => propriete_lots
      end
    else propriete_lots
  else propriete_lots.

(** The test after each mutation. *)
Definition tous_attribues (lots_ref : gset pystr) (propriete_lots : dict attribution) : bool :=
  let lots_attribues : gset pystr := list_to_set (dict_keys propriete_lots) in
  if bool_decide (lots_ref ≠ ∅) then bool_decide (lots_attribues = lots_ref)
  else bool_decide (IMMEUBLE_ENTIER ∈ lots_attribues).

(** The loop over the sorted mutations, with its [break]: the result is
    [propriete_lots] and the mutations that were processed, as the journal
    printed by the loop lists them. *)
Fixpoint boucle_mutations (lots_ref : gset pystr) (commune_ref designation_ref : pystr)
    (propriete_lots : dict attribution) (mutations_triees : list mutation)
  : dict attribution * list mutation :=
  match mutations_triees with
  | [] => (propriete_lots, [])
  | mutation :: suite =>
    let propriete_lots := traiter_mutation lots_ref commune_ref designation_ref
                                           propriete_lots mutation in
    if tous_attribues lots_ref propriete_lots then (propriete_lots, [mutation])
    else
      let '(final, traitees) :=
        boucle_mutations lots_ref commune_ref designation_ref propriete_lots suite in
      (final, mutation :: traitees)
  end.

(** [propriete_lots] at the end of the loop, and the mutations processed. *)
Definition attributions (mutations : list mutation) (immeuble_ref : immeuble)
  : dict attribution * list mutation :=
  boucle_mutations (lots_ref_de mutations immeuble_ref)
                   (i_commune immeuble_ref) (i_designation_cadastrale immeuble_ref)
                   [] (mutations_triees mutations).

(** The grouping by owner. *)
Definition grouper (proprietaires : dict groupe) (item : pystr * attribution) : dict groupe :=
  let '(lot, info) := item in
  let prop_key :=
    p_designation (a_proprietaire info) ++ u "_" ++ p_date_naissance (a_proprietaire info) in
  let g :=
    default {| g_proprietaire := a_proprietaire info;
               g_lots := [];
               g_droits := a_droits info;
               g_date_acquisition_plus_recente := a_date_acquisition info |}
            (dict_get proprietaires prop_key) in
  dict_set proprietaires prop_key
    {| g_proprietaire := g_proprietaire g;
       g_lots := g_lots g ++ [lot];
       g_droits := g_droits g;
       g_date_acquisition_plus_recente :=
         if str_lt (g_date_acquisition_plus_recente g) (a_date_acquisition info)
         then a_date_acquisition info else g_date_acquisition_plus_recente g |}.

Definition propriete_de (ref : immeuble_ref_desc) (prop_info : groupe) : propriete :=
  {| pr_immeuble := ref;
     pr_proprietaire := g_proprietaire prop_info;
     pr_lots := if bool_decide (IMMEUBLE_ENTIER ∈ g_lots prop_info)
                then [u "Immeuble entier"]
                else sorted str_lt (filter (λ lot, lot ≠ IMMEUBLE_ENTIER) (g_lots prop_info));
     pr_droits := g_droits prop_info;
     pr_date_acquisition := g_date_acquisition_plus_recente prop_info |}.

Definition reconstituer_propriete (mutations : list mutation) (immeubles : list immeuble)
  : list propriete :=
  match mutations, immeubles with
  | [], _ | _, [] => []
  | _, immeuble_ref :: _ =>
    let lots_ref := lots_ref_de mutations immeuble_ref in
    let ref := {| ir_commune := i_commune immeuble_ref;
                  ir_designation_cadastrale := i_designation_cadastrale immeuble_ref;
                  ir_code := i_code immeuble_ref |} in
    let propriete_lots := (attributions mutations immeuble_ref).1 in
    let lots_non_attribues := lots_ref ∖ list_to_set (dict_keys propriete_lots) in
    (propriete_de ref <$> (foldl grouper [] propriete_lots).*2)
    ++ (if bool_decide (lots_non_attribues ≠ ∅) then
          [ {| pr_immeuble := ref;
               pr_proprietaire := {| p_numero := []; p_designation := u "PROPRIETAIRE INCONNU";
                                     p_date_naissance := [] |};
               pr_lots := sorted str_lt (enum o lots_non_attribues);
               pr_droits := u "INCONNU";
               pr_date_acquisition := [] |} ]
        else [])
  end.

End Reconstitution.

(** ** The pipeline (ExtractionPipeline) *)

(** What is read from the PDF file: the stem of its name, the text of each
    page, and the tables of the last page. *)
Record document := {
  pdf_name : pystr;
  pages : list pystr;
  tables_derniere_page : list (list rangee)
}.

Record statistiques := {
  nombre_total_formalites : nat;
  nombre_hypotheques_actives : nat;
  nombre_mutations : nat;
  comptage_par_type : dict nat;
  date_extraction : pystr;
  fichier_source : pystr;
  propriete_reconstituee : bool
}.

(** The document of the formalities, as it is saved at the end. *)
Record structure_finale := {
  sf_formalites : list formalite;
  sf_hypotheques_actives : list hypotheque_active;
  sf_mutations : list mutation;
  sf_statistiques : statistiques;
  sf_propriete_actuelle : list propriete
}.

Section Pipeline.
Context `{Unicode} (o : ordre_ensembles).

(** [extract_formalites_from_pdf], from the text of the pages. *)
Definition extract_formalites_from_pdf (pages : list pystr)
  : list formalite * dict nat * list hypotheque_active * list mutation :=
  let formalites := formalites_of_text (full_text_of pages) in
  (formalites, comptage_trie formalites,
   analyser_hypotheques_actives formalites, analyser_mutations formalites).

(** [extraction_complete_ehf]: the two documents written, the formalities
    and the buildings of the last page; [None] when the file has no page,
    where the access to the last page fails. *)
Definition extraction_complete_ehf (doc : document)
  : option (structure_finale * list immeuble) :=
  match pages doc with
  | [] => None
  | _ =>
    let '(formalites, comptage_types, hypotheques_actives, mutations) :=
      extract_formalites_from_pdf (pages doc) in
    let immeubles :=
      extract_tableau_derniere_page (length (pages doc)) (tables_derniere_page doc) in
    let propriete_actuelle := reconstituer_propriete o mutations immeubles in
    Some ({| sf_formalites := formalites;
             sf_hypotheques_actives := hypotheques_actives;
             sf_mutations := mutations;
             sf_statistiques :=
               {| nombre_total_formalites := length formalites;
                  nombre_hypotheques_actives := length hypotheques_actives;
                  nombre_mutations := length mutations;
                  comptage_par_type := comptage_types;
                  date_extraction := u "2024-10-30";
                  fichier_source := pdf_name doc;
                  propriete_reconstituee := bool_decide (propriete_actuelle ≠ []) |};
             sf_propriete_actuelle := propriete_actuelle |},
          immeubles)
  end.

End Pipeline.

(** ** The statements of the specification, where they differ from the code *)

Section Lectures.
Context `{Unicode}.

(** The classifier as the specification words it: the text before the
    first occurrence of any variant of the phrase, whichever variant it
    is. *)
Definition premiere_occurrence (original : pystr) : option nat :=
  foldr (λ pattern acc,
           match re_search I_ pattern original, acc with
           | Some m, Some k => Some (m_start m `min` k)%nat
           | Some m, None => Some (m_start m)
           | None, _ => acc
           end)
        None patterns_formalite.

Definition classifier_selon_spec (nature_acte : pystr) : pystr :=
  let original := strip nature_acte in
  match premiere_occurrence original with
  | Some k => strip (take k original)
  | None => original
  end.

End Lectures.

Section LecturesFormalites.
Context `{Unicode}.

(** The number of occurrences of the anchor phrase in the text. *)
Definition nombre_ancres (full_text : pystr) : nat :=
  length (re_finditer I_ depot_pattern full_text).

(** A pattern that begins with [\s+]. *)
Definition commence_par_espace (pattern : pystr) : Prop :=
  ∃ a b, re_compile I_ pattern = Some (Seq (Seq (Chr is_space) a) b).

End LecturesFormalites.

(** ** The examples of the specification *)

(** A mortgage deposited on 12/03/2010 and the cancellation that names
    it. *)
Definition hypotheque_exemple : formalite :=
  {| numero_ordre := 1;
     date_depot := u "12/03/2010";
     date_acte := u "01/03/2010";
     contenu := u "Date de depot: 12/03/2010 Nature de l'acte : HYPOTHEQUE CONVENTIONNELLE";
     nature_acte_redacteur := u "HYPOTHEQUE CONVENTIONNELLE";
     reference_enliassement := [] |}.

Definition radiation_exemple : formalite :=
  {| numero_ordre := 2;
     date_depot := u "05/09/2018";
     date_acte := u "01/09/2018";
     contenu := u "Date de depot: 05/09/2018 Nature de l'acte : RADIATION TOTALE DE L'HYPOTHEQUE DU 12/03/2010";
     nature_acte_redacteur := u "RADIATION TOTALE DE L'HYPOTHEQUE DU 12/03/2010";
     reference_enliassement := [] |}.

(** A page whose only formality is a loan: its act text names neither a
    mortgage nor a cancellation, its content has the creditors and the
    debtor, and a disposing party. *)
Definition page_pret : pystr := u "Relevé des formalités
Date de dépôt : 05/06/2015
Nature de l'acte : PRET de la formalité initiale
Rédacteur : ME MARTIN
Créanciers
1 BANQUE DU NORD
Débiteur
Disposant
1 DUPONT JEAN 01/01/1970
".

(** A table of the last page: the header, and a row whose commune has two
    lines, whose volume is a range on one line and whose lot has two
    lines. *)
Definition table_exemple : list rangee :=
  [ [Some (u "Code"); Some (u "Commune"); Some (u "Désignation cadastrale");
     Some (u "Volume"); Some (u "Lot")];
    [Some (u "75"); Some (u "PARIS
15"); Some (u "CJ 42"); Some (u "71 à 72"); Some (u "9
17")] ].

(** The same with the volume on two lines, the second a range. *)
Definition table_exemple_plage : list rangee :=
  [ [Some (u "Code"); Some (u "Commune"); Some (u "Désignation cadastrale");
     Some (u "Volume"); Some (u "Lot")];
    [Some (u "75"); Some (u "PARIS 15"); Some (u "CJ 42"); Some (u "57
71 à 72"); Some (u "9
17
35
57")] ].

(** A date written DD/MM/YYYY with the digits 0 to 9. *)
Definition date_jjmmaaaa (d : pystr) : Prop :=
  ∃ j1 j2 m1 m2 a1 a2 a3 a4,
    d = [j1; j2; 47; m1; m2; 47; a1; a2; a3; a4]
    ∧ Forall (λ c, 48 ≤ c ≤ 57) [j1; j2; m1; m2; a1; a2; a3; a4].

(** The example of the reconstruction: the building of reference has the
    lots 9 and 17; the mutation A, the most recent, gives the lot 9 to X;
    the mutation B, older, gives the lots 9 and 17 to Y. *)
Definition proprietaire_X : personne :=
  {| p_numero := u "1"; p_designation := u "XAVIER"; p_date_naissance := u "01/01/1970" |}.

Definition proprietaire_Y : personne :=
  {| p_numero := u "1"; p_designation := u "YVES"; p_date_naissance := u "02/02/1960" |}.

Definition mutation_exemple (numero : nat) (date : pystr) (beneficiaire : personne)
    (lots : list pystr) : mutation :=
  {| mu_numero_ordre := numero;
     mu_date_depot := date;
     mu_date_acte := date;
     mu_nature_acte := u "VENTE";
     mu_reference_enliassement := [];
     mu_mutations :=
       {| md_disposant_donateur := [];
          md_beneficiaire_donataire := [beneficiaire];
          md_immeubles :=
            Some {| im_beneficiaire_numero := p_numero beneficiaire;
                    im_droits := u "PP";
                    im_commune := u "PARIS 15";
                    im_designation_cadastrale := u "CJ 42";
                    im_volume := [];
                    im_lots := lots;
                    im_lignes_detaillees :=
                      [ {| li_beneficiaire_numero := p_numero beneficiaire;
                           li_droits := u "PP";
                           li_commune := u "PARIS 15";
                           li_designation_cadastrale := u "CJ 42";
                           li_volume := [];
                           li_lots := lots |} ] |};
          md_montant := [] |} |}.

Definition mutation_A : mutation :=
  mutation_exemple 2 (u "15/06/2020") proprietaire_X [u "9"].

Definition mutation_B : mutation :=
  mutation_exemple 1 (u "20/12/2010") proprietaire_Y [u "9"; u "17"].

(** A mutation older than both, on the same lots. *)
Definition mutation_C : mutation :=
  mutation_exemple 3 (u "03/03/2001") proprietaire_X [u "9"; u "17"].

(** A mutation whose date of deposit was not found. *)
Definition mutation_sans_date : mutation :=
  mutation_exemple 4 NON_TROUVE proprietaire_Y [u "9"; u "17"].

Definition immeuble_exemple : immeuble :=
  {| i_code := u "75";
     i_commune := u "PARIS 15";
     i_designation_cadastrale := u "CJ 42";
     i_volume := Texte [];
     i_lot := Liste [u "9"; u "17"];
     i_page := 3 |}.

(** A building of reference without lots and two mutations without lots:
    the whole building is reconstructed. *)
Definition immeuble_sans_lot : immeuble :=
  {| i_code := u "75";
     i_commune := u "PARIS 15";
     i_designation_cadastrale := u "CJ 42";
     i_volume := Texte [];
     i_lot := Texte [];
     i_page := 3 |}.

Definition mutation_D : mutation :=
  mutation_exemple 2 (u "15/06/2015") proprietaire_X [].

Definition mutation_E : mutation :=
  mutation_exemple 1 (u "20/12/2005") proprietaire_Y [].

(** Two pages with a formality each, and a page where an anchor follows
    another with a blank between them. *)
Definition pages_exemple : list pystr :=
  [ u "Relevé des formalités
Date de dépôt : 01/01/2020
Nature de l'acte : VENTE
Rédacteur : ME A
";
    u "Date de depot: 02/02/2021
Nature de l'acte : DONATION
Rédacteur : ME B
" ].

Definition pages_ancre_double : list pystr :=
  [ u "Date de dépôt: Date de dépôt: 01/01/2020 VENTE" ].

(** Formalities of which only the act text matters. *)
Definition formalite_de_nature (numero : nat) (nature : pystr) : formalite :=
  {| numero_ordre := numero;
     date_depot := NON_TROUVE;
     date_acte := NON_TROUVE;
     contenu := [];
     nature_acte_redacteur := nature;
     reference_enliassement := [] |}.

Definition formalites_exemple : list formalite :=
  [ formalite_de_nature 1 (u "DONATION");
    formalite_de_nature 2 (u "VENTE de la formalité initiale");
    formalite_de_nature 3 NON_TROUVE;
    formalite_de_nature 4 (u "PRET");
    formalite_de_nature 5 (u "  ");
    formalite_de_nature 6 (u " VENTE") ].

(** ** The steps of the reconstruction *)

(** An attribution made while [mutation] was processed. *)
Definition vient_de (mutation : mutation) (a : attribution) : Prop :=
  a_date_acquisition a = mu_date_depot mutation
  ∧ a_nature_acte a = mu_nature_acte mutation
  ∧ a_numero_ordre_mutation a = mu_numero_ordre mutation
  ∧ a_proprietaire a ∈ md_beneficiaire_donataire (mu_mutations mutation).

(** What a step may do to [propriete_lots]: keep the keys distinct, leave
    the owner of a lot that has one, and give a lot that has none an owner
    that comes from the mutation processed. *)
Definition pas_conserve (mutation : mutation) (d d' : dict attribution) : Prop :=
  (NoDup (dict_keys d) → NoDup (dict_keys d'))
  ∧ ∀ lot,
      match dict_get d lot with
      | Some a => dict_get d' lot = Some a
      | None => ∀ a, dict_get d' lot = Some a → vient_de mutation a
      end.

Section Etapes.
Context `{Unicode} (o : ordre_ensembles).

(** [propriete_lots] after the mutations of [l] were processed, one after
    the other, from the empty dictionary. *)
Definition etat_apres (lots_ref : gset pystr) (commune_ref designation_ref : pystr)
    (l : list mutation) : dict attribution :=
  foldl (traiter_mutation o lots_ref commune_ref designation_ref) [] l.

End Etapes.

(** ** The order of the sets and the result *)

(** The sets enumerated from the last element to the first. *)
Definition ordre_inverse : ordre_ensembles :=
  {| enum := λ X, reverse (elements X);
     enum_perm := λ X, reverse_Permutation (elements X) |}.

(** One turn of the loop of [attribuer]. *)
Definition attribuer_un (info : attribution) (d : dict attribution) (lot : pystr)
  : dict attribution :=
  match dict_get d lot with
  | None => dict_set d lot info
  | Some _ => d
  end.

(** Two states of [propriete_lots] that differ by the order of neighbours
    with the same attribution. *)
Inductive equiv_blocs : dict attribution → dict attribution → Prop :=
| eb_nil : equiv_blocs [] []
| eb_skip x l l' : equiv_blocs l l' → equiv_blocs (x :: l) (x :: l')
| eb_swap k1 k2 a l : equiv_blocs ((k1, a) :: (k2, a) :: l) ((k2, a) :: (k1, a) :: l)
| eb_trans l1 l2 l3 : equiv_blocs l1 l2 → equiv_blocs l2 l3 → equiv_blocs l1 l3.

(** Two groups that differ by the order of their lots. *)
Definition groupe_equiv (g1 g2 : groupe) : Prop :=
  g_proprietaire g1 = g_proprietaire g2
  ∧ g_droits g1 = g_droits g2
  ∧ g_date_acquisition_plus_recente g1 = g_date_acquisition_plus_recente g2
  ∧ g_lots g1 ≡ₚ g_lots g2.

Definition groupes_equiv (d1 d2 : dict groupe) : Prop :=
  Forall2 (λ x y, x.1 = y.1 ∧ groupe_equiv x.2 y.2) d1 d2.

(** ** The grouping by owner, step by step *)

(** The key of [proprietaires] for an attribution. *)
Definition cle_proprietaire (info : attribution) : pystr :=
  p_designation (a_proprietaire info) ++ u "_" ++ p_date_naissance (a_proprietaire info).

(** The group of an owner after one more lot: [og] is the group before,
    [None] when the owner is new. *)
Definition ajouter_au_groupe (og : option groupe) (lot : pystr) (info : attribution) : groupe :=
  let g := default {| g_proprietaire := a_proprietaire info;
                      g_lots := [];
                      g_droits := a_droits info;
                      g_date_acquisition_plus_recente := a_date_acquisition info |} og in
  {| g_proprietaire := g_proprietaire g;
     g_lots := g_lots g ++ [lot];
     g_droits := g_droits g;
     g_date_acquisition_plus_recente :=
       if str_lt (g_date_acquisition_plus_recente g) (a_date_acquisition info)
       then a_date_acquisition info else g_date_acquisition_plus_recente g |}.

(** The items of [propriete_lots] of one owner. *)
Definition items_de (k : pystr) (d : list (pystr * attribution))
  : list (pystr * attribution) :=
  filter (λ item, cle_proprietaire item.2 = k) d.

(** A mutation older than A whose date comes after the date of A in the
    order of the strings, for the same owner. *)
Definition mutation_F : mutation :=
  mutation_exemple 5 (u "20/12/2010") proprietaire_X [u "9"; u "17"].

(** Two lots of the same owner, the second with other rights and an older
    date. *)
Definition attributions_exemple : dict attribution :=
  [ (u "9", attribution_de mutation_A proprietaire_X (u "PP"));
    (u "17", attribution_de mutation_F proprietaire_X (u "US")) ].

Definition groupe_exemple : groupe :=
  {| g_proprietaire := proprietaire_X;
     g_lots := [u "9"; u "17"];
     g_droits := u "PP";
     g_date_acquisition_plus_recente := u "20/12/2010" |}.

(** A closed proposition that is decided by evaluation. *)
Ltac par_calcul := refine (bool_decide_unpack _ _); vm_compute; exact I.

(** ** The dates as numbers *)

(** The number written by decimal digits. *)
Definition nombre (chiffres : list N) : N :=
  foldl (λ acc c, 10 * acc + (c - 48)) 0 chiffres.

(** The rank of a date DD/MM/YYYY in the calendar: the number YYYYMMDD. *)
Definition rang_date (d : pystr) : N :=
  match d with
  | [j1; j2; _; m1; m2; _; a1; a2; a3; a4] => nombre [a1; a2; a3; a4; m1; m2; j1; j2]
  | _ => 0
  end.

(** One step of the comparison of two strings whose heads are known. *)
Ltac compare_tete :=
  match goal with
  | |- (?a <? ?b) || ((?a =? ?b) && _) = true ↔ _ =>
    destruct (N.lt_trichotomy a b) as [?|[?|?]];
    [ replace (a <? b) with true by (symmetry; apply N.ltb_lt; lia);
      cbn [orb andb]; split; [intros _; lia|done]
    | replace (a <? b) with false by (symmetry; apply N.ltb_ge; lia);
      replace (a =? b) with true by (symmetry; apply N.eqb_eq; lia);
      cbn [orb andb]
    | replace (a <? b) with false by (symmetry; apply N.ltb_ge; lia);
      replace (a =? b) with false by (symmetry; apply N.eqb_neq; lia);
      cbn [orb andb]; split; [done|intros ?; lia] ]
  end.

(** A document of one page without anchor. *)
Definition document_sans_formalite : document :=
  {| pdf_name := u "EHF8";
     pages := [u "Relevé des formalités publiées
Aucune formalité"];
     tables_derniere_page := [] |}.

(** The first formality of [pages_exemple]. *)
Definition formalite_vente : formalite :=
  {| numero_ordre := 1;
     date_depot := u "01/01/2020";
     date_acte := NON_TROUVE;
     contenu := u "Date de depot: 01/01/2020
Nature de l'acte : VENTE
Rédacteur : ME A";
     nature_acte_redacteur := u "VENTE";
     reference_enliassement := [] |}.

(** The formality of [page_pret] and the mutation read from it. *)
Definition formalite_pret : formalite :=
  {| numero_ordre := 1;
     date_depot := u "05/06/2015";
     date_acte := NON_TROUVE;
     contenu := u "Date de depot: 05/06/2015
Nature de l'acte : PRET de la formalité initiale
Rédacteur : ME MARTIN
Créanciers
1 BANQUE DU NORD
Débiteur
Disposant
1 DUPONT JEAN 01/01/1970";
     nature_acte_redacteur := u "PRET de la formalité initiale";
     reference_enliassement := [] |}.

Definition mutation_pret : mutation :=
  {| mu_numero_ordre := 1;
     mu_date_depot := u "05/06/2015";
     mu_date_acte := NON_TROUVE;
     mu_nature_acte := u "PRET de la formalité initiale";
     mu_reference_enliassement := [];
     mu_mutations :=
       {| md_disposant_donateur :=
            [ {| p_numero := u "1"; p_designation := u "DUPONT JEAN";
                 p_date_naissance := u "01/01/1970" |} ];
          md_beneficiaire_donataire := [];
          md_immeubles := None;
          md_montant := [] |} |}.

(** The content of a sale with a table of buildings of one line. *)
Definition contenu_vente : pystr := u "Date de depot: 01/01/2020
Nature de l'acte : VENTE
Rédacteur : ME A
Disposant, Donateur
Numéro Désignation des personnes Date de naissance
1 DUPONT JEAN 01/01/1970
Bénéficiaire, Donataire
Numéro Désignation des personnes Date de naissance
2 MARTIN PAUL 02/02/1980
Immeubles
Bénéficiaires Droits Commune Désignation cadastrale Volume Lot
2 PP PARIS 15 CJ 42
9
17
9".

Definition ligne_vente : ligne_immeuble :=
  {| li_beneficiaire_numero := u "2";
     li_droits := u "PP";
     li_commune := u "PARIS 15";
     li_designation_cadastrale := u "CJ 42";
     li_volume := [];
     li_lots := [u "9"; u "17"; u "9"] |}.

Definition immeubles_vente : immeubles_mutation :=
  {| im_beneficiaire_numero := u "2";
     im_droits := u "PP";
     im_commune := u "PARIS 15";
     im_designation_cadastrale := u "CJ 42";
     im_volume := [];
     im_lots := [u "9"; u "17"];
     im_lignes_detaillees := [ligne_vente] |}.

Definition mutations_vente : mutations_data :=
  {| md_disposant_donateur :=
       [ {| p_numero := u "1"; p_designation := u "DUPONT JEAN";
            p_date_naissance := u "01/01/1970" |} ];
     md_beneficiaire_donataire :=
       [ {| p_numero := u "2"; p_designation := u "MARTIN PAUL";
            p_date_naissance := u "02/02/1980" |} ];
     md_immeubles := Some immeubles_vente;
     md_montant := [] |}.

(** ** The rows of the table and their values *)

(** A text without white space at its head and at its end. *)
Definition sans_blanc_au_bord (s : pystr) : Prop :=
  (∀ c r, s = c :: r → is_space c = false) ∧ (∀ c r, s = r ++ [c] → is_space c = false).

(** ** The check of the uploaded file (app) *)

(** [s.rsplit(sep, 1)]: the split at the last occurrence of the separator,
    found as the first occurrence in the reversed text. *)
Definition str_rsplit_once (sep s : pystr) : list pystr :=
  match str_split_once (reverse sep) (reverse s) with
  | [apres; avant] => [reverse avant; reverse apres]
  | _ => [s]
  end.

(** [str.lower], which the program takes from Python's Unicode database as
    a function of the whole text (the lower case of a letter may depend on
    its place in the word). *)
Class Minuscules := { py_lower : pystr → pystr }.

(** Lower case for the texts of Basic Latin and Latin-1. *)
Definition latin1_minuscules : Minuscules :=
  {| py_lower := flat_map (λ c, if c =? 304 then [105; 775] else [latin1_lower c]) |}.

Definition ALLOWED_EXTENSIONS : gset pystr := {[ u "pdf" ]}.

Section Televersement.
Context `{Minuscules}.

(** [allowed_file]: the name has a dot and the text after its last dot is,
    in lower case, an allowed extension. *)
Definition allowed_file (filename : pystr) : bool :=
  str_in (u ".") filename
  && match str_rsplit_once (u ".") filename !! 1%nat with
     | Some extension => bool_decide (py_lower extension ∈ ALLOWED_EXTENSIONS)
     | None => false
     end.

End Televersement.

(** ** The dates read in the text *)

(** A text of the form DD/MM/YYYY whose D, M and Y are decimal digits of
    Unicode. *)
Definition date_chiffres `{Unicode} (d : pystr) : Prop :=
  ∃ j1 j2 m1 m2 a1 a2 a3 a4,
    d = [j1; j2; 47; m1; m2; 47; a1; a2; a3; a4]
    ∧ Forall (λ c, uc_decimal c ≠ None) [j1; j2; m1; m2; a1; a2; a3; a4].

(** ** What a mutation gives to a lot *)

Section Dons.
Context `{Unicode}.

(** The attribution that a detailed line makes to a lot without owner: the
    lot is among the lots of the line that are concerned, and the number of
    the line is the number of a beneficiary, the first one that has it. *)
Definition ligne_donne (mutation : mutation) (lots_concernes : gset pystr)
    (beneficiaires : list personne) (lot : pystr) (ligne_immeuble : ligne_immeuble)
  : option attribution :=
  let lots_ligne_concernes : gset pystr :=
    if bool_decide (IMMEUBLE_ENTIER ∈ lots_concernes) then {[ IMMEUBLE_ENTIER ]}
    else lots_concernes ∩ list_to_set (li_lots ligne_immeuble) in
  if bool_decide (lot ∈ lots_ligne_concernes) then
    match list_find (λ b, p_numero b = li_beneficiaire_numero ligne_immeuble) beneficiaires with
    | Some (_, beneficiaire_correspondant) =>
      Some (attribution_de mutation beneficiaire_correspondant (li_droits ligne_immeuble))
    | None => None
    end
  else None.

(** The attribution that a mutation makes to a lot without owner, if it
    makes one: by its first detailed line that gives the lot, or, without
    detailed lines, to its first beneficiary. *)
Definition mutation_donne (lots_ref : gset pystr) (commune_ref designation_ref : pystr)
    (mutation : mutation) (lot : pystr) : option attribution :=
  if concerne_immeuble commune_ref designation_ref mutation then
    let lots_concernes := lots_concernes_de lots_ref mutation in
    let beneficiaires := md_beneficiaire_donataire (mu_mutations mutation) in
    match beneficiaires, im_get im_lignes_detaillees [] mutation with
    | _ :: _, _ :: _ =>
      first_some (ligne_donne mutation lots_concernes beneficiaires lot)
                 (im_get im_lignes_detaillees [] mutation)
    | beneficiaire :: _, [] =>
      if bool_decide (lot ∈ lots_concernes)
      then Some (attribution_de mutation beneficiaire (im_get im_droits [] mutation))
      else None
    | [], _ => None
    end
  else None.

End Dons.

(** A mutation names a lot of the reconstruction: the lot is a lot of
    reference in the list of the lots of the mutation, or it is the mark of
    the whole building when there is no lot of reference and the mutation
    has no lot. *)
Definition nomme (lots_ref : gset pystr) (mutation : mutation) (lot : pystr) : Prop :=
  (lot ∈ lots_ref ∧ lot ∈ im_get im_lots [] mutation)
  ∨ (lot = IMMEUBLE_ENTIER ∧ lots_ref = ∅ ∧ im_get im_lots [] mutation = []).

(** Two sales of the lots of [immeuble_exemple].  In the older one YVES MARC
    buys the lots 9 and 17.  In the recent one he sells the lot 9 to the
    beneficiaries 2 and 3, and the line of the table names them by a
    range. *)
Definition pages_deux_ventes : list pystr :=
  [ u "Relevé des formalités
Date de dépôt : 20/12/2010
Nature de l'acte : VENTE
Rédacteur : ME A
Disposant, Donateur
Numéro Désignation des personnes Date de naissance
1 DUPONT JEAN 01/01/1970
Bénéficiaire, Donataire
Numéro Désignation des personnes Date de naissance
2 YVES MARC 02/02/1960
Immeubles
Bénéficiaires Droits Commune Désignation cadastrale Volume Lot
2 PP PARIS 15 CJ 42
9
17
";
    u "Date de dépôt : 15/06/2020
Nature de l'acte : VENTE
Rédacteur : ME B
Disposant, Donateur
Numéro Désignation des personnes Date de naissance
1 YVES MARC 02/02/1960
Bénéficiaire, Donataire
Numéro Désignation des personnes Date de naissance
2 XAVIER PAUL 03/03/1980
3 ZOE ANNE 04/04/1982
Immeubles
Bénéficiaires Droits Commune Désignation cadastrale Volume Lot
2 à 3 PP PARIS 15 CJ 42
9
" ].

(** The same with the line of the recent sale numbered 2. *)
Definition pages_deux_ventes_numero : list pystr :=
  [ u "Relevé des formalités
Date de dépôt : 20/12/2010
Nature de l'acte : VENTE
Rédacteur : ME A
Disposant, Donateur
Numéro Désignation des personnes Date de naissance
1 DUPONT JEAN 01/01/1970
Bénéficiaire, Donataire
Numéro Désignation des personnes Date de naissance
2 YVES MARC 02/02/1960
Immeubles
Bénéficiaires Droits Commune Désignation cadastrale Volume Lot
2 PP PARIS 15 CJ 42
9
17
";
    u "Date de dépôt : 15/06/2020
Nature de l'acte : VENTE
Rédacteur : ME B
Disposant, Donateur
Numéro Désignation des personnes Date de naissance
1 YVES MARC 02/02/1960
Bénéficiaire, Donataire
Numéro Désignation des personnes Date de naissance
2 XAVIER PAUL 03/03/1980
3 ZOE ANNE 04/04/1982
Immeubles
Bénéficiaires Droits Commune Désignation cadastrale Volume Lot
2 PP PARIS 15 CJ 42
9
" ].

Definition yves_marc : personne :=
  {| p_numero := u "2"; p_designation := u "YVES MARC"; p_date_naissance := u "02/02/1960" |}.

Definition xavier_paul : personne :=
  {| p_numero := u "2"; p_designation := u "XAVIER PAUL"; p_date_naissance := u "03/03/1980" |}.

Definition zoe_anne : personne :=
  {| p_numero := u "3"; p_designation := u "ZOE ANNE"; p_date_naissance := u "04/04/1982" |}.

(** The mutation read from the recent sale of [pages_deux_ventes]. *)
Definition vente_recente : mutation :=
  {| mu_numero_ordre := 2;
     mu_date_depot := u "15/06/2020";
     mu_date_acte := NON_TROUVE;
     mu_nature_acte := u "VENTE";
     mu_reference_enliassement := [];
     mu_mutations :=
       {| md_disposant_donateur :=
            [ {| p_numero := u "1"; p_designation := u "YVES MARC";
                 p_date_naissance := u "02/02/1960" |} ];
          md_beneficiaire_donataire := [xavier_paul; zoe_anne];
          md_immeubles :=
            Some {| im_beneficiaire_numero := u "2 à 3";
                    im_droits := u "PP";
                    im_commune := u "PARIS 15";
                    im_designation_cadastrale := u "CJ 42";
                    im_volume := [];
                    im_lots := [u "9"];
                    im_lignes_detaillees :=
                      [ {| li_beneficiaire_numero := u "2 à 3";
                           li_droits := u "PP";
                           li_commune := u "PARIS 15";
                           li_designation_cadastrale := u "CJ 42";
                           li_volume := [];
                           li_lots := [u "9"] |} ] |};
          md_montant := [] |} |}.

(** The mutation read from the older sale. *)
Definition vente_ancienne : mutation :=
  {| mu_numero_ordre := 1;
     mu_date_depot := u "20/12/2010";
     mu_date_acte := NON_TROUVE;
     mu_nature_acte := u "VENTE";
     mu_reference_enliassement := [];
     mu_mutations :=
       {| md_disposant_donateur :=
            [ {| p_numero := u "1"; p_designation := u "DUPONT JEAN";
                 p_date_naissance := u "01/01/1970" |} ];
          md_beneficiaire_donataire := [yves_marc];
          md_immeubles :=
            Some {| im_beneficiaire_numero := u "2";
                    im_droits := u "PP";
                    im_commune := u "PARIS 15";
                    im_designation_cadastrale := u "CJ 42";
                    im_volume := [];
                    im_lots := [u "9"; u "17"];
                    im_lignes_detaillees :=
                      [ {| li_beneficiaire_numero := u "2";
                           li_droits := u "PP";
                           li_commune := u "PARIS 15";
                           li_designation_cadastrale := u "CJ 42";
                           li_volume := [];
                           li_lots := [u "9"; u "17"] |} ] |};
          md_montant := [] |} |}.

(** A mutation on the building of the example with a beneficiary, without
    table of buildings. *)
Definition mutation_sans_immeubles : mutation :=
  {| mu_numero_ordre := 5;
     mu_date_depot := u "01/01/2022";
     mu_date_acte := NON_TROUVE;
     mu_nature_acte := u "DONATION";
     mu_reference_enliassement := [];
     mu_mutations :=
       {| md_disposant_donateur := [];
          md_beneficiaire_donataire := [zoe_anne];
          md_immeubles := None;
          md_montant := [] |} |}.

(** * Properties *)

(** ** Stripping and searching *)

Lemma lstrip_head s c r : lstrip s = c :: r → is_space c = false.
Proof.
  induction s as [|x s IH]; simpl; [done|].
  destruct (is_space x) eqn:E; [done|]. intros [= <- <-]. done.
Qed.

Lemma lstrip_app_keep a c b :
  is_space c = false → ∃ a', lstrip (a ++ c :: b) = a' ++ c :: b.
Proof.
  intros Hc. induction a as [|x a IH]; simpl.
  - rewrite Hc. by exists [].
  - destruct (is_space x); [done|]. by exists (x :: a).
Qed.

Lemma rstrip_cons_keep c r : is_space c = false → ∃ r', rstrip (c :: r) = c :: r'.
Proof.
  intros Hc. unfold rstrip. rewrite reverse_cons.
  destruct (lstrip_app_keep (reverse r) c [] Hc) as [a' ->].
  exists (reverse a'). by rewrite reverse_app.
Qed.

Lemma strip_cons_keep c r : is_space c = false → ∃ r', strip (c :: r) = c :: r'.
Proof.
  intros Hc. unfold strip. simpl. rewrite Hc. by apply rstrip_cons_keep.
Qed.

Lemma strip_head s c r : strip s = c :: r → is_space c = false.
Proof.
  unfold strip. destruct (lstrip s) as [|c0 r0] eqn:E; [done|].
  pose proof (lstrip_head _ _ _ E) as Hc0.
  destruct (rstrip_cons_keep c0 r0 Hc0) as [r' ->]. by intros [= <- _].
Qed.

Lemma search_go_spec r : ∀ rest pre m,
  search_go r pre rest = Some m →
  ∃ skipped rest', rest = skipped ++ rest'
    ∧ match_at r (reverse skipped ++ pre) rest' = Some m.
Proof.
  induction rest as [|x rest IH]; intros pre m; simpl.
  - destruct (match_at r pre []) eqn:E; [|done]. intros [= ->]. by exists [], [].
  - destruct (match_at r pre (x :: rest)) eqn:E.
    + intros [= ->]. by exists [], (x :: rest).
    + intros (sk & rest' & -> & Hm)%IH. exists (x :: sk), rest'. split; [done|].
      by rewrite reverse_cons, <- app_assoc.
Qed.

Lemma match_at_start r pre rest m : match_at r pre rest = Some m → m_start m = length pre.
Proof.
  unfold match_at. destruct (rx _ _ _ _ _) as [[[? ?] ?]|]; [|done]. by intros [= <-].
Qed.

Lemma match_at_first_char p a b pre rest m :
  match_at (Seq (Seq (Chr p) a) b) pre rest = Some m →
  ∃ x rest', rest = x :: rest' ∧ p x = true.
Proof.
  unfold match_at. simpl. destruct rest as [|x rest']; [done|].
  destruct (p x) eqn:E; [|done]. intros _. by exists x, rest'.
Qed.

Section Classifier.
Context `{Unicode}.

Lemma patterns_formalite_espace : Forall commence_par_espace patterns_formalite.
Proof.
  unfold patterns_formalite.
  repeat (constructor; [do 2 eexists; lazy -[is_space uc_fold]; reflexivity|]).
  constructor.
Qed.

Lemma classifier_boucle_spec original patterns :
  Forall commence_par_espace patterns →
  (∀ c r, original = c :: r → is_space c = false) →
  match first_some (λ pattern, re_search I_ pattern original) patterns with
  | Some m => classifier_boucle original patterns = strip (take (m_start m) original)
              ∧ classifier_boucle original patterns ≠ []
  | None => classifier_boucle original patterns = original
  end.
Proof.
  intros Hpat Hhead. induction Hpat as [|pattern patterns Hp _ IH]; simpl; [done|].
  destruct (re_search I_ pattern original) as [m|] eqn:Hs; [|exact IH].
  destruct Hp as (a & b & Hc). unfold re_search in Hs. rewrite Hc in Hs. simpl in Hs.
  apply search_go_spec in Hs as (skipped & rest' & Ho & Hm).
  pose proof (match_at_start _ _ _ _ Hm) as Hstart.
  apply match_at_first_char in Hm as (x & rest'' & -> & Hx).
  rewrite app_nil_r, length_reverse in Hstart.
  destruct skipped as [|c sk].
  { simpl in Ho. by rewrite (Hhead _ _ Ho) in Hx. }
  assert (Hc' : is_space c = false) by (by eapply Hhead).
  assert (Htake : take (m_start m) original = c :: sk).
  { rewrite Hstart, Ho. by rewrite take_app_length. }
  rewrite Htake. destruct (strip_cons_keep c sk Hc') as [r' Hr]. rewrite Hr.
  rewrite bool_decide_eq_false_2 by done. done.
Qed.

Lemma classifier_type_acte_ordre_patterns (nature_acte : pystr) :
  let original := strip nature_acte in
  match first_some (λ pattern, re_search I_ pattern original) patterns_formalite with
  | Some m => classifier_type_acte nature_acte = strip (take (m_start m) original)
              ∧ classifier_type_acte nature_acte ≠ []
  | None => classifier_type_acte nature_acte = original
  end.
Proof.
  apply classifier_boucle_spec; [apply patterns_formalite_espace|].
  intros c r. apply strip_head.
Qed.
End Classifier.

(** Claim C6, as the code has it.  [classifier_type_acte] strips its
    argument and tries the four variants of the phrase in the order of the
    list: with the first variant that occurs in the text, it answers the
    stripped text before the leftmost occurrence of that variant, which is
    never empty; when no variant occurs it answers the stripped argument.
    On [VENTE de la formalité n°3] it answers [VENTE], and on [VENTE] it
    answers [VENTE]. *)
Theorem classifier_type_acte_priorite :
  (∀ (U : Unicode) (nature_acte : pystr),
     let original := strip nature_acte in
     match first_some (λ pattern, re_search I_ pattern original) patterns_formalite with
     | Some m => classifier_type_acte nature_acte = strip (take (m_start m) original)
                 ∧ classifier_type_acte nature_acte ≠ []
     | None => classifier_type_acte nature_acte = original
     end)
  ∧ classifier_type_acte (H := latin1) (u "VENTE de la formalité n°3") = u "VENTE"
  ∧ classifier_type_acte (H := latin1) (u "VENTE") = u "VENTE"
  ∧ classifier_type_acte (H := latin1) (u "  DONATION   DE LA FORMALITE initiale ")
    = u "DONATION".
Proof.
  split_and!.
  - intros U nature_acte. apply classifier_type_acte_ordre_patterns.
  - vm_compute. reflexivity.
  - vm_compute. reflexivity.
  - vm_compute. reflexivity.
Qed.

(** Claim C6 as it is stated fails on a text with two variants of the
    phrase: the accented variant is tried first, so that the answer is the
    text before it, and not the text before the variant without accent that
    comes first in the text. *)
Lemma classifier_contre_exemple :
  classifier_type_acte (H := latin1) (u "A de la formalite B de la formalité C")
  = u "A de la formalite B"
  ∧ classifier_selon_spec (H := latin1) (u "A de la formalite B de la formalité C") = u "A"
  ∧ ¬ ∀ nature_acte : pystr,
        classifier_type_acte (H := latin1) nature_acte
        = classifier_selon_spec (H := latin1) nature_acte.
Proof.
  split_and!.
  - vm_compute. reflexivity.
  - vm_compute. reflexivity.
  - intros Hc. specialize (Hc (u "A de la formalite B de la formalité C")).
    vm_compute in Hc. discriminate Hc.
Qed.

(** ** The numbering of the formalities *)

Lemma length_pieces s ms : ∀ pos, length (pieces s pos ms) = S (length ms).
Proof. induction ms as [|m ms IH]; intros pos; simpl; [done|]. by rewrite IH. Qed.

Lemma StronglySorted_lt_seq a n : StronglySorted lt (seq a n).
Proof.
  revert a. induction n as [|n IH]; intros a; simpl; constructor; [apply IH|].
  apply Forall_seq. intros; lia.
Qed.

Lemma StronglySorted_filter {A} (R : relation A) (P : A → Prop) `{∀ x, Decision (P x)} l :
  StronglySorted R l → StronglySorted R (filter P l).
Proof.
  induction 1 as [|x l Hl IH Hx]; [constructor|].
  rewrite filter_cons. case_decide; [|done].
  constructor; [done|]. apply Forall_forall. intros y [_ Hy]%list_elem_of_filter.
  by eapply Forall_forall in Hx.
Qed.

Section Numerotation.
Context `{Unicode}.

Lemma length_sections_of full_text :
  length (sections_of full_text) = S (nombre_ancres full_text).
Proof. apply length_pieces. Qed.

Lemma numeros_sections l : ∀ pre, (0 < length pre)%nat →
  numero_ordre <$> omap (λ p, formalite_of_section p.1 p.2)
                        (imap (λ i, pair (length pre + i)%nat) l)
  = filter (λ i, strip ((pre ++ l) !!! i) ≠ []) (seq (length pre) (length l)).
Proof.
  induction l as [|x l IH]; intros pre Hpre; [done|].
  rewrite imap_cons.
  rewrite (imap_ext _ (λ i, pair (length (pre ++ [x]) + i)%nat)).
  2:{ intros i y _. simpl. rewrite length_app. simpl. f_equal. lia. }
  cbn [omap list_omap fst snd length seq].
  rewrite filter_cons, Nat.add_0_r, list_lookup_total_middle by done.
  specialize (IH (pre ++ [x])). rewrite <- app_assoc, length_app in IH. simpl in IH.
  rewrite Nat.add_1_r in IH. rewrite <- IH by lia. clear IH.
  rewrite length_app. simpl length. rewrite Nat.add_1_r.
  unfold formalite_of_section at 1.
  rewrite bool_decide_eq_false_2 by lia.
  case_bool_decide as Hs; case_decide; done.
Qed.

Lemma numeros_formalites full_text :
  numero_ordre <$> formalites_of_text full_text
  = filter (λ i, strip (sections_of full_text !!! i) ≠ [])
           (seq 1 (nombre_ancres full_text)).
Proof.
  unfold formalites_of_text. pose proof (length_sections_of full_text) as Hlen.
  destruct (sections_of full_text) as [|s0 l]; [done|].
  rewrite imap_cons. cbn [omap list_omap fst snd].
  unfold formalite_of_section at 1. rewrite bool_decide_eq_true_2 by done.
  pose proof (numeros_sections l [s0]) as Haux. simpl in Haux.
  injection Hlen as <-. rewrite <- Haux by lia. done.
Qed.

Lemma numeros_sections_non_vides (pages : list pystr) :
  let full_text := full_text_of pages in
  let N := nombre_ancres full_text in
  let numeros := numero_ordre <$> formalites_of_text full_text in
  length (sections_of full_text) = S N
  ∧ numeros = filter (λ i, strip (sections_of full_text !!! i) ≠ []) (seq 1 N)
  ∧ StronglySorted lt numeros
  ∧ Forall (λ i, (1 ≤ i ≤ N)%nat) numeros
  ∧ (Forall (λ i, strip (sections_of full_text !!! i) ≠ []) (seq 1 N) → numeros = seq 1 N).
Proof.
  intros full_text N numeros. subst numeros N.
  rewrite numeros_formalites. split; [apply length_sections_of|]. split; [done|].
  split; [apply StronglySorted_filter, StronglySorted_lt_seq|].
  split.
  - apply Forall_forall. intros i [_ Hi%elem_of_seq]%list_elem_of_filter. lia.
  - intros Hall. induction Hall as [|i l Hi _ IH]; [done|].
    rewrite filter_cons_True by done. by rewrite IH.
Qed.
End Numerotation.

(** Claim C3, as the code has it.  With [N] the number of occurrences of
    the anchor in the text of the document, the split gives [N + 1]
    segments, and the [numero_ordre] of the formalities are, in strictly
    increasing order, the indices from 1 to [N] of the segments that are not
    blank: a blank segment gives no formality and its index is skipped.
    When no segment after the first is blank, the numbers are exactly
    1..[N], as for the two pages of the example. *)
Theorem numero_ordre_sections_non_vides :
  (∀ (U : Unicode) (pages : list pystr),
     let full_text := full_text_of pages in
     let N := nombre_ancres full_text in
     let numeros := numero_ordre <$> formalites_of_text full_text in
     length (sections_of full_text) = S N
     ∧ numeros = filter (λ i, strip (sections_of full_text !!! i) ≠ []) (seq 1 N)
     ∧ StronglySorted lt numeros
     ∧ Forall (λ i, (1 ≤ i ≤ N)%nat) numeros
     ∧ (Forall (λ i, strip (sections_of full_text !!! i) ≠ []) (seq 1 N) →
        numeros = seq 1 N))
  ∧ nombre_ancres (H := latin1) (full_text_of pages_exemple) = 2%nat
  ∧ numero_ordre <$> formalites_of_text (H := latin1) (full_text_of pages_exemple)
    = [1; 2]%nat.
Proof.
  split_and!.
  - intros U pages. apply numeros_sections_non_vides.
  - vm_compute. reflexivity.
  - vm_compute. reflexivity.
Qed.

(** Claim C3 as it is stated fails on [pages_ancre_double]: the anchor
    occurs twice, the segment between the two occurrences is blank and is
    dropped, and the only formality has the number 2. *)
Lemma numerotation_contre_exemple :
  nombre_ancres (H := latin1) (full_text_of pages_ancre_double) = 2%nat
  ∧ sections_of (H := latin1) (full_text_of pages_ancre_double)
    = [ []; u " "; u " 01/01/2020 VENTE
" ]
  ∧ numero_ordre <$> formalites_of_text (H := latin1) (full_text_of pages_ancre_double)
    = [2%nat]
  ∧ ¬ ∀ pages : list pystr,
        numero_ordre <$> formalites_of_text (H := latin1) (full_text_of pages)
        = seq 1 (nombre_ancres (H := latin1) (full_text_of pages)).
Proof.
  split_and!.
  - vm_compute. reflexivity.
  - vm_compute. reflexivity.
  - vm_compute. reflexivity.
  - intros Hc. specialize (Hc pages_ancre_double). vm_compute in Hc. discriminate Hc.
Qed.

(** ** Dictionaries and sorting *)

Lemma dict_get_set {V} (d : dict V) k v k' :
  dict_get (dict_set d k v) k' = if bool_decide (k = k') then Some v else dict_get d k'.
Proof.
  induction d as [|[k0 v0] d IH]; cbn [dict_get dict_set]; [done|].
  destruct (bool_decide_reflect (k0 = k)) as [->|Hne]; cbn [dict_get].
  - destruct (bool_decide_reflect (k = k')); done.
  - rewrite IH. destruct (bool_decide_reflect (k0 = k')) as [->|?]; [|done].
    by rewrite bool_decide_eq_false_2.
Qed.

Lemma dict_get_None {V} (d : dict V) k : dict_get d k = None ↔ k ∉ dict_keys d.
Proof.
  unfold dict_keys. induction d as [|[k0 v0] d IH]; cbn [dict_get fmap list_fmap fst].
  - split; [intros _; apply not_elem_of_nil|done].
  - rewrite not_elem_of_cons.
    destruct (bool_decide_reflect (k0 = k)) as [->|Hne]; naive_solver.
Qed.

Lemma dict_keys_set {V} (d : dict V) k v :
  dict_keys (dict_set d k v) = if bool_decide (k ∈ dict_keys d) then dict_keys d
                               else dict_keys d ++ [k].
Proof.
  unfold dict_keys. induction d as [|[k0 v0] d IH]; cbn [dict_set fmap list_fmap fst].
  - rewrite bool_decide_eq_false_2; [done|apply not_elem_of_nil].
  - destruct (bool_decide_reflect (k0 = k)) as [->|Hne]; cbn [fmap list_fmap fst].
    + rewrite bool_decide_eq_true_2; [done|left].
    + rewrite IH. destruct (bool_decide_reflect (k ∈ d.*1)) as [Hin|Hnin].
      * rewrite bool_decide_eq_true_2; [done|by right].
      * rewrite bool_decide_eq_false_2; [done|].
        rewrite not_elem_of_cons. naive_solver.
Qed.

Lemma dict_of_keys {V} (f : pystr → V) (d : dict V) :
  NoDup (dict_keys d) →
  (∀ t, t ∈ dict_keys d → dict_get d t = Some (f t)) →
  d = (λ t, (t, f t)) <$> dict_keys d.
Proof.
  unfold dict_keys. induction d as [|[k v] d IH]; cbn [dict_get fmap list_fmap fst]; [done|].
  intros [Hk Hnd]%NoDup_cons Hget. f_equal.
  - specialize (Hget k ltac:(left)). rewrite bool_decide_eq_true_2 in Hget by done.
    by injection Hget as ->.
  - apply IH; [done|]. intros t Ht. specialize (Hget t ltac:(by right)).
    rewrite bool_decide_eq_false_2 in Hget; [done|]. by intros ->.
Qed.

(** [sans_doublons] *)
Lemma foldl_ajouter_NoDup l : ∀ acc, NoDup acc → NoDup (foldl ajouter_nouveau acc l).
Proof.
  induction l as [|x l IH]; intros acc Hacc; simpl; [done|].
  apply IH. unfold ajouter_nouveau. case_bool_decide; [done|].
  apply NoDup_app. split_and!; [done| |apply NoDup_singleton].
  intros y Hy ->%list_elem_of_singleton. done.
Qed.

Lemma foldl_ajouter_elem_of l : ∀ acc x,
  x ∈ foldl ajouter_nouveau acc l ↔ x ∈ acc ∨ x ∈ l.
Proof.
  induction l as [|y l IH]; intros acc x; simpl.
  - set_solver.
  - rewrite IH. unfold ajouter_nouveau. case_bool_decide; set_solver.
Qed.

Lemma NoDup_sans_doublons l : NoDup (sans_doublons l).
Proof. apply foldl_ajouter_NoDup. constructor. Qed.

Lemma elem_of_sans_doublons l x : x ∈ sans_doublons l ↔ x ∈ l.
Proof. unfold sans_doublons. rewrite (foldl_ajouter_elem_of l [] x). set_solver. Qed.

(** Stable descending sort *)
Section Tri.
Context {A : Type} (key : A → nat).
Let lt_key (x y : A) : bool := (key x <? key y)%nat.

Lemma insert_desc_perm x l : insert_desc lt_key x l ≡ₚ x :: l.
Proof.
  induction l as [|y l IH]; simpl; [done|].
  destruct (lt_key x y); [|done]. rewrite IH. apply Permutation_swap.
Qed.

Lemma sorted_reverse_perm l : sorted_reverse lt_key l ≡ₚ l.
Proof.
  induction l as [|x l IH]; simpl; [done|].
  unfold sorted_reverse in *. simpl. by rewrite insert_desc_perm, IH.
Qed.

Lemma insert_desc_sorted x l :
  StronglySorted (λ a b, (key b ≤ key a)%nat) l →
  StronglySorted (λ a b, (key b ≤ key a)%nat) (insert_desc lt_key x l).
Proof.
  induction 1 as [|y l Hl IH Hy]; simpl; [repeat constructor|].
  unfold lt_key at 1. destruct (Nat.ltb_spec (key x) (key y)) as [Hlt|Hge].
  - constructor; [done|]. rewrite insert_desc_perm. constructor; [lia|done].
  - constructor; [by constructor|]. constructor; [done|].
    eapply Forall_impl; [exact Hy|]. simpl. intros; lia.
Qed.

Lemma sorted_reverse_sorted l :
  StronglySorted (λ a b, (key b ≤ key a)%nat) (sorted_reverse lt_key l).
Proof.
  induction l as [|x l IH]; [constructor|]. by apply insert_desc_sorted.
Qed.

Lemma insert_desc_stable n x l :
  filter (λ e, key e = n) (insert_desc lt_key x l) = filter (λ e, key e = n) (x :: l).
Proof.
  induction l as [|y l IH]; simpl; [done|].
  unfold lt_key at 1. destruct (Nat.ltb_spec (key x) (key y)) as [Hlt|Hge]; [|done].
  rewrite filter_cons, IH, !filter_cons.
  repeat case_decide; try done; lia.
Qed.

Lemma sorted_reverse_stable n l :
  filter (λ e, key e = n) (sorted_reverse lt_key l) = filter (λ e, key e = n) l.
Proof.
  induction l as [|x l IH]; [done|].
  unfold sorted_reverse in *. simpl. rewrite insert_desc_stable, !filter_cons, IH. done.
Qed.
End Tri.

(** ** The count of the act types *)

Section Comptage.
Context `{Unicode}.

Lemma dict_get_compter d x t :
  dict_get (compter d x) t
  = if bool_decide (x = t) then Some (default 0 (dict_get d x) + 1)%nat else dict_get d t.
Proof.
  unfold compter. destruct (dict_get d x) as [n|] eqn:E; by rewrite dict_get_set.
Qed.

Lemma dict_keys_compter d x : dict_keys (compter d x) = ajouter_nouveau (dict_keys d) x.
Proof. unfold compter. destruct (dict_get d x); by rewrite dict_keys_set. Qed.

Lemma foldl_compter_keys labels : ∀ acc,
  dict_keys (foldl compter acc labels) = foldl ajouter_nouveau (dict_keys acc) labels.
Proof.
  induction labels as [|x l IH]; intros acc; simpl; [done|].
  by rewrite IH, dict_keys_compter.
Qed.

Lemma foldl_compter_get labels t : ∀ acc,
  default 0%nat (dict_get (foldl compter acc labels) t)
  = (default 0 (dict_get acc t) + occurrences t labels)%nat.
Proof.
  unfold occurrences. induction labels as [|x l IH]; intros acc; simpl; [lia|].
  rewrite IH, dict_get_compter, filter_cons.
  destruct (bool_decide_reflect (x = t)) as [->|Hne].
  - rewrite decide_True by done. simpl. lia.
  - by rewrite decide_False.
Qed.

Lemma comptage_types_premier_vu formalites :
  comptage_types formalites
  = (λ t, (t, occurrences t (types_comptes formalites)))
      <$> sans_doublons (types_comptes formalites).
Proof.
  unfold comptage_types. set (labels := types_comptes formalites).
  assert (Hk : dict_keys (foldl compter [] labels) = sans_doublons labels)
    by apply foldl_compter_keys.
  rewrite <- Hk. apply dict_of_keys.
  - rewrite Hk. apply NoDup_sans_doublons.
  - intros t Ht. pose proof (foldl_compter_get labels t []) as Hget. simpl in Hget.
    destruct (dict_get (foldl compter [] labels) t) as [n|] eqn:E.
    + simpl in Hget. by subst n.
    + apply dict_get_None in E. done.
Qed.

Lemma comptage_trie_ordre formalites :
  let labels := types_comptes formalites in
  let premier_vu := (λ t, (t, occurrences t labels)) <$> sans_doublons labels in
  (∀ t, t ∈ labels ↔
        ∃ f, f ∈ formalites
             ∧ strip (nature_acte_redacteur f) ≠ []
             ∧ upper (strip (nature_acte_redacteur f)) ≠ u "NON TROUVÉ"
             ∧ t = classifier_type_acte (strip (nature_acte_redacteur f)))
  ∧ comptage_trie formalites ≡ₚ premier_vu
  ∧ NoDup (dict_keys (comptage_trie formalites))
  ∧ (∀ t n, (t, n) ∈ comptage_trie formalites ↔ n = occurrences t labels ∧ (0 < n)%nat)
  ∧ StronglySorted (λ a b, (b.2 ≤ a.2)%nat) (comptage_trie formalites)
  ∧ (∀ n, filter (λ e, e.2 = n) (comptage_trie formalites)
          = filter (λ e, e.2 = n) premier_vu).
Proof.
  intros labels premier_vu.
  assert (Hperm : comptage_trie formalites ≡ₚ premier_vu).
  { unfold comptage_trie. rewrite (sorted_reverse_perm snd).
    by rewrite comptage_types_premier_vu. }
  split_and!.
  - intros t. unfold labels, types_comptes. rewrite list_elem_of_omap. split.
    + intros (f & Hf & Ht). exists f. split; [done|]. cbv zeta in Ht.
      destruct (bool_decide_reflect (strip (nature_acte_redacteur f) ≠ [])) as [H1|];
        [|done].
      destruct (bool_decide_reflect (upper (strip (nature_acte_redacteur f)) ≠ u "NON TROUVÉ"))
        as [H2|]; [|done].
      simpl in Ht. injection Ht as Ht. by subst t.
    + intros (f & Hf & H1 & H2 & ->). exists f. split; [done|]. cbv zeta.
      by rewrite !bool_decide_eq_true_2.
  - done.
  - unfold dict_keys. rewrite Hperm. unfold premier_vu. rewrite <- list_fmap_compose.
    simpl. rewrite list_fmap_id. apply NoDup_sans_doublons.
  - intros t n. rewrite Hperm. unfold premier_vu. rewrite list_elem_of_fmap. split.
    + intros (t' & [= -> ->] & Ht'). apply (proj1 (elem_of_sans_doublons _ _)) in Ht'.
      split; [done|].
      unfold occurrences.
      assert (Hin : t' ∈ filter (λ x, x = t') labels) by (by apply list_elem_of_filter).
      destruct (filter (λ x, x = t') labels); [by apply elem_of_nil in Hin|simpl; lia].
    + intros [-> Hpos]. exists t. split; [done|]. apply elem_of_sans_doublons.
      unfold occurrences in Hpos.
      destruct (filter (λ x, x = t) labels) as [|y l] eqn:E; [simpl in Hpos; lia|].
      assert (Hin : y ∈ filter (λ x, x = t) labels) by (rewrite E; left).
      apply list_elem_of_filter in Hin as [-> Hin]. done.
  - apply (sorted_reverse_sorted snd).
  - intros n. unfold comptage_trie.
    etrans; [apply (sorted_reverse_stable snd)|].
    by rewrite comptage_types_premier_vu.
Qed.
End Comptage.

(** Claim C7.  The count of the act types classifies the stripped act text
    of each formality, leaving out the formalities whose act text is blank
    or is the not-found value; each label appears once, with the number of
    the formalities that have it; the entries come by descending count, and
    the entries with the same count come in the order in which their labels
    were first seen.  In the example, VENTE (seen second, counted twice)
    comes first, then DONATION and PRET in the order of their first
    formality. *)
Theorem comptage_trie_premier_vu :
  (∀ (U : Unicode) (formalites : list formalite),
     let labels := types_comptes formalites in
     let premier_vu := (λ t, (t, occurrences t labels)) <$> sans_doublons labels in
     (∀ t, t ∈ labels ↔
           ∃ f, f ∈ formalites
                ∧ strip (nature_acte_redacteur f) ≠ []
                ∧ upper (strip (nature_acte_redacteur f)) ≠ u "NON TROUVÉ"
                ∧ t = classifier_type_acte (strip (nature_acte_redacteur f)))
     ∧ comptage_trie formalites ≡ₚ premier_vu
     ∧ NoDup (dict_keys (comptage_trie formalites))
     ∧ (∀ t n, (t, n) ∈ comptage_trie formalites ↔ n = occurrences t labels ∧ (0 < n)%nat)
     ∧ StronglySorted (λ a b, (b.2 ≤ a.2)%nat) (comptage_trie formalites)
     ∧ (∀ n, filter (λ e, e.2 = n) (comptage_trie formalites)
             = filter (λ e, e.2 = n) premier_vu))
  ∧ types_comptes (H := latin1) formalites_exemple
    = [u "DONATION"; u "VENTE"; u "PRET"; u "VENTE"]
  ∧ comptage_trie (H := latin1) formalites_exemple
    = [(u "VENTE", 2%nat); (u "DONATION", 1%nat); (u "PRET", 1%nat)].
Proof.
  split_and!.
  - intros U formalites. apply comptage_trie_ordre.
  - vm_compute. reflexivity.
  - vm_compute. reflexivity.
Qed.

(** ** Mortgages, cancellations and mutations *)

Section Hypotheques.
Context `{Unicode}.

Lemma hypotheque_active_de_inj h h' :
  hypotheque_active_de h = hypotheque_active_de h' → h = h'.
Proof. destruct h, h'. unfold hypotheque_active_de. simpl. by intros [= -> -> -> -> -> ->]. Qed.

Lemma radie_par_radiation h r : radie_par h r = true → est_radiation r = true.
Proof.
  unfold radie_par, est_radiation. intros [[_ ?]%andb_prop ?]%andb_prop.
  by apply andb_true_intro.
Qed.

Lemma est_radiee_spec formalites h :
  est_radiee (radiations formalites) h = true
  ↔ ∃ r, r ∈ formalites ∧ radie_par h r = true.
Proof.
  unfold est_radiee, radiations. rewrite existsb_exists. split.
  - intros (r & [_ Hr]%list_elem_of_In%list_elem_of_filter & Hp). eauto.
  - intros (r & Hr & Hp). exists r. split; [|done].
    apply list_elem_of_In, list_elem_of_filter. split; [|done]. by eapply radie_par_radiation.
Qed.

Lemma hypotheque_active_iff formalites h :
  h ∈ hypotheques formalites →
  hypotheque_active_de h ∈ analyser_hypotheques_actives formalites
  ↔ ¬ ∃ r, r ∈ formalites ∧ radie_par h r = true.
Proof.
  intros Hh. rewrite <- est_radiee_spec. unfold analyser_hypotheques_actives.
  rewrite list_elem_of_fmap. split.
  - intros (h' & ->%hypotheque_active_de_inj & [Hr _]%list_elem_of_filter). by rewrite Hr.
  - intros Hr. exists h. split; [done|]. apply list_elem_of_filter. split; [|done].
    by destruct (est_radiee _ h).
Qed.

Lemma hypotheques_actives_statut formalites a :
  a ∈ analyser_hypotheques_actives formalites → ha_statut a = u "ACTIVE".
Proof.
  unfold analyser_hypotheques_actives. rewrite list_elem_of_fmap. by intros (h & -> & _).
Qed.

Lemma hypotheque_implicite formalites f :
  f ∈ formalites →
  hors_hypotheque f = true →
  est_hypotheque_implicite f = true →
  f ∈ hypotheques formalites.
Proof.
  intros Hf Hh Hi. apply list_elem_of_filter. split; [|done].
  rewrite Hi, orb_true_r. split; [|done].
  unfold hors_hypotheque in Hh. apply andb_prop in Hh as [_ Hr%negb_true_iff].
  unfold est_radiation. by rewrite Hr.
Qed.

Lemma mutation_de_hors_hypotheque formalites f d :
  f ∈ formalites →
  hors_hypotheque f = true →
  extraire_mutations (contenu f) = Some d →
  mutations_trouvees d = true →
  {| mu_numero_ordre := numero_ordre f;
     mu_date_depot := date_depot f;
     mu_date_acte := date_acte f;
     mu_nature_acte := nature_acte_redacteur f;
     mu_reference_enliassement := reference_enliassement f;
     mu_mutations := d |} ∈ analyser_mutations formalites.
Proof.
  intros Hf Hh Hd Ht. unfold analyser_mutations. apply list_elem_of_omap.
  exists f. split; [done|]. unfold mutation_de. by rewrite Hh, Hd, Ht.
Qed.
End Hypotheques.

(** Claim C4.  A formality classified as a mortgage is in the list of the
    active mortgages, with the status ACTIVE, if and only if no formality is
    a cancellation of it: one whose act text contains the deposit date of the
    mortgage as it is written and, in upper case, both the word RADIATION and
    the word TOTALE.  The mortgage deposited on 12/03/2010 is left out when
    the act text of a cancellation is "RADIATION TOTALE DE L'HYPOTHEQUE DU
    12/03/2010", and listed without it. *)
Theorem hypotheque_active_ssi_non_radiee :
  (∀ (U : Unicode) (formalites : list formalite) (h : formalite),
     h ∈ hypotheques formalites →
     hypotheque_active_de h ∈ analyser_hypotheques_actives formalites
     ↔ ¬ ∃ r, r ∈ formalites
              ∧ str_in (date_depot h) (nature_acte_redacteur r) = true
              ∧ str_in (u "RADIATION") (upper (nature_acte_redacteur r)) = true
              ∧ str_in (u "TOTALE") (upper (nature_acte_redacteur r)) = true)
  ∧ (∀ (U : Unicode) (formalites : list formalite) (a : hypotheque_active),
       a ∈ analyser_hypotheques_actives formalites →
       ha_statut a = u "ACTIVE"
       ∧ ∃ h, h ∈ hypotheques formalites ∧ a = hypotheque_active_de h)
  ∧ hypotheque_exemple ∈ hypotheques (H := latin1) [hypotheque_exemple; radiation_exemple]
  ∧ analyser_hypotheques_actives (H := latin1) [hypotheque_exemple; radiation_exemple] = []
  ∧ analyser_hypotheques_actives (H := latin1) [hypotheque_exemple]
    = [hypotheque_active_de (H := latin1) hypotheque_exemple].
Proof.
  split_and!.
  - intros U formalites h Hh. rewrite (hypotheque_active_iff formalites h Hh).
    apply not_iff_compat. apply exist_proper. intros r. unfold radie_par.
    rewrite !andb_true_iff. naive_solver.
  - intros U formalites a Ha. split; [by eapply hypotheques_actives_statut|].
    unfold analyser_hypotheques_actives in Ha. apply list_elem_of_fmap in Ha as (h & -> & Hh).
    apply list_elem_of_filter in Hh as [_ Hh]. eauto.
  - vm_compute. left.
  - vm_compute. reflexivity.
  - vm_compute. reflexivity.
Qed.

(** Claim C10.  A formality whose act text, in upper case, contains neither
    HYPOTHEQUE nor RADIATION and whose content, in upper case, meets the
    implicit criterion (the creditors, with the debtor or the owners of the
    building) is classified as a mortgage and is also analysed as a mutation:
    it is an active mortgage when no cancellation names its date, and a
    mutation when the extraction of its parties and buildings finds
    something.  The loan of [page_pret] is in both lists at once. *)
Theorem hypotheque_implicite_et_mutation :
  (∀ (U : Unicode) (formalites : list formalite) (f : formalite),
     f ∈ formalites →
     str_in (u "HYPOTHEQUE") (upper (nature_acte_redacteur f)) = false →
     str_in (u "RADIATION") (upper (nature_acte_redacteur f)) = false →
     est_hypotheque_implicite f = true →
     f ∈ hypotheques formalites
     ∧ (est_radiee (radiations formalites) f = false →
        hypotheque_active_de f ∈ analyser_hypotheques_actives formalites)
     ∧ (∀ d, extraire_mutations (contenu f) = Some d →
             mutations_trouvees d = true →
             ∃ m, m ∈ analyser_mutations formalites
                  ∧ mu_numero_ordre m = numero_ordre f
                  ∧ mu_date_depot m = date_depot f
                  ∧ mu_nature_acte m = nature_acte_redacteur f
                  ∧ mu_mutations m = d))
  ∧ (let formalites := formalites_of_text (H := latin1) (full_text_of [page_pret]) in
     (λ f, (numero_ordre f, nature_acte_redacteur f,
            est_hypotheque_explicite (H := latin1) f, hors_hypotheque (H := latin1) f,
            est_hypotheque_implicite (H := latin1) f)) <$> formalites
     = [(1%nat, u "PRET de la formalité initiale", false, true, true)]
     ∧ ha_numero_ordre <$> analyser_hypotheques_actives (H := latin1) formalites = [1%nat]
     ∧ (λ m, (mu_numero_ordre m, p_designation <$> md_disposant_donateur (mu_mutations m)))
         <$> analyser_mutations (H := latin1) formalites
       = [(1%nat, [u "DUPONT JEAN"])]).
Proof.
  split.
  - intros U formalites f Hf Hh Hr Hi.
    assert (Hhors : hors_hypotheque f = true).
    { unfold hors_hypotheque. by rewrite Hh, Hr. }
    pose proof (hypotheque_implicite formalites f Hf Hhors Hi) as Hhyp.
    split_and!; [done| |].
    + intros Hnr. unfold analyser_hypotheques_actives. apply list_elem_of_fmap.
      exists f. split; [done|]. by apply list_elem_of_filter.
    + intros d Hd Ht. eexists. split; [by eapply mutation_de_hors_hypotheque|done].
  - vm_compute. done.
Qed.

(** ** The table of the last page *)

Lemma starts_with_app p r : starts_with p (p ++ r) = true.
Proof. induction p as [|c p IH]; simpl; [done|]. by rewrite N.eqb_refl. Qed.

Lemma str_in_unfold needle hay :
  str_in needle hay
  = starts_with needle hay || match hay with [] => false | _ :: h => str_in needle h end.
Proof. by destruct hay. Qed.

Lemma str_in_middle needle a b : str_in needle (a ++ needle ++ b) = true.
Proof.
  induction a as [|c a IH]; simpl.
  - by rewrite str_in_unfold, starts_with_app.
  - rewrite IH. apply orb_true_r.
Qed.

(** The separator of a range: a space, the letter, a space. *)
Lemma starts_with_plage c s :
  (∀ c' s', s = c' :: s' → c' ≠ 224) → starts_with (u " à ") (c :: s) = false.
Proof.
  intros Hs. change (u " à ") with [32; 224; 32]. cbn [starts_with].
  destruct s as [|c' s']; [apply andb_false_r|].
  specialize (Hs c' s' eq_refl).
  assert (Hne : (224 =? c') = false) by (apply N.eqb_neq; congruence).
  rewrite Hne. apply andb_false_r.
Qed.

Lemma split_go_sans_a_accent b : ∀ cur,
  Forall (λ c, c ≠ 224) b → split_go (u " à ") cur 0 b = [reverse cur ++ b].
Proof.
  induction b as [|c b IH]; intros cur Hb; cbn [split_go].
  - by rewrite app_nil_r.
  - apply Forall_cons in Hb as [Hc Hb]. rewrite starts_with_plage.
    + rewrite IH by done. by rewrite reverse_cons, <- app_assoc.
    + intros c' s' ->. by apply Forall_cons in Hb as [? _].
Qed.

Lemma str_split_plage a b :
  Forall (λ c, c ≠ 224) a → Forall (λ c, c ≠ 224) b →
  str_split (u " à ") (a ++ u " à " ++ b) = [a; b].
Proof.
  intros Ha Hb. unfold str_split.
  enough (Hgen : ∀ cur, split_go (u " à ") cur 0 (a ++ u " à " ++ b) = [reverse cur ++ a; b])
    by apply (Hgen []).
  induction Ha as [|c a Hc Ha IH]; intros cur.
  - rewrite app_nil_r. cbn [app]. change (u " à " ++ b) with (32 :: 224 :: 32 :: b).
    cbn [split_go]. change (32 :: 224 :: 32 :: b) with (u " à " ++ b).
    rewrite starts_with_app. change (length (u " à ")) with 3%nat. cbn [pred split_go].
    by rewrite (split_go_sans_a_accent b []).
  - cbn [app split_go]. rewrite starts_with_plage.
    + rewrite IH. by rewrite reverse_cons, <- app_assoc.
    + destruct Ha as [|c' a' Hc' _]; [by intros ? ? [= <- _]|by intros ? ? [= <- _]].
Qed.

Lemma elem_of_range_incl a b z : z ∈ range_incl a b ↔ (a ≤ z ≤ b)%Z.
Proof.
  unfold range_incl. rewrite list_elem_of_fmap. split.
  - intros (i & -> & Hi%elem_of_seq). lia.
  - intros Hz. exists (Z.to_nat (z - a)). rewrite elem_of_seq. lia.
Qed.

Lemma range_incl_lookup a b (i : nat) :
  (a + Z.of_nat i ≤ b)%Z → range_incl a b !! i = Some (a + Z.of_nat i)%Z.
Proof.
  intros Hi. unfold range_incl. rewrite list_lookup_fmap, lookup_seq_lt by lia. done.
Qed.

Lemma length_range_incl a b : length (range_incl a b) = Z.to_nat (b + 1 - a).
Proof. unfold range_incl. by rewrite length_fmap, length_seq. Qed.

Section Tableau.
Context `{Unicode}.

Lemma traiter_volume_part_plage a b start end_ :
  Forall (λ c, c ≠ 224) a → Forall (λ c, c ≠ 224) b →
  py_int (strip a) = Some start → py_int (strip b) = Some end_ →
  traiter_volume_part (a ++ u " à " ++ b) = str_of_Z <$> range_incl start end_.
Proof.
  intros Ha Hb Hs He. unfold traiter_volume_part.
  by rewrite str_in_middle, str_split_plage, Hs, He.
Qed.

Lemma traiter_volume_part_sans_plage volume_part :
  str_in (u " à ") volume_part = false → traiter_volume_part volume_part = [volume_part].
Proof. intros Hn. unfold traiter_volume_part. by rewrite Hn. Qed.

Lemma immeuble_de_colonnes page_num data_row im :
  immeuble_de page_num data_row = Some im →
  i_code im = colonne data_row 0
  ∧ i_commune im = colonne data_row 1
  ∧ i_designation_cadastrale im = colonne data_row 2
  ∧ i_volume im = traiter_volume (colonne data_row 3)
  ∧ i_lot im = traiter_lot (colonne data_row 4).
Proof.
  unfold immeuble_de. destruct (_ || _); [done|]. destruct (_ || _); [|done].
  by intros [= <-].
Qed.

Lemma traiter_lot_lignes lot :
  traiter_lot lot = if str_in [NL] lot then Liste (lignes_non_vides lot) else Texte lot.
Proof.
  unfold traiter_lot. destruct lot as [|c lot]; [done|].
  by rewrite bool_decide_eq_true_2.
Qed.

Lemma traiter_volume_lignes volume :
  traiter_volume volume
  = if str_in [NL] volume
    then Liste (flat_map traiter_volume_part (lignes_non_vides volume))
    else Texte volume.
Proof.
  unfold traiter_volume. destruct volume as [|c volume]; [done|].
  by rewrite bool_decide_eq_true_2.
Qed.
End Tableau.

(** ** The limit of [int] on the digits *)

Lemma is_space_chiffre c : 48 ≤ c ≤ 57 → is_space c = false.
Proof.
  intros Hc.
  assert (Hv : c = 48 ∨ c = 49 ∨ c = 50 ∨ c = 51 ∨ c = 52 ∨ c = 53 ∨ c = 54 ∨ c = 55
               ∨ c = 56 ∨ c = 57) by lia.
  repeat destruct Hv as [->|Hv]; try subst c; reflexivity.
Qed.

Lemma strip_chiffres a : Forall (λ c, 48 ≤ c ≤ 57) a → strip a = a.
Proof.
  intros Ha. destruct a as [|c r]; [done|].
  assert (Hl : ∀ x l, Forall (λ c, 48 ≤ c ≤ 57) (x :: l) → lstrip (x :: l) = x :: l).
  { intros x l [Hx _]%Forall_cons. cbn [lstrip]. by rewrite is_space_chiffre. }
  unfold strip, rstrip. rewrite (Hl c r Ha).
  destruct (reverse (c :: r)) as [|x l] eqn:Hrev.
  { apply (f_equal length) in Hrev. by rewrite length_reverse in Hrev. }
  rewrite Hl.
  - by rewrite <- Hrev, reverse_involutive.
  - rewrite <- Hrev. by apply Forall_reverse.
Qed.

Lemma nombre_chiffres_latin1 a :
  Forall (λ c, 48 ≤ c ≤ 57) a → nombre_chiffres (H := latin1) a = N.of_nat (length a).
Proof.
  intros Ha. unfold nombre_chiffres. change pystr with (list N). f_equal.
  induction Ha as [|c a Hc _ IH]; [done|].
  rewrite filter_cons_True; [cbn [length]; by rewrite IH|].
  cbn. unfold latin1_decimal.
  replace (48 <=? c) with true by (symmetry; apply N.leb_le; lia).
  replace (c <=? 57) with true by (symmetry; apply N.leb_le; lia). by eexists.
Qed.

(** A text of more digits than the limit is refused. *)
Lemma py_int_limite a :
  Forall (λ c, 48 ≤ c ≤ 57) a → int_max_str_digits < N.of_nat (length a) →
  py_int (H := latin1) (strip a) = None.
Proof.
  intros Ha Hlen. unfold py_int. rewrite !(strip_chiffres a) by done.
  assert (Hlu : int_sans_signe (H := latin1) a = None).
  { unfold int_sans_signe. rewrite nombre_chiffres_latin1 by done.
    by replace (_ <? _) with true by (symmetry; by apply N.ltb_lt). }
  destruct a as [|c r]; [done|]. apply Forall_cons in Ha as [Hc _].
  assert (Hv : c = 48 ∨ c = 49 ∨ c = 50 ∨ c = 51 ∨ c = 52 ∨ c = 53 ∨ c = 54 ∨ c = 55
               ∨ c = 56 ∨ c = 57) by lia.
  repeat destruct Hv as [->|Hv]; try subst c; exact Hlu.
Qed.

(** What [int] reads has no more digits than the limit. *)
Lemma py_int_chiffres `{Unicode} s z :
  py_int s = Some z →
  ∃ r, (strip s = r ∨ strip s = 43 :: r ∨ strip s = 45 :: r)
       ∧ nombre_chiffres r ≤ int_max_str_digits
       ∧ (int_digits 0 false r = Some z ∨ int_digits 0 false r = Some (- z)%Z).
Proof.
  assert (Hlu : ∀ r y, int_sans_signe r = Some y →
            nombre_chiffres r ≤ int_max_str_digits ∧ int_digits 0 false r = Some y).
  { intros r y. unfold int_sans_signe. destruct (N.ltb_spec int_max_str_digits (nombre_chiffres r));
      [done|]. done. }
  unfold py_int. intros Hz.
  repeat case_match; simplify_eq;
    try (apply Hlu in Hz as [? ?]; eexists; split; [left; reflexivity|]; by auto).
  - apply Hlu in Hz as [? ?]. eexists. split; [right; left; reflexivity|]. by auto.
  - apply fmap_Some in Hz as (y & Hy & ->). apply Hlu in Hy as [? ?].
    eexists. split; [right; right; reflexivity|]. split; [done|]. right.
    by rewrite Z.opp_involutive.
Qed.

Lemma traiter_volume_part_limite a b :
  Forall (λ c, c ≠ 224) a → Forall (λ c, c ≠ 224) b →
  (Forall (λ c, 48 ≤ c ≤ 57) a ∧ int_max_str_digits < N.of_nat (length a))
  ∨ (Forall (λ c, 48 ≤ c ≤ 57) b ∧ int_max_str_digits < N.of_nat (length b)) →
  traiter_volume_part (H := latin1) (a ++ u " à " ++ b) = [a ++ u " à " ++ b].
Proof.
  intros Ha Hb Hlong. unfold traiter_volume_part.
  rewrite str_in_middle, str_split_plage by done.
  destruct Hlong as [[Hd Hl]|[Hd Hl]]; rewrite (py_int_limite _ Hd Hl); [done|].
  by destruct (py_int (strip a)).
Qed.

(** Claim C8, as the code has it.  In a row that is kept, the code, the
    commune and the cadastral designation stay the stripped text of their
    cells; the lot and the volume become a list when their stripped text
    contains a line break, the list of the stripped lines that are not
    blank.  Within such a volume of several lines, a line [A à B], where [A]
    and [B] are read as integers by [int], gives the decimal writing of the
    integers from [A] to [B] inclusive, in increasing order; a line without
    the separator is kept.  What [int] reads has at most 4300 digits, its
    limit: a line [A à B] one of whose bounds has more digits is kept as it
    is.  A volume on a single line is kept as it is. *)
Theorem cellules_lot_et_volume :
  (∀ (U : Unicode) (page_num : nat) (data_row : rangee) (im : immeuble),
     immeuble_de page_num data_row = Some im →
     i_code im = colonne data_row 0
     ∧ i_commune im = colonne data_row 1
     ∧ i_designation_cadastrale im = colonne data_row 2
     ∧ i_lot im = (if str_in [NL] (colonne data_row 4)
                   then Liste (lignes_non_vides (colonne data_row 4))
                   else Texte (colonne data_row 4))
     ∧ i_volume im = (if str_in [NL] (colonne data_row 3)
                      then Liste (flat_map traiter_volume_part
                                           (lignes_non_vides (colonne data_row 3)))
                      else Texte (colonne data_row 3)))
  ∧ (∀ (U : Unicode) (a b : pystr) (start end_ : Z),
       Forall (λ c, c ≠ 224) a → Forall (λ c, c ≠ 224) b →
       py_int (strip a) = Some start → py_int (strip b) = Some end_ →
       traiter_volume_part (a ++ u " à " ++ b) = str_of_Z <$> range_incl start end_)
  ∧ (∀ (U : Unicode) (s : pystr) (z : Z),
       py_int s = Some z →
       ∃ r, (strip s = r ∨ strip s = 43 :: r ∨ strip s = 45 :: r)
            ∧ nombre_chiffres r ≤ int_max_str_digits
            ∧ (int_digits 0 false r = Some z ∨ int_digits 0 false r = Some (- z)%Z))
  ∧ (∀ (a b : pystr),
       Forall (λ c, c ≠ 224) a → Forall (λ c, c ≠ 224) b →
       (Forall (λ c, 48 ≤ c ≤ 57) a ∧ int_max_str_digits < N.of_nat (length a))
       ∨ (Forall (λ c, 48 ≤ c ≤ 57) b ∧ int_max_str_digits < N.of_nat (length b)) →
       traiter_volume_part (H := latin1) (a ++ u " à " ++ b) = [a ++ u " à " ++ b])
  ∧ (∀ (U : Unicode) (volume_part : pystr),
       str_in (u " à ") volume_part = false →
       traiter_volume_part volume_part = [volume_part])
  ∧ (∀ (a b z : Z), z ∈ range_incl a b ↔ (a ≤ z ≤ b)%Z)
  ∧ (∀ (a b : Z) (i : nat),
       (a + Z.of_nat i ≤ b)%Z → range_incl a b !! i = Some (a + Z.of_nat i)%Z)
  ∧ (λ im, (i_volume im, i_lot im))
      <$> extract_tableau_derniere_page (H := latin1) 3 [table_exemple_plage]
    = [(Liste [u "57"; u "71"; u "72"], Liste [u "9"; u "17"; u "35"; u "57"])].
Proof.
  split_and!.
  - intros U page_num data_row im Him.
    destruct (immeuble_de_colonnes _ _ _ Him) as (-> & -> & -> & -> & ->).
    by rewrite traiter_lot_lignes, traiter_volume_lignes.
  - intros U. apply traiter_volume_part_plage.
  - intros U. apply py_int_chiffres.
  - apply traiter_volume_part_limite.
  - intros U. apply traiter_volume_part_sans_plage.
  - apply elem_of_range_incl.
  - apply range_incl_lookup.
  - vm_compute. reflexivity.
Qed.

(** Claim C8 as it is stated fails on [table_exemple]: the commune, a cell
    with a line break, stays a text, and the volume [71 à 72], a range on a
    single line, is not expanded. *)
Lemma cellules_contre_exemple :
  (λ im, (i_commune im, i_volume im, i_lot im))
    <$> extract_tableau_derniere_page (H := latin1) 3 [table_exemple]
  = [(u "PARIS
15", Texte (u "71 à 72"), Liste [u "9"; u "17"])]
  ∧ Texte (u "71 à 72") ≠ Liste [u "71"; u "72"].
Proof. split; [vm_compute; reflexivity|discriminate]. Qed.

(** ** The order of the mutations *)

Lemma str_lt_irrefl a : str_lt a a = false.
Proof. induction a as [|x a IH]; simpl; [done|]. by rewrite N.ltb_irrefl, N.eqb_refl, IH. Qed.

Lemma str_lt_asym a : ∀ b, str_lt a b = true → str_lt b a = false.
Proof.
  induction a as [|x a IH]; intros [|y b]; simpl; try done.
  destruct (N.ltb_spec x y), (N.ltb_spec y x), (N.eqb_spec x y), (N.eqb_spec y x);
    simpl; try done; try lia. apply IH.
Qed.

Lemma str_lt_negtrans a : ∀ b c,
  str_lt a b = false → str_lt b c = false → str_lt a c = false.
Proof.
  induction a as [|x a IH]; intros [|y b] [|z c]; simpl; try done.
  destruct (N.ltb_spec x y), (N.ltb_spec y z), (N.ltb_spec x z),
    (N.eqb_spec x y), (N.eqb_spec y z), (N.eqb_spec x z); simpl; try done; try lia.
  apply IH.
Qed.

Section TriGeneral.
Context {A : Type} (lt : A → A → bool).
Hypothesis lt_asym : ∀ x y, lt x y = true → lt y x = false.
Hypothesis lt_negtrans : ∀ x y z, lt x y = false → lt y z = false → lt x z = false.

Lemma insert_desc_perm_gen x l : insert_desc lt x l ≡ₚ x :: l.
Proof.
  induction l as [|y l IH]; simpl; [done|].
  destruct (lt x y); [|done]. rewrite IH. apply Permutation_swap.
Qed.

Lemma sorted_reverse_perm_gen l : sorted_reverse lt l ≡ₚ l.
Proof.
  induction l as [|x l IH]; [done|].
  unfold sorted_reverse in *. simpl. by rewrite insert_desc_perm_gen, IH.
Qed.

Lemma insert_desc_sorted_gen x l :
  StronglySorted (λ a b, lt a b = false) l →
  StronglySorted (λ a b, lt a b = false) (insert_desc lt x l).
Proof.
  induction 1 as [|y l Hl IH Hy]; simpl; [repeat constructor|].
  destruct (lt x y) eqn:E.
  - constructor; [done|]. rewrite insert_desc_perm_gen. constructor; [by apply lt_asym|done].
  - constructor; [by constructor|]. constructor; [done|].
    eapply Forall_impl; [exact Hy|]. simpl. intros z Hz. by eapply lt_negtrans.
Qed.

Lemma sorted_reverse_sorted_gen l :
  StronglySorted (λ a b, lt a b = false) (sorted_reverse lt l).
Proof.
  induction l as [|x l IH]; [constructor|]. by apply insert_desc_sorted_gen.
Qed.

(** In the sorted list an element comes before every element below it. *)
Lemma sorted_reverse_avant l grand petit :
  grand ∈ l → petit ∈ l → lt petit grand = true →
  ∃ l1 l2 l3, sorted_reverse lt l = l1 ++ grand :: l2 ++ petit :: l3.
Proof.
  intros Hg Hp Hlt.
  pose proof (sorted_reverse_sorted_gen l) as Hs.
  rewrite <- (sorted_reverse_perm_gen l) in Hg, Hp.
  apply list_elem_of_split in Hg as (l1 & l2 & Heq). rewrite Heq in Hs, Hp |- *.
  apply StronglySorted_app in Hs as (Hcross & _ & Hs2).
  apply elem_of_app in Hp as [Hp|Hp].
  { specialize (Hcross petit grand Hp ltac:(left)). simpl in Hcross. congruence. }
  apply elem_of_cons in Hp as [->|Hp].
  { apply lt_asym in Hlt as Hlt'. congruence. }
  apply list_elem_of_split in Hp as (l2' & l3 & ->). by exists l1, l2', l3.
Qed.
End TriGeneral.

Lemma convertir_sans_barre d :
  str_in (u "/") d = false → convertir_date_pour_tri d = d.
Proof. intros Hd. unfold convertir_date_pour_tri. by rewrite Hd. Qed.

Lemma zfill_long width s : (width ≤ length s)%nat → zfill width s = s.
Proof.
  intros Hw. unfold zfill. replace (width - length s)%nat with 0%nat by lia.
  cbn [replicate app]. repeat case_match; by subst.
Qed.

Lemma split_go_char_end sep a : ∀ cur,
  sep ∉ a → split_go [sep] cur 0 a = [reverse cur ++ a].
Proof.
  induction a as [|c a IH]; intros cur Ha; cbn [split_go starts_with].
  - by rewrite app_nil_r.
  - apply not_elem_of_cons in Ha as [Hc Ha].
    apply N.eqb_neq in Hc as ->. cbn [andb].
    rewrite IH by done. by rewrite reverse_cons, <- app_assoc.
Qed.

Lemma split_go_char sep a rest : ∀ cur,
  sep ∉ a →
  split_go [sep] cur 0 (a ++ sep :: rest) = (reverse cur ++ a) :: split_go [sep] [] 0 rest.
Proof.
  induction a as [|c a IH]; intros cur Ha; cbn [app split_go starts_with length pred].
  - rewrite N.eqb_refl. cbn [andb]. by rewrite app_nil_r.
  - apply not_elem_of_cons in Ha as [Hc Ha].
    apply N.eqb_neq in Hc as ->. cbn [andb].
    rewrite IH by done. by rewrite reverse_cons, <- app_assoc.
Qed.

Lemma str_in_char sep a rest : str_in [sep] (a ++ sep :: rest) = true.
Proof.
  induction a as [|c a IH]; cbn [app str_in starts_with].
  - by rewrite N.eqb_refl.
  - rewrite IH. apply orb_true_r.
Qed.

Lemma convertir_date j1 j2 m1 m2 a1 a2 a3 a4 :
  Forall (λ c, 48 ≤ c ≤ 57) [j1; j2; m1; m2; a1; a2; a3; a4] →
  convertir_date_pour_tri [j1; j2; 47; m1; m2; 47; a1; a2; a3; a4]
  = [a1; a2; a3; a4; 45; m1; m2; 45; j1; j2].
Proof.
  intros Hd.
  assert (Hne : ∀ l, l ⊆ [j1; j2; m1; m2; a1; a2; a3; a4] → 47 ∉ l).
  { intros l Hl Hin. apply Hl in Hin. eapply Forall_forall in Hd; [|done]. simpl in Hd. lia. }
  unfold convertir_date_pour_tri, str_split. change (u "/") with [47]. change (u "-") with [45].
  change [j1; j2; 47; m1; m2; 47; a1; a2; a3; a4]
    with ([j1; j2] ++ 47 :: ([m1; m2] ++ 47 :: [a1; a2; a3; a4])).
  rewrite str_in_char, !split_go_char, split_go_char_end by (apply Hne; set_solver).
  cbn [reverse rev_append app]. by rewrite !zfill_long by (simpl; lia).
Qed.

Lemma mutations_triees_avant mutations grand petit :
  grand ∈ mutations → petit ∈ mutations →
  str_lt (cle_tri petit) (cle_tri grand) = true →
  ∃ l1 l2 l3, mutations_triees mutations = l1 ++ grand :: l2 ++ petit :: l3.
Proof.
  apply (sorted_reverse_avant
           (λ x y, str_lt (convertir_date_pour_tri (mu_date_depot x))
                          (convertir_date_pour_tri (mu_date_depot y)))).
  - intros x y. apply str_lt_asym.
  - intros x y z. apply str_lt_negtrans.
Qed.

(** Claim C2, where the code departs from it.  The list of the mutations is
    sorted by the key of [convertir_date_pour_tri], descending, and a date
    DD/MM/YYYY has the key YYYY-MM-DD.  But a date without a slash, such as
    the value "Non trouvé" of a date that was not found, is its own key, not
    the default "0000-00-00" of the dates that fail to convert: a mutation
    without date is sorted before every mutation that has one, not after, and
    the reconstruction then serves it first. *)
Theorem date_non_trouvee_triee_en_premier :
  (∀ mutations : list mutation,
     mutations_triees mutations ≡ₚ mutations
     ∧ StronglySorted (λ a b, str_lt (cle_tri a) (cle_tri b) = false)
                      (mutations_triees mutations))
  ∧ (∀ j1 j2 m1 m2 a1 a2 a3 a4 : N,
       Forall (λ c, 48 ≤ c ≤ 57) [j1; j2; m1; m2; a1; a2; a3; a4] →
       convertir_date_pour_tri [j1; j2; 47; m1; m2; 47; a1; a2; a3; a4]
       = [a1; a2; a3; a4; 45; m1; m2; 45; j1; j2])
  ∧ (∀ date_str : pystr,
       str_in (u "/") date_str = false → convertir_date_pour_tri date_str = date_str)
  ∧ (∀ (mutations : list mutation) (sans_date datee : mutation),
       sans_date ∈ mutations → datee ∈ mutations →
       mu_date_depot sans_date = NON_TROUVE →
       date_jjmmaaaa (mu_date_depot datee) →
       ∃ l1 l2 l3, mutations_triees mutations = l1 ++ sans_date :: l2 ++ datee :: l3)
  ∧ mutations_triees [mutation_B; mutation_sans_date; mutation_A]
    = [mutation_sans_date; mutation_A; mutation_B]
  ∧ (λ p, (p_designation (pr_proprietaire p), pr_lots p))
      <$> reconstituer_propriete (H := latin1) ordre_canonique
            [mutation_B; mutation_sans_date; mutation_A] [immeuble_exemple]
    = [(u "YVES", [u "17"; u "9"])].
Proof.
  split_and!.
  - intros mutations. split.
    + apply sorted_reverse_perm_gen.
    + apply (sorted_reverse_sorted_gen
               (λ x y, str_lt (convertir_date_pour_tri (mu_date_depot x))
                              (convertir_date_pour_tri (mu_date_depot y)))).
      * intros x y. apply str_lt_asym.
      * intros x y z. apply str_lt_negtrans.
  - apply convertir_date.
  - apply convertir_sans_barre.
  - intros mutations sans_date datee Hs Hd Hnt (j1&j2&m1&m2&a1&a2&a3&a4&Hdate&Hch).
    apply mutations_triees_avant; [done..|]. unfold cle_tri.
    rewrite Hnt, Hdate, convertir_date by done.
    apply Forall_forall with (x := a1) in Hch; [|set_solver].
    change (convertir_date_pour_tri NON_TROUVE) with (78 :: drop 1 NON_TROUVE).
    cbn [str_lt]. apply orb_true_iff. left. apply N.ltb_lt. lia.
  - vm_compute. reflexivity.
  - vm_compute. reflexivity.
Qed.

(** ** The attribution of the lots *)

Lemma NoDup_dict_keys_set {V} (d : dict V) k v :
  NoDup (dict_keys d) → NoDup (dict_keys (dict_set d k v)).
Proof.
  intros Hd. rewrite dict_keys_set. case_bool_decide; [done|].
  apply NoDup_app. split_and!; [done| |apply NoDup_singleton].
  by intros x Hx ->%list_elem_of_singleton.
Qed.

Lemma attribuer_get lots info : ∀ d k,
  dict_get (attribuer lots info d) k
  = match dict_get d k with
    | Some a => Some a
    | None => if bool_decide (k ∈ lots) then Some info else None
    end.
Proof.
  unfold attribuer. induction lots as [|lot lots IH]; intros d k; cbn [foldl].
  - rewrite bool_decide_eq_false_2 by apply not_elem_of_nil. by destruct (dict_get d k).
  - rewrite IH. destruct (dict_get d lot) as [a|] eqn:Hlot.
    + destruct (dict_get d k) eqn:Hk; [done|].
      destruct (decide (k = lot)) as [->|Hne]; [congruence|].
      erewrite bool_decide_ext; [done|set_solver].
    + rewrite dict_get_set. destruct (bool_decide_reflect (lot = k)) as [->|Hne].
      * rewrite Hlot. rewrite bool_decide_eq_true_2; [done|left].
      * destruct (dict_get d k); [done|]. erewrite bool_decide_ext; [done|set_solver].
Qed.

Lemma attribuer_NoDup lots info : ∀ d,
  NoDup (dict_keys d) → NoDup (dict_keys (attribuer lots info d)).
Proof.
  unfold attribuer. induction lots as [|lot lots IH]; intros d Hd; cbn [foldl]; [done|].
  apply IH. destruct (dict_get d lot); [done|]. by apply NoDup_dict_keys_set.
Qed.

Lemma pas_conserve_refl mutation d : pas_conserve mutation d d.
Proof. split; [done|]. intros lot. destruct (dict_get d lot) eqn:E; [done|]. congruence. Qed.

Lemma pas_conserve_trans mutation d1 d2 d3 :
  pas_conserve mutation d1 d2 → pas_conserve mutation d2 d3 → pas_conserve mutation d1 d3.
Proof.
  intros [Hn1 H1] [Hn2 H2]. split; [auto|]. intros lot.
  specialize (H1 lot). specialize (H2 lot).
  destruct (dict_get d1 lot) as [a|].
  - by rewrite H1 in H2.
  - intros a Ha. destruct (dict_get d2 lot) as [a'|].
    + rewrite H2 in Ha. injection Ha as <-. by apply H1.
    + by apply H2.
Qed.

Section Attribution.
Context `{Unicode} (o : ordre_ensembles).

Lemma attribution_de_vient_de mutation beneficiaire droits :
  beneficiaire ∈ md_beneficiaire_donataire (mu_mutations mutation) →
  vient_de mutation (attribution_de mutation beneficiaire droits).
Proof. intros Hb. unfold vient_de, attribution_de. simpl. by destruct beneficiaire. Qed.

Lemma attribuer_pas_conserve mutation lots beneficiaire droits d :
  beneficiaire ∈ md_beneficiaire_donataire (mu_mutations mutation) →
  pas_conserve mutation d (attribuer lots (attribution_de mutation beneficiaire droits) d).
Proof.
  intros Hb. split; [apply attribuer_NoDup|].
  intros lot. rewrite attribuer_get. destruct (dict_get d lot); [done|].
  case_bool_decide; [|done]. intros a [= <-]. by apply attribution_de_vient_de.
Qed.

Lemma traiter_ligne_pas_conserve mutation lots_concernes d ligne :
  pas_conserve mutation d
    (traiter_ligne o mutation lots_concernes
       (md_beneficiaire_donataire (mu_mutations mutation)) d ligne).
Proof.
  unfold traiter_ligne. case_bool_decide; [|apply pas_conserve_refl].
  destruct (list_find _ _) as [[i b]|] eqn:Hfind; [|apply pas_conserve_refl].
  apply attribuer_pas_conserve.
  apply list_find_Some in Hfind as (Hb & _). by eapply list_elem_of_lookup_2.
Qed.

Lemma traiter_mutation_pas_conserve lots_ref commune_ref designation_ref d mutation :
  pas_conserve mutation d
    (traiter_mutation o lots_ref commune_ref designation_ref d mutation).
Proof.
  unfold traiter_mutation. destruct (concerne_immeuble _ _ _); [|apply pas_conserve_refl].
  case_bool_decide; [|apply pas_conserve_refl].
  destruct (md_beneficiaire_donataire (mu_mutations mutation)) as [|b bs] eqn:Hb;
    [apply pas_conserve_refl|].
  destruct (im_get im_lignes_detaillees [] mutation) as [|l ls].
  - apply attribuer_pas_conserve. rewrite Hb. left.
  - rewrite <- Hb. generalize (l :: ls). intros lignes. revert d.
    induction lignes as [|ligne lignes IH]; intros d; cbn [foldl];
      [apply pas_conserve_refl|].
    eapply pas_conserve_trans; [apply traiter_ligne_pas_conserve|apply IH].
Qed.
End Attribution.

(** ** The loop over the mutations *)

Section Boucle.
Context `{Unicode} (o : ordre_ensembles).
Context (lots_ref : gset pystr) (commune_ref designation_ref : pystr).

Local Abbreviation traiter := (traiter_mutation o lots_ref commune_ref designation_ref).
Local Abbreviation boucle := (boucle_mutations o lots_ref commune_ref designation_ref).

Lemma foldl_traiter_conserve l : ∀ d,
  (NoDup (dict_keys d) → NoDup (dict_keys (foldl traiter d l)))
  ∧ ∀ lot a, dict_get d lot = Some a → dict_get (foldl traiter d l) lot = Some a.
Proof.
  induction l as [|m l IH]; intros d; cbn [foldl]; [done|].
  destruct (traiter_mutation_pas_conserve o lots_ref commune_ref designation_ref d m)
    as [Hn Hg].
  destruct (IH (traiter d m)) as [Hn' Hg']. split; [auto|].
  intros lot a Ha. apply Hg'. specialize (Hg lot). by rewrite Ha in Hg.
Qed.

Lemma boucle_spec l : ∀ d,
  (boucle d l).1 = foldl traiter d (boucle d l).2
  ∧ (∃ reste, l = (boucle d l).2 ++ reste
              ∧ (reste ≠ [] → tous_attribues lots_ref (boucle d l).1 = true))
  ∧ (∀ pre m post, (boucle d l).2 = pre ++ m :: post → post ≠ [] →
       tous_attribues lots_ref (foldl traiter d (pre ++ [m])) = false)
  ∧ (∀ pre m post, l = pre ++ m :: post →
       tous_attribues lots_ref (foldl traiter d (pre ++ [m])) = true →
       ∃ post', pre ++ [m] = (boucle d l).2 ++ post').
Proof.
  induction l as [|m0 l IH]; intros d; cbn [boucle_mutations].
  { split_and!; [done|by exists []| |].
    - intros pre m post Heq. by destruct pre.
    - intros pre m post Heq. by destruct pre. }
  destruct (tous_attribues lots_ref (traiter d m0)) eqn:Htous.
  - cbn [fst snd]. split_and!; [done|by exists l| |].
    + intros pre m post Heq Hpost. destruct pre as [|? [|? ?]]; simplify_eq/=.
    + intros pre m post Heq _. destruct pre as [|m' pre]; simplify_eq/=.
      * by exists [].
      * by exists (pre ++ [m]).
  - destruct (IH (traiter d m0)) as (Hf & (reste & Hl & Hr) & Hfalse & Htrue).
    destruct (boucle (traiter d m0) l) as [final traitees]. cbn [fst snd] in *.
    split_and!; [done|exists reste; by rewrite Hl at 1| |].
    + intros pre m post Heq Hpost. destruct pre as [|m' pre]; simplify_eq/=; [done|].
      by eapply Hfalse.
    + intros pre m post Heq Ht. destruct pre as [|m' pre]; cbn in Heq, Ht.
      * injection Heq as <- _. congruence.
      * injection Heq as <- Heq.
        destruct (Htrue pre m post Heq Ht) as [post' Hp]. exists post'. cbn. by rewrite Hp.
Qed.

Lemma tous_attribues_spec d :
  tous_attribues lots_ref d = true
  ↔ (lots_ref ≠ ∅ ∧ list_to_set (dict_keys d) = lots_ref)
    ∨ (lots_ref = ∅ ∧ IMMEUBLE_ENTIER ∈ dict_keys d).
Proof.
  unfold tous_attribues. case_bool_decide as Hr; rewrite bool_decide_eq_true.
  - naive_solver.
  - rewrite elem_of_list_to_set. naive_solver.
Qed.
End Boucle.

Section Attributions.
Context `{Unicode} (o : ordre_ensembles).

Lemma attributions_spec mutations immeuble_ref :
  let lots_ref := lots_ref_de mutations immeuble_ref in
  let apres := etat_apres o lots_ref (i_commune immeuble_ref)
                          (i_designation_cadastrale immeuble_ref) in
  let r := attributions o mutations immeuble_ref in
  r.1 = apres r.2
  ∧ (∃ reste, mutations_triees mutations = r.2 ++ reste
              ∧ (reste ≠ [] → tous_attribues lots_ref r.1 = true))
  ∧ (∀ pre m post, r.2 = pre ++ m :: post → post ≠ [] →
       tous_attribues lots_ref (apres (pre ++ [m])) = false)
  ∧ (∀ pre m post, mutations_triees mutations = pre ++ m :: post →
       tous_attribues lots_ref (apres (pre ++ [m])) = true →
       ∃ post', pre ++ [m] = r.2 ++ post').
Proof. intros lots_ref apres r. apply boucle_spec. Qed.

Lemma attributions_premiere mutations immeuble_ref :
  let lots_ref := lots_ref_de mutations immeuble_ref in
  let apres := etat_apres o lots_ref (i_commune immeuble_ref)
                          (i_designation_cadastrale immeuble_ref) in
  let r := attributions o mutations immeuble_ref in
  NoDup (dict_keys r.1)
  ∧ ∀ pre m post lot,
      r.2 = pre ++ m :: post →
      match dict_get (apres pre) lot with
      | Some a => dict_get (apres (pre ++ [m])) lot = Some a ∧ dict_get r.1 lot = Some a
      | None => ∀ a, dict_get (apres (pre ++ [m])) lot = Some a →
                     vient_de m a ∧ dict_get r.1 lot = Some a
      end.
Proof.
  intros lots_ref apres r.
  destruct (attributions_spec mutations immeuble_ref) as (Hr & _).
  fold lots_ref apres r in Hr. split.
  - rewrite Hr. unfold apres, etat_apres. apply foldl_traiter_conserve. constructor.
  - intros pre m post lot Heq. rewrite Hr, Heq.
    unfold apres, etat_apres. rewrite (cons_middle m), !foldl_app. cbn [foldl].
    set (d := foldl (traiter_mutation o lots_ref (i_commune immeuble_ref)
                       (i_designation_cadastrale immeuble_ref)) [] pre).
    destruct (traiter_mutation_pas_conserve o lots_ref (i_commune immeuble_ref)
                (i_designation_cadastrale immeuble_ref) d m) as [_ Hstep].
    specialize (Hstep lot). destruct (dict_get d lot) as [a|].
    + split; [done|]. by apply foldl_traiter_conserve.
    + intros a Ha. split; [by apply Hstep|]. by apply foldl_traiter_conserve.
Qed.
End Attributions.

(** Claim C5.  The loop of the reconstruction stops after the first mutation
    at whose end every lot of reference has an owner, or, when there is no
    lot of reference, the mark of the whole building has one: the mutations
    processed are a beginning of the sorted list, the test fails after each
    of them but the last, it holds at the end when mutations are left, and no
    mutation that follows a point where the test holds is processed.  With
    the mutations A and B of the example and an older mutation C, the loop
    stops after B. *)
Theorem arret_quand_tout_est_attribue :
  (∀ (U : Unicode) (o : ordre_ensembles) (mutations : list mutation)
     (immeuble_ref : immeuble),
     let lots_ref := lots_ref_de mutations immeuble_ref in
     let apres := etat_apres o lots_ref (i_commune immeuble_ref)
                             (i_designation_cadastrale immeuble_ref) in
     let r := attributions o mutations immeuble_ref in
     r.1 = apres r.2
     ∧ (∃ reste, mutations_triees mutations = r.2 ++ reste
                 ∧ (reste ≠ [] → tous_attribues lots_ref r.1 = true))
     ∧ (∀ pre m post, r.2 = pre ++ m :: post → post ≠ [] →
          tous_attribues lots_ref (apres (pre ++ [m])) = false)
     ∧ (∀ pre m post, mutations_triees mutations = pre ++ m :: post →
          tous_attribues lots_ref (apres (pre ++ [m])) = true →
          ∃ post', pre ++ [m] = r.2 ++ post'))
  ∧ (∀ (lots_ref : gset pystr) (propriete_lots : dict attribution),
       tous_attribues lots_ref propriete_lots = true
       ↔ (lots_ref ≠ ∅ ∧ list_to_set (dict_keys propriete_lots) = lots_ref)
         ∨ (lots_ref = ∅ ∧ IMMEUBLE_ENTIER ∈ dict_keys propriete_lots))
  ∧ mutations_triees [mutation_C; mutation_B; mutation_A]
    = [mutation_A; mutation_B; mutation_C]
  ∧ (attributions (H := latin1) ordre_canonique
       [mutation_C; mutation_B; mutation_A] immeuble_exemple).2
    = [mutation_A; mutation_B]
  ∧ (attributions (H := latin1) ordre_canonique [mutation_E; mutation_D] immeuble_sans_lot)
    = ([(IMMEUBLE_ENTIER, attribution_de mutation_D proprietaire_X (u "PP"))], [mutation_D])
  ∧ (λ p, (pr_proprietaire p, pr_lots p))
      <$> reconstituer_propriete (H := latin1) ordre_canonique
            [mutation_E; mutation_D] [immeuble_sans_lot]
    = [ (proprietaire_X, [u "Immeuble entier"]) ].
Proof.
  split_and!.
  - intros U o mutations immeuble_ref. apply attributions_spec.
  - intros lots_ref propriete_lots. apply tous_attribues_spec.
  - vm_compute. reflexivity.
  - vm_compute. reflexivity.
  - vm_compute. reflexivity.
  - vm_compute. reflexivity.
Qed.

(** ** The order of the sets *)

(** The sorted list of a set does not depend on the enumeration. *)

Lemma str_lt_total a : ∀ b, str_lt a b = false → str_lt b a = false → a = b.
Proof.
  induction a as [|x a IH]; intros [|y b]; simpl; try done.
  destruct (N.ltb_spec x y), (N.ltb_spec y x), (N.eqb_spec x y), (N.eqb_spec y x);
    simpl; try done; try lia.
  intros Ha Hb. f_equal; [done|]. by apply IH.
Qed.

Lemma sorted_sorted_reverse {A} (lt : A → A → bool) l :
  sorted lt l = sorted_reverse (λ a b, lt b a) l.
Proof.
  unfold sorted, sorted_reverse. induction l as [|x l IH]; [done|]. cbn [foldr].
  rewrite IH. generalize (foldr (insert_desc (λ a b, lt b a)) [] l). intros k.
  induction k as [|y k IHk]; [done|]. cbn. by rewrite IHk.
Qed.

Lemma sorted_str_lt_perm l1 l2 : l1 ≡ₚ l2 → sorted str_lt l1 = sorted str_lt l2.
Proof.
  intros Hp. rewrite !sorted_sorted_reverse.
  assert (Hasym : ∀ x y : pystr, str_lt y x = true → str_lt x y = false)
    by (intros x y; apply str_lt_asym).
  assert (Hneg : ∀ x y z : pystr, str_lt y x = false → str_lt z y = false → str_lt z x = false)
    by (intros x y z H1 H2; by eapply str_lt_negtrans).
  apply (StronglySorted_unique_strong (λ a b, str_lt b a = false)).
  - intros x1 x2 _ _ H1 H2. by apply str_lt_total.
  - by apply (sorted_reverse_sorted_gen (λ a b, str_lt b a)).
  - by apply (sorted_reverse_sorted_gen (λ a b, str_lt b a)).
  - by rewrite !(sorted_reverse_perm_gen (λ a b, str_lt b a)).
Qed.

Section Ordres.
Context (o1 o2 : ordre_ensembles).

Lemma enum_perm_enum X : enum o1 X ≡ₚ enum o2 X.
Proof. by rewrite !enum_perm. Qed.

Lemma NoDup_enum (o : ordre_ensembles) X : NoDup (enum o X).
Proof. rewrite enum_perm. apply NoDup_elements. Qed.
End Ordres.

(** ** States that differ by the order within a block *)

Lemma equiv_blocs_refl d : equiv_blocs d d.
Proof. induction d; by constructor. Qed.

Lemma equiv_blocs_app_l d d2 d2' :
  equiv_blocs d2 d2' → equiv_blocs (d ++ d2) (d ++ d2').
Proof. intros H. induction d; cbn; [done|by constructor]. Qed.

Lemma equiv_blocs_app_r d d1 d1' :
  equiv_blocs d1 d1' → equiv_blocs (d1 ++ d) (d1' ++ d).
Proof.
  induction 1 as [|x l l' _ IH|k1 k2 a l|l1 l2 l3 _ IH1 _ IH2]; cbn.
  - apply equiv_blocs_refl.
  - by constructor.
  - apply eb_swap.
  - by eapply eb_trans.
Qed.

Lemma equiv_blocs_app d1 d1' d2 d2' :
  equiv_blocs d1 d1' → equiv_blocs d2 d2' → equiv_blocs (d1 ++ d2) (d1' ++ d2').
Proof.
  intros H1 H2. eapply eb_trans; [by apply equiv_blocs_app_r|by apply equiv_blocs_app_l].
Qed.

#[local] Instance equiv_blocs_preorder : PreOrder equiv_blocs.
Proof. split; [exact equiv_blocs_refl|exact eb_trans]. Qed.

Lemma equiv_blocs_get d1 d2 k : equiv_blocs d1 d2 → dict_get d1 k = dict_get d2 k.
Proof.
  induction 1 as [|[k0 v0] l l' _ IH|k1 k2 a l|l1 l2 l3 _ IH1 _ IH2];
    cbn [dict_get]; [done| |repeat case_bool_decide; done|congruence].
  by rewrite IH.
Qed.

Lemma equiv_blocs_keys d1 d2 : equiv_blocs d1 d2 → dict_keys d1 ≡ₚ dict_keys d2.
Proof.
  unfold dict_keys.
  induction 1 as [|x l l' _ IH|k1 k2 a l|l1 l2 l3 _ IH1 _ IH2]; cbn.
  - done.
  - by f_equiv.
  - apply perm_swap.
  - by etrans.
Qed.

Lemma dict_set_nouveau {V} (d : dict V) k v :
  dict_get d k = None → dict_set d k v = d ++ [(k, v)].
Proof.
  induction d as [|[k0 v0] d IH]; cbn [dict_get dict_set]; [done|].
  case_bool_decide; [done|]. intros Hd. by rewrite IH.
Qed.

Lemma attribuer_un_equiv info d1 d2 lot :
  equiv_blocs d1 d2 → equiv_blocs (attribuer_un info d1 lot) (attribuer_un info d2 lot).
Proof.
  intros Hd. unfold attribuer_un. rewrite <-(equiv_blocs_get d1 d2 lot Hd).
  destruct (dict_get d1 lot) eqn:Hg; [done|].
  rewrite !dict_set_nouveau; [by apply equiv_blocs_app_r|by rewrite <-(equiv_blocs_get d1 d2)|done].
Qed.

Lemma attribuer_un_swap info d x y :
  equiv_blocs (attribuer_un info (attribuer_un info d x) y)
              (attribuer_un info (attribuer_un info d y) x).
Proof.
  destruct (decide (x = y)) as [->|Hxy]; [done|].
  unfold attribuer_un.
  destruct (dict_get d x) eqn:Hx, (dict_get d y) eqn:Hy;
    rewrite ?Hx, ?Hy, ?dict_get_set, ?Hx, ?Hy;
    repeat (case_bool_decide; [congruence|]);
    rewrite ?Hx, ?Hy; try done.
  rewrite (dict_set_nouveau d x), (dict_set_nouveau d y) by done.
  rewrite !dict_set_nouveau.
  - rewrite <-!(assoc_L (++)). apply equiv_blocs_app_l, eb_swap.
  - rewrite <-dict_set_nouveau, dict_get_set by done. by case_bool_decide.
  - rewrite <-dict_set_nouveau, dict_get_set by done. by case_bool_decide.
Qed.

Lemma attribuer_equiv_meme lots info : ∀ d1 d2,
  equiv_blocs d1 d2 → equiv_blocs (attribuer lots info d1) (attribuer lots info d2).
Proof.
  unfold attribuer. induction lots as [|x lots IH]; intros d1 d2 Hd; cbn [foldl]; [done|].
  apply IH, (attribuer_un_equiv info d1 d2 x Hd).
Qed.

Lemma attribuer_equiv lots1 lots2 info :
  lots1 ≡ₚ lots2 → ∀ d1 d2,
  equiv_blocs d1 d2 → equiv_blocs (attribuer lots1 info d1) (attribuer lots2 info d2).
Proof.
  induction 1 as [|x l1 l2 _ IH|x y l|l1 l2 l3 _ IH1 _ IH2]; intros d1 d2 Hd.
  - done.
  - apply IH, (attribuer_un_equiv info d1 d2 x Hd).
  - etrans; [apply attribuer_equiv_meme, Hd|].
    apply (attribuer_equiv_meme l info), (attribuer_un_swap info d2 y x).
  - etrans; [by apply IH1|]. by apply IH2.
Qed.

Section DeuxOrdres.
Context `{Unicode} (o1 o2 : ordre_ensembles).

Lemma traiter_ligne_equiv mutation lots_concernes beneficiaires d1 d2 ligne :
  equiv_blocs d1 d2 →
  equiv_blocs (traiter_ligne o1 mutation lots_concernes beneficiaires d1 ligne)
              (traiter_ligne o2 mutation lots_concernes beneficiaires d2 ligne).
Proof.
  intros Hd. unfold traiter_ligne. cbv zeta.
  case_bool_decide; [|done].
  destruct (list_find _ _) as [[? b]|]; [|done].
  by apply attribuer_equiv; [apply enum_perm_enum|].
Qed.

Lemma traiter_mutation_equiv lots_ref commune_ref designation_ref d1 d2 mutation :
  equiv_blocs d1 d2 →
  equiv_blocs (traiter_mutation o1 lots_ref commune_ref designation_ref d1 mutation)
              (traiter_mutation o2 lots_ref commune_ref designation_ref d2 mutation).
Proof.
  intros Hd. unfold traiter_mutation. cbv zeta.
  destruct (concerne_immeuble _ _ _); [|done].
  case_bool_decide; [|done].
  destruct (md_beneficiaire_donataire _) as [|b bs]; [done|].
  destruct (im_get im_lignes_detaillees [] mutation) as [|l ls].
  - by apply attribuer_equiv; [apply enum_perm_enum|].
  - generalize (l :: ls). intros lignes. revert d1 d2 Hd.
    induction lignes as [|x lignes IH]; intros d1 d2 Hd; cbn [foldl]; [done|].
    by apply IH, traiter_ligne_equiv.
Qed.

Lemma tous_attribues_equiv lots_ref d1 d2 :
  equiv_blocs d1 d2 → tous_attribues lots_ref d1 = tous_attribues lots_ref d2.
Proof.
  intros Hd. unfold tous_attribues.
  by rewrite (list_to_set_perm_L _ _ (equiv_blocs_keys _ _ Hd)).
Qed.

Lemma boucle_mutations_equiv lots_ref commune_ref designation_ref triees : ∀ d1 d2,
  equiv_blocs d1 d2 →
  equiv_blocs (boucle_mutations o1 lots_ref commune_ref designation_ref d1 triees).1
              (boucle_mutations o2 lots_ref commune_ref designation_ref d2 triees).1
  ∧ (boucle_mutations o1 lots_ref commune_ref designation_ref d1 triees).2
    = (boucle_mutations o2 lots_ref commune_ref designation_ref d2 triees).2.
Proof.
  induction triees as [|m triees IH]; intros d1 d2 Hd; cbn [boucle_mutations]; [done|].
  pose proof (traiter_mutation_equiv lots_ref commune_ref designation_ref d1 d2 m Hd) as Hm.
  rewrite (tous_attribues_equiv lots_ref _ _ Hm).
  destruct (tous_attribues _ _); [done|].
  destruct (IH _ _ Hm) as [H1 H2].
  destruct (boucle_mutations o1 _ _ _ _ _), (boucle_mutations o2 _ _ _ _ _).
  cbn in *. by subst.
Qed.

Lemma attributions_equiv mutations immeuble_ref :
  equiv_blocs (attributions o1 mutations immeuble_ref).1
              (attributions o2 mutations immeuble_ref).1
  ∧ (attributions o1 mutations immeuble_ref).2 = (attributions o2 mutations immeuble_ref).2.
Proof. apply boucle_mutations_equiv, equiv_blocs_refl. Qed.

End DeuxOrdres.

(** ** The grouping by owner *)

#[local] Instance groupe_equiv_equivalence : Equivalence groupe_equiv.
Proof.
  split.
  - by intros g.
  - intros g1 g2 (?&?&?&?). by repeat split.
  - intros g1 g2 g3 (?&?&?&?) (?&?&?&?). repeat split; by etrans.
Qed.

#[local] Instance groupes_equiv_equivalence : Equivalence groupes_equiv.
Proof.
  unfold groupes_equiv. split.
  - intros d. induction d; by constructor.
  - intros d1 d2 Hd. apply Forall2_flip. eapply Forall2_impl; [exact Hd|].
    by intros x y [-> ->].
  - intros d1 d2 d3 H1. revert d3.
    induction H1 as [|x y d1 d2 [Hk Hg] _ IH]; intros d3 H2; [done|].
    inversion H2 as [|y' z d2' d3' [Hk' Hg'] H2']; subst. constructor; [|by apply IH].
    split; by etrans.
Qed.

Lemma groupes_equiv_get G1 G2 k :
  groupes_equiv G1 G2 → option_Forall2 groupe_equiv (dict_get G1 k) (dict_get G2 k).
Proof.
  induction 1 as [|[k1 g1] [k2 g2] G1 G2 [Hk Hg] _ IH]; cbn [dict_get]; [constructor|].
  cbn in Hk, Hg. subst k2. case_bool_decide; [by constructor|done].
Qed.

Lemma groupes_equiv_set G1 G2 k g1 g2 :
  groupes_equiv G1 G2 → groupe_equiv g1 g2 →
  groupes_equiv (dict_set G1 k g1) (dict_set G2 k g2).
Proof.
  intros HG Hg. induction HG as [|[k1 h1] [k2 h2] G1 G2 [Hk Hh] HG IH]; cbn [dict_set].
  - by constructor.
  - cbn in Hk, Hh. subst k2. case_bool_decide; by constructor.
Qed.

Lemma dict_set_set {V} (d : dict V) k v v' :
  dict_set (dict_set d k v) k v' = dict_set d k v'.
Proof.
  induction d as [|[k0 v0] d IH]; cbn [dict_set].
  - by rewrite bool_decide_eq_true_2.
  - case_bool_decide; cbn [dict_set].
    + by rewrite bool_decide_eq_true_2.
    + rewrite bool_decide_eq_false_2 by done. by rewrite IH.
Qed.

Section Groupes.
Context `{Unicode}.

Lemma grouper_equiv G1 G2 item :
  groupes_equiv G1 G2 → groupes_equiv (grouper G1 item) (grouper G2 item).
Proof.
  intros HG. destruct item as [lot info]. unfold grouper. cbv zeta.
  apply groupes_equiv_set; [done|].
  destruct (groupes_equiv_get G1 G2
    (p_designation (a_proprietaire info) ++ u "_" ++ p_date_naissance (a_proprietaire info)) HG)
    as [g1 g2 (Hp&Hd&Ha&Hl)|]; cbn [default from_option id];
    repeat split; cbn; try done.
  - by rewrite Ha.
  - by rewrite Hl.
Qed.

Lemma grouper_swap G k1 k2 a :
  groupes_equiv (grouper (grouper G (k1, a)) (k2, a)) (grouper (grouper G (k2, a)) (k1, a)).
Proof.
  unfold grouper. cbv zeta. rewrite !dict_get_set, !bool_decide_eq_true_2 by done.
  cbn [default from_option id g_proprietaire g_lots g_droits g_date_acquisition_plus_recente].
  rewrite !dict_set_set. apply groupes_equiv_set; [done|].
  repeat split; cbn; try done.
  rewrite <-!(assoc_L (++)). f_equiv. apply perm_swap.
Qed.

Lemma foldl_grouper_meme l : ∀ G1 G2,
  groupes_equiv G1 G2 → groupes_equiv (foldl grouper G1 l) (foldl grouper G2 l).
Proof.
  induction l as [|x l IH]; intros G1 G2 HG; cbn [foldl]; [done|].
  by apply IH, grouper_equiv.
Qed.

Lemma foldl_grouper_equiv d1 d2 :
  equiv_blocs d1 d2 → ∀ G1 G2,
  groupes_equiv G1 G2 → groupes_equiv (foldl grouper G1 d1) (foldl grouper G2 d2).
Proof.
  induction 1 as [|x l l' _ IH|k1 k2 a l|l1 l2 l3 _ IH1 _ IH2]; intros G1 G2 HG; cbn [foldl].
  - done.
  - by apply IH, grouper_equiv.
  - apply foldl_grouper_meme. etrans; [|apply grouper_swap].
    by do 2 apply grouper_equiv.
  - etrans; [by apply IH1|]. by apply IH2.
Qed.

Lemma propriete_de_equiv ref g1 g2 :
  groupe_equiv g1 g2 → propriete_de ref g1 = propriete_de ref g2.
Proof.
  intros (Hp&Hd&Ha&Hl). unfold propriete_de. rewrite Hp, Hd, Ha. f_equal.
  rewrite (bool_decide_ext (IMMEUBLE_ENTIER ∈ g_lots g1) (IMMEUBLE_ENTIER ∈ g_lots g2))
    by (by rewrite Hl).
  case_bool_decide; [done|]. apply sorted_str_lt_perm. by rewrite Hl.
Qed.

Lemma proprietes_equiv ref G1 G2 :
  groupes_equiv G1 G2 → propriete_de ref <$> G1.*2 = propriete_de ref <$> G2.*2.
Proof.
  induction 1 as [|[k1 g1] [k2 g2] G1 G2 [_ Hg] _ IH]; cbn; [done|].
  cbn in Hg. by rewrite IH, (propriete_de_equiv ref g1 g2 Hg).
Qed.

Lemma reconstituer_propriete_ordre (o1 o2 : ordre_ensembles) mutations immeubles :
  reconstituer_propriete o1 mutations immeubles = reconstituer_propriete o2 mutations immeubles.
Proof.
  unfold reconstituer_propriete. destruct mutations as [|m ms]; [done|].
  destruct immeubles as [|immeuble_ref _]; [done|]. cbv zeta.
  destruct (attributions_equiv o1 o2 (m :: ms) immeuble_ref) as [Hd _].
  rewrite (list_to_set_perm_L _ _ (equiv_blocs_keys _ _ Hd)).
  rewrite (sorted_str_lt_perm _ _ (enum_perm_enum o1 o2 _)).
  f_equal. by apply proprietes_equiv, foldl_grouper_equiv.
Qed.

Lemma extraction_complete_ehf_ordre (o1 o2 : ordre_ensembles) doc :
  extraction_complete_ehf o1 doc = extraction_complete_ehf o2 doc.
Proof.
  unfold extraction_complete_ehf. destruct (pages doc); [done|].
  destruct (extract_formalites_from_pdf _) as [[[formalites comptage] hyp] mutations].
  cbv zeta. by rewrite (reconstituer_propriete_ordre o1 o2).
Qed.
End Groupes.

(** Claim C9.  The pipeline is deterministic: two runs on the same text of
    the pages and the same tables of the last page give the same two
    documents, whatever the order in which each run iterates its sets of
    lots, and a file with a page gives a result.  The date of extraction
    written in the document is the constant 2024-10-30, so that it is the
    same in both runs as well.  The order of the sets does reach
    [propriete_lots] (the keys of the mutation B of the example come in one
    order or the other), and is erased by the sort of the lots of each
    owner. *)
Theorem extraction_deterministe :
  (∀ (U : Unicode) (o1 o2 : ordre_ensembles) (doc : document),
     extraction_complete_ehf o1 doc = extraction_complete_ehf o2 doc)
  ∧ (∀ (U : Unicode) (o : ordre_ensembles) (doc : document),
       pages doc ≠ [] → is_Some (extraction_complete_ehf o doc))
  ∧ (∀ (U : Unicode) (o : ordre_ensembles) (doc : document) sf immeubles,
       extraction_complete_ehf o doc = Some (sf, immeubles) →
       date_extraction (sf_statistiques sf) = u "2024-10-30")
  ∧ dict_keys (attributions (H := latin1) ordre_canonique [mutation_B] immeuble_exemple).1
    = [u "9"; u "17"]
  ∧ dict_keys (attributions (H := latin1) ordre_inverse [mutation_B] immeuble_exemple).1
    = [u "17"; u "9"]
  ∧ pr_lots <$> reconstituer_propriete (H := latin1) ordre_canonique
                  [mutation_B] [immeuble_exemple]
    = [[u "17"; u "9"]]
  ∧ pr_lots <$> reconstituer_propriete (H := latin1) ordre_inverse
                  [mutation_B] [immeuble_exemple]
    = [[u "17"; u "9"]].
Proof.
  split_and!.
  - intros U o1 o2 doc. apply extraction_complete_ehf_ordre.
  - intros U o doc Hp. unfold extraction_complete_ehf.
    destruct (pages doc); [done|].
    by destruct (extract_formalites_from_pdf _) as [[[? ?] ?] ?].
  - intros U o doc sf immeubles. unfold extraction_complete_ehf.
    destruct (pages doc); [done|].
    destruct (extract_formalites_from_pdf _) as [[[? ?] ?] ?].
    cbv zeta. intros [= <- _]. done.
  - vm_compute. reflexivity.
  - vm_compute. reflexivity.
  - vm_compute. reflexivity.
  - vm_compute. reflexivity.
Qed.

(** ** The lots that the reconstruction gives *)

Lemma elem_of_dict_keys {V} (d : dict V) k : k ∈ dict_keys d ↔ is_Some (dict_get d k).
Proof.
  rewrite <-not_eq_None_Some, dict_get_None. split; [naive_solver|]. apply dec_stable.
Qed.

Lemma attribuer_keys lots info d k :
  k ∈ dict_keys (attribuer lots info d) → k ∈ dict_keys d ∨ k ∈ lots.
Proof.
  rewrite !elem_of_dict_keys, attribuer_get.
  destruct (dict_get d k); [by left; eauto|]. case_bool_decide; [by right|by intros []].
Qed.

Section Domaine.
Context `{Unicode} (o : ordre_ensembles).

Lemma elem_of_enum X k : k ∈ enum o X ↔ k ∈ X.
Proof. by rewrite enum_perm, elem_of_elements. Qed.

Lemma traiter_ligne_keys mutation lots_concernes beneficiaires d ligne k :
  k ∈ dict_keys (traiter_ligne o mutation lots_concernes beneficiaires d ligne) →
  k ∈ dict_keys d ∨ k ∈ lots_concernes.
Proof.
  unfold traiter_ligne. cbv zeta. case_bool_decide; [|by left].
  destruct (list_find _ _) as [[? b]|]; [|by left].
  intros [Hk|Hk]%attribuer_keys; [by left|right].
  apply elem_of_enum in Hk. case_bool_decide; set_solver.
Qed.

Lemma traiter_mutation_keys lots_ref commune_ref designation_ref d mutation k :
  k ∈ dict_keys (traiter_mutation o lots_ref commune_ref designation_ref d mutation) →
  k ∈ dict_keys d ∨ k ∈ lots_concernes_de lots_ref mutation.
Proof.
  unfold traiter_mutation. cbv zeta.
  destruct (concerne_immeuble _ _ _); [|by left].
  case_bool_decide; [|by left].
  destruct (md_beneficiaire_donataire _) as [|b bs]; [by left|].
  destruct (im_get im_lignes_detaillees [] mutation) as [|l ls].
  - intros [Hk|Hk]%attribuer_keys; [by left|right]. by apply elem_of_enum in Hk.
  - generalize (l :: ls). intros lignes. revert d.
    induction lignes as [|x lignes IH]; intros d; cbn [foldl]; [by left|].
    intros [Hk|Hk]%IH; [|by right]. by apply traiter_ligne_keys in Hk.
Qed.

Lemma lots_concernes_de_domaine lots_ref mutation k :
  k ∈ lots_concernes_de lots_ref mutation →
  (lots_ref ≠ ∅ ∧ k ∈ lots_ref ∧ k ∈ im_get im_lots [] mutation)
  ∨ (lots_ref = ∅ ∧ im_get im_lots [] mutation = [] ∧ k = IMMEUBLE_ENTIER).
Proof.
  unfold lots_concernes_de. cbv zeta.
  destruct (bool_decide_reflect (lots_ref = ∅)) as [->|Hne]; cbn [andb].
  - case_bool_decide as Hm; [|set_solver]. intros ->%elem_of_singleton. right.
    split_and!; [done| |done].
    destruct (im_get im_lots [] mutation) as [|x l]; [done|]. set_solver.
  - intros [? ?%elem_of_list_to_set]%elem_of_intersection. left. done.
Qed.

Lemma boucle_mutations_keys lots_ref commune_ref designation_ref l : ∀ d k,
  k ∈ dict_keys (boucle_mutations o lots_ref commune_ref designation_ref d l).1 →
  k ∈ dict_keys d
  ∨ ∃ m, m ∈ (boucle_mutations o lots_ref commune_ref designation_ref d l).2
         ∧ k ∈ lots_concernes_de lots_ref m.
Proof.
  induction l as [|m l IH]; intros d k; cbn [boucle_mutations]; [by left|].
  destruct (tous_attribues _ _).
  - cbn [fst snd]. intros [?|?]%traiter_mutation_keys; [by left|right].
    exists m. split; [left|done].
  - specialize (IH (traiter_mutation o lots_ref commune_ref designation_ref d m) k).
    destruct (boucle_mutations _ _ _ _ _ l) as [final traitees]. cbn [fst snd] in *.
    intros [Hk|(m' & Hm' & Hk)]%IH.
    + apply traiter_mutation_keys in Hk as [?|?]; [by left|right].
      exists m. split; [left|done].
    + right. exists m'. split; [by right|done].
Qed.

(** The lots that have an owner are lots of reference that a mutation
    processed names, or the mark of the whole building when there is no lot
    of reference. *)
Lemma attributions_keys mutations immeuble_ref k :
  k ∈ dict_keys (attributions o mutations immeuble_ref).1 →
  ∃ m, m ∈ (attributions o mutations immeuble_ref).2
       ∧ k ∈ lots_concernes_de (lots_ref_de mutations immeuble_ref) m.
Proof.
  intros [Hk|Hk]%boucle_mutations_keys; [|done]. by apply elem_of_nil in Hk.
Qed.
End Domaine.

(** ** The groups of the owners *)

Section Groupement.
Context `{Unicode}.

Lemma grouper_dict_set G lot info :
  grouper G (lot, info)
  = dict_set G (cle_proprietaire info)
             (ajouter_au_groupe (dict_get G (cle_proprietaire info)) lot info).
Proof. reflexivity. Qed.

Lemma dict_get_grouper G lot info k :
  dict_get (grouper G (lot, info)) k
  = if bool_decide (cle_proprietaire info = k)
    then Some (ajouter_au_groupe (dict_get G k) lot info)
    else dict_get G k.
Proof.
  rewrite grouper_dict_set, dict_get_set. by case_bool_decide; subst.
Qed.

(** The group of a key after the items of [d], from the group [og]. *)
Lemma dict_get_foldl_grouper d k : ∀ G,
  dict_get (foldl grouper G d) k
  = foldl (λ og item, Some (ajouter_au_groupe og item.1 item.2)) (dict_get G k) (items_de k d).
Proof.
  unfold items_de. induction d as [|[lot info] d IH]; intros G; cbn [foldl]; [done|].
  rewrite IH, dict_get_grouper, filter_cons. cbn [snd].
  destruct (bool_decide_reflect (cle_proprietaire info = k)) as [Hk|Hk];
    [rewrite decide_True by done|rewrite decide_False by done]; done.
Qed.

Lemma foldl_ajouter_au_groupe items : ∀ g,
  ∃ g', foldl (λ og item, Some (ajouter_au_groupe og item.1 item.2)) (Some g) items = Some g'
        ∧ g_proprietaire g' = g_proprietaire g
        ∧ g_droits g' = g_droits g
        ∧ g_lots g' = g_lots g ++ items.*1
        ∧ (g_date_acquisition_plus_recente g' = g_date_acquisition_plus_recente g
           ∨ g_date_acquisition_plus_recente g' ∈ (λ item, a_date_acquisition item.2) <$> items)
        ∧ str_lt (g_date_acquisition_plus_recente g') (g_date_acquisition_plus_recente g) = false
        ∧ Forall (λ item, str_lt (g_date_acquisition_plus_recente g')
                                 (a_date_acquisition item.2) = false) items.
Proof.
  induction items as [|[lot info] items IH]; intros g; cbn [foldl fst snd].
  - exists g. rewrite app_nil_r, str_lt_irrefl. split_and!; by eauto.
  - destruct (IH (ajouter_au_groupe (Some g) lot info))
      as (g' & -> & Hp & Hd & Hl & Hdate & Hge & Hall).
    exists g'. cbn [ajouter_au_groupe default from_option id g_proprietaire g_droits g_lots
                    g_date_acquisition_plus_recente fst snd] in *.
    assert (Hlots : g_lots g' = g_lots g ++ lot :: items.*1)
      by (by rewrite Hl, <-(assoc_L (++))).
    destruct (str_lt (g_date_acquisition_plus_recente g) (a_date_acquisition info)) eqn:E.
    + split_and!; [done..| | |].
      * right. destruct Hdate as [->|Hin]; [left|by right].
      * apply str_lt_asym in E. by eapply str_lt_negtrans.
      * by constructor.
    + split_and!; [done..| |done|].
      * destruct Hdate as [->|Hin]; [by left|right; by right].
      * constructor; [|done]. by eapply str_lt_negtrans.
Qed.

Lemma NoDup_keys_foldl_grouper d : ∀ G,
  NoDup (dict_keys G) → NoDup (dict_keys (foldl grouper G d)).
Proof.
  induction d as [|[lot info] d IH]; intros G HG; cbn [foldl]; [done|].
  apply IH. rewrite grouper_dict_set. by apply NoDup_dict_keys_set.
Qed.

Lemma elem_of_dict_get {V} (d : dict V) k v :
  NoDup (dict_keys d) → (k, v) ∈ d → dict_get d k = Some v.
Proof.
  unfold dict_keys. induction d as [|[k0 v0] d IH]; cbn [dict_get fmap list_fmap fst].
  - by intros _ ?%elem_of_nil.
  - intros [Hk0 Hd]%NoDup_cons [[= -> ->]|Hin]%elem_of_cons.
    + by rewrite bool_decide_eq_true_2.
    + rewrite bool_decide_eq_false_2; [by apply IH|].
      intros ->. apply Hk0. apply list_elem_of_fmap. by exists (k, v).
Qed.

(** The entry of an owner in the grouping: the owner and the rights are
    those of the first of its lots in [propriete_lots], its lots are all the
    lots with its key, in their order, and its date is the greatest of their
    dates of acquisition in the order of the strings. *)
Theorem groupe_premier_lot_et_date_maximale d k g :
  (k, g) ∈ foldl grouper [] d →
  ∃ lot info suite,
    items_de k d = (lot, info) :: suite
    ∧ g_proprietaire g = a_proprietaire info
    ∧ g_droits g = a_droits info
    ∧ g_lots g = (items_de k d).*1
    ∧ g_date_acquisition_plus_recente g ∈ (λ item, a_date_acquisition item.2) <$> items_de k d
    ∧ Forall (λ item, str_lt (g_date_acquisition_plus_recente g)
                             (a_date_acquisition item.2) = false) (items_de k d).
Proof.
  intros Hin. apply elem_of_dict_get in Hin; [|apply NoDup_keys_foldl_grouper, NoDup_nil_2].
  rewrite dict_get_foldl_grouper in Hin. cbn [dict_get] in Hin.
  destruct (items_de k d) as [|[lot info] suite]; [done|]. cbn [foldl fst snd] in Hin.
  destruct (foldl_ajouter_au_groupe suite (ajouter_au_groupe None lot info))
    as (g' & Hg' & Hp & Hd & Hl & Hdate & Hge & Hall).
  rewrite Hg' in Hin. injection Hin as ->.
  cbn [ajouter_au_groupe default from_option id g_proprietaire g_droits g_lots
       g_date_acquisition_plus_recente fst snd] in *.
  rewrite str_lt_irrefl in Hdate, Hge.
  exists lot, info, suite. split_and!; [done|done|done|done| |].
  - destruct Hdate as [->|?]; [left|by right].
  - by constructor.
Qed.

(** The lots of the groups are the keys of [propriete_lots]. *)
Lemma concat_lots_dict_set G k g' lot :
  g_lots g' = default [] (g_lots <$> dict_get G k) ++ [lot] →
  concat (g_lots <$> (dict_set G k g').*2) ≡ₚ lot :: concat (g_lots <$> G.*2).
Proof.
  induction G as [|[k0 g0] G IH]; cbn [dict_get dict_set fmap list_fmap snd concat option_fmap
                                       option_map default from_option id].
  - intros ->. done.
  - case_bool_decide; cbn [fmap list_fmap snd concat option_fmap option_map default
                           from_option id].
    + intros ->. rewrite <-(assoc_L (++)). cbn. by rewrite <-Permutation_middle.
    + intros Hg. rewrite IH by done. by rewrite <-Permutation_middle.
Qed.

Lemma concat_lots_foldl_grouper d : ∀ G,
  concat (g_lots <$> (foldl grouper G d).*2) ≡ₚ concat (g_lots <$> G.*2) ++ dict_keys d.
Proof.
  unfold dict_keys.
  induction d as [|[lot info] d IH]; intros G; cbn [foldl fmap list_fmap fst].
  - by rewrite app_nil_r.
  - rewrite IH, grouper_dict_set, (concat_lots_dict_set G _ _ lot).
    + apply Permutation_middle.
    + by destruct (dict_get G _).
Qed.
End Groupement.


Lemma sorted_perm {A} (lt : A → A → bool) l : sorted lt l ≡ₚ l.
Proof. rewrite sorted_sorted_reverse. apply sorted_reverse_perm_gen. Qed.

Lemma filter_tout {A} (P : A → Prop) `{∀ x, Decision (P x)} l :
  Forall P l → filter P l = l.
Proof.
  induction 1 as [|x l Hx _ IH]; [done|]. by rewrite filter_cons_True, IH.
Qed.

Lemma concat_fmap_perm {A B} (f g : A → list B) l :
  Forall (λ x, f x ≡ₚ g x) l → concat (f <$> l) ≡ₚ concat (g <$> l).
Proof. induction 1 as [|x l Hx _ IH]; cbn; [done|]. by rewrite Hx, IH. Qed.

Section Partition.
Context `{Unicode} (o : ordre_ensembles).

Lemma pr_lots_sans_marque ref g :
  IMMEUBLE_ENTIER ∉ g_lots g → pr_lots (propriete_de ref g) ≡ₚ g_lots g.
Proof.
  intros Hg. cbn [propriete_de pr_lots]. rewrite bool_decide_eq_false_2 by done.
  rewrite sorted_perm, filter_tout; [done|].
  apply Forall_forall. by intros x Hx ->.
Qed.

Lemma attributions_dans_reference mutations immeuble_ref lot :
  lots_ref_de mutations immeuble_ref ≠ ∅ →
  lot ∈ dict_keys (attributions o mutations immeuble_ref).1 →
  lot ∈ lots_ref_de mutations immeuble_ref.
Proof.
  intros Hne (m & _ & Hm)%attributions_keys.
  apply lots_concernes_de_domaine in Hm as [(_ & ? & _)|(? & _)]; done.
Qed.

Lemma attributions_marque mutations immeuble_ref lot :
  lots_ref_de mutations immeuble_ref = ∅ →
  lot ∈ dict_keys (attributions o mutations immeuble_ref).1 →
  lot = IMMEUBLE_ENTIER.
Proof.
  intros He (m & _ & Hm)%attributions_keys.
  apply lots_concernes_de_domaine in Hm as [(? & _)|(_ & _ & ?)]; done.
Qed.

Lemma attributions_NoDup mutations immeuble_ref :
  NoDup (dict_keys (attributions o mutations immeuble_ref).1).
Proof. by destruct (attributions_premiere o mutations immeuble_ref) as [Hnd _]. Qed.

Lemma reconstituer_propriete_cons m ms immeuble_ref autres :
  reconstituer_propriete o (m :: ms) (immeuble_ref :: autres)
  = let lots_ref := lots_ref_de (m :: ms) immeuble_ref in
    let ref := {| ir_commune := i_commune immeuble_ref;
                  ir_designation_cadastrale := i_designation_cadastrale immeuble_ref;
                  ir_code := i_code immeuble_ref |} in
    let propriete_lots := (attributions o (m :: ms) immeuble_ref).1 in
    let lots_non_attribues := lots_ref ∖ list_to_set (dict_keys propriete_lots) in
    (propriete_de ref <$> (foldl grouper [] propriete_lots).*2)
    ++ (if bool_decide (lots_non_attribues ≠ ∅) then
          [ {| pr_immeuble := ref;
               pr_proprietaire := {| p_numero := []; p_designation := u "PROPRIETAIRE INCONNU";
                                     p_date_naissance := [] |};
               pr_lots := sorted str_lt (enum o lots_non_attribues);
               pr_droits := u "INCONNU";
               pr_date_acquisition := [] |} ]
        else []).
Proof. reflexivity. Qed.

(** When the building of reference has lots, each of them is in the lots of
    exactly one entry of the result: the entry of the owner it was given to,
    or the last entry, of the unknown owner. *)
Theorem lots_de_reference_partages mutations immeuble_ref autres :
  mutations ≠ [] →
  lots_ref_de mutations immeuble_ref ≠ ∅ →
  IMMEUBLE_ENTIER ∉ lots_ref_de mutations immeuble_ref →
  concat (pr_lots <$> reconstituer_propriete o mutations (immeuble_ref :: autres))
  ≡ₚ elements (lots_ref_de mutations immeuble_ref).
Proof.
  intros Hm Hne Hie. destruct mutations as [|m ms]; [done|].
  rewrite reconstituer_propriete_cons. cbv zeta.
  set (lots_ref := lots_ref_de (m :: ms) immeuble_ref) in *.
  set (d := (attributions o (m :: ms) immeuble_ref).1).
  assert (Hsub : ∀ lot, lot ∈ dict_keys d → lot ∈ lots_ref)
    by (intros lot; by apply attributions_dans_reference).
  assert (Hnd : NoDup (dict_keys d)) by apply attributions_NoDup.
  pose proof (concat_lots_foldl_grouper d []) as Hg. cbn in Hg.
  rewrite fmap_app, concat_app, <-list_fmap_compose.
  rewrite (concat_fmap_perm _ g_lots).
  2:{ apply Forall_forall. intros g Hin. apply pr_lots_sans_marque.
      intros Hie'. apply Hie, Hsub. rewrite <-Hg.
      apply list_elem_of_In, in_concat. exists (g_lots g).
      split; apply list_elem_of_In; [by apply list_elem_of_fmap_2|done]. }
  rewrite Hg.
  assert (Hinc : concat (pr_lots <$>
             (if bool_decide (lots_ref ∖ list_to_set (dict_keys d) ≠ ∅) then
                [ {| pr_immeuble := {| ir_commune := i_commune immeuble_ref;
                       ir_designation_cadastrale := i_designation_cadastrale immeuble_ref;
                       ir_code := i_code immeuble_ref |};
                     pr_proprietaire := {| p_numero := [];
                                           p_designation := u "PROPRIETAIRE INCONNU";
                                           p_date_naissance := [] |};
                     pr_lots := sorted str_lt (enum o (lots_ref ∖ list_to_set (dict_keys d)));
                     pr_droits := u "INCONNU";
                     pr_date_acquisition := [] |} ]
              else []))
           ≡ₚ elements (lots_ref ∖ list_to_set (dict_keys d))).
  { case_bool_decide as Hx.
    - cbn. by rewrite app_nil_r, sorted_perm, enum_perm.
    - rewrite Hx, elements_empty. done. }
  rewrite Hinc. apply NoDup_Permutation.
  - apply NoDup_app. split_and!; [done| |apply NoDup_elements].
    intros x Hx. rewrite elem_of_elements. set_solver.
  - apply NoDup_elements.
  - intros x. rewrite elem_of_app, !elem_of_elements, elem_of_difference, elem_of_list_to_set.
    destruct (decide (x ∈ dict_keys d)); naive_solver.
Qed.

(** When there is no lot of reference, in the table or in the mutations,
    the result has at most one entry, and its lots are the whole
    building. *)
Theorem immeuble_entier_un_proprietaire mutations immeuble_ref autres :
  lots_ref_de mutations immeuble_ref = ∅ →
  (length (reconstituer_propriete o mutations (immeuble_ref :: autres)) ≤ 1)%nat
  ∧ Forall (λ p, pr_lots p = [u "Immeuble entier"])
           (reconstituer_propriete o mutations (immeuble_ref :: autres)).
Proof.
  intros He. destruct mutations as [|m ms]; [by split; [cbn; lia|constructor]|].
  rewrite reconstituer_propriete_cons. cbv zeta. rewrite He.
  rewrite bool_decide_eq_false_2, app_nil_r by set_solver.
  pose proof (attributions_NoDup (m :: ms) immeuble_ref) as Hnd.
  pose proof (λ lot, attributions_marque (m :: ms) immeuble_ref lot He) as Hie.
  destruct ((attributions o (m :: ms) immeuble_ref).1) as [|[k a] [|[k' a'] d]].
  - split; [cbn; lia|constructor].
  - change (foldl grouper [] [(k, a)])
      with [(cle_proprietaire a, ajouter_au_groupe None k a)].
    cbn [fmap list_fmap snd length]. split; [lia|].
    constructor; [|constructor].
    cbn [propriete_de pr_lots ajouter_au_groupe default from_option id g_lots app].
    rewrite bool_decide_eq_true_2; [done|].
    rewrite (Hie k) by left. left.
  - exfalso. assert (Hk : k = k').
    { etrans; [apply Hie; left|symmetry; apply Hie; right; left]. }
    subst k'. change (NoDup (k :: k :: d.*1)) in Hnd.
    apply NoDup_cons in Hnd as [Hk _]. apply Hk. left.
Qed.
End Partition.


(** A lot that the reconstruction gives to an owner is named by one of the
    mutations and is a lot of reference; when there is no lot of reference,
    it is the mark of the whole building and comes from a mutation that
    names no lot. *)
Theorem lots_attribues_de_reference (U : Unicode) (o : ordre_ensembles)
    (mutations : list mutation) (immeuble_ref : immeuble) (lot : pystr) :
  lot ∈ dict_keys (attributions o mutations immeuble_ref).1 →
  ∃ m, m ∈ mutations
       ∧ ((lots_ref_de mutations immeuble_ref ≠ ∅
           ∧ lot ∈ lots_ref_de mutations immeuble_ref
           ∧ lot ∈ im_get im_lots [] m)
          ∨ (lots_ref_de mutations immeuble_ref = ∅
             ∧ im_get im_lots [] m = []
             ∧ lot = IMMEUBLE_ENTIER)).
Proof.
  intros (m & Hm & Hk)%attributions_keys. exists m. split.
  - destruct (attributions_spec o mutations immeuble_ref) as (_ & (reste & Hl & _) & _).
    rewrite <-(sorted_reverse_perm_gen
                 (λ x y, str_lt (convertir_date_pour_tri (mu_date_depot x))
                                (convertir_date_pour_tri (mu_date_depot y))) mutations).
    fold (mutations_triees mutations). rewrite Hl. apply elem_of_app. by left.
  - by apply lots_concernes_de_domaine.
Qed.

Lemma lots_attribues_de_reference_exemple :
  ∃ m, m ∈ [mutation_B; mutation_A]
       ∧ ((lots_ref_de (H := latin1) [mutation_B; mutation_A] immeuble_exemple ≠ ∅
           ∧ u "17" ∈ lots_ref_de (H := latin1) [mutation_B; mutation_A] immeuble_exemple
           ∧ u "17" ∈ im_get im_lots [] m)
          ∨ (lots_ref_de (H := latin1) [mutation_B; mutation_A] immeuble_exemple = ∅
             ∧ im_get im_lots [] m = []
             ∧ u "17" = IMMEUBLE_ENTIER)).
Proof.
  apply (lots_attribues_de_reference latin1 ordre_canonique). vm_compute. right. left.
Defined.

Lemma lots_de_reference_partages_exemple :
  concat (pr_lots <$> reconstituer_propriete (H := latin1) ordre_canonique
                        [mutation_A] [immeuble_exemple])
  ≡ₚ elements (lots_ref_de (H := latin1) [mutation_A] immeuble_exemple).
Proof.
  apply (lots_de_reference_partages (H := latin1) ordre_canonique
           [mutation_A] immeuble_exemple []).
  - discriminate.
  - par_calcul.
  - par_calcul.
Defined.

Lemma immeuble_entier_un_proprietaire_exemple :
  (length (reconstituer_propriete (H := latin1) ordre_canonique
             [mutation_E; mutation_D] [immeuble_sans_lot]) ≤ 1)%nat
  ∧ Forall (λ p, pr_lots p = [u "Immeuble entier"])
           (reconstituer_propriete (H := latin1) ordre_canonique
              [mutation_E; mutation_D] [immeuble_sans_lot]).
Proof.
  apply (immeuble_entier_un_proprietaire (H := latin1) ordre_canonique).
  par_calcul.
Defined.

Lemma groupe_premier_lot_et_date_maximale_exemple :
  ∃ lot info suite,
    items_de (u "XAVIER_01/01/1970") attributions_exemple = (lot, info) :: suite
    ∧ g_proprietaire groupe_exemple = a_proprietaire info
    ∧ g_droits groupe_exemple = a_droits info
    ∧ g_lots groupe_exemple = (items_de (u "XAVIER_01/01/1970") attributions_exemple).*1
    ∧ g_date_acquisition_plus_recente groupe_exemple
      ∈ (λ item, a_date_acquisition item.2)
          <$> items_de (u "XAVIER_01/01/1970") attributions_exemple
    ∧ Forall (λ item, str_lt (g_date_acquisition_plus_recente groupe_exemple)
                             (a_date_acquisition item.2) = false)
             (items_de (u "XAVIER_01/01/1970") attributions_exemple).
Proof.
  apply groupe_premier_lot_et_date_maximale. vm_compute. left.
Defined.

(** ** The key of the sort and the calendar *)


Lemma chiffre_dec c : 48 ≤ c ≤ 57 → ∃ x, c = x + 48 ∧ x ≤ 9.
Proof. intros Hc. exists (c - 48). lia. Qed.

(** For two dates written DD/MM/YYYY, the key of the first is below the key
    of the second exactly when the first date is earlier in the calendar. *)
Theorem cle_tri_chronologique (d d' : pystr) :
  date_jjmmaaaa d → date_jjmmaaaa d' →
  str_lt (convertir_date_pour_tri d) (convertir_date_pour_tri d') = true
  ↔ rang_date d < rang_date d'.
Proof.
  intros (j1&j2&m1&m2&a1&a2&a3&a4&->&Hd) (k1&k2&n1&n2&b1&b2&b3&b4&->&Hd').
  rewrite !convertir_date by done.
  repeat (apply Forall_cons in Hd as [? Hd]).
  repeat (apply Forall_cons in Hd' as [? Hd']).
  repeat match goal with
         | Hc : 48 ≤ ?c ≤ 57 |- _ => apply chiffre_dec in Hc as (? & -> & ?)
         end.
  cbn [rang_date nombre foldl str_lt]. rewrite !N.add_sub.
  do 9 compare_tete. split; [done|lia].
Qed.

Lemma cle_tri_chronologique_exemple :
  str_lt (convertir_date_pour_tri (u "20/12/2010")) (convertir_date_pour_tri (u "15/06/2020"))
  = true
  ↔ rang_date (u "20/12/2010") < rang_date (u "15/06/2020").
Proof.
  apply cle_tri_chronologique.
  - exists 50, 48, 49, 50, 50, 48, 49, 48. split; [reflexivity|].
    repeat constructor; vm_compute; discriminate.
  - exists 49, 53, 48, 54, 50, 48, 50, 48. split; [reflexivity|].
    repeat constructor; vm_compute; discriminate.
Defined.

(** ** The order of the mutations of the same date *)

Lemma insert_desc_filter {A} (lt : A → A → bool) (P : A → Prop) `{∀ x, Decision (P x)} x l :
  (∀ y, P x → P y → lt x y = false) →
  filter P (insert_desc lt x l) = filter P (x :: l).
Proof.
  intros Hlt. induction l as [|y l IH]; cbn [insert_desc]; [done|].
  destruct (lt x y) eqn:E; [|done].
  rewrite filter_cons, IH, !filter_cons.
  repeat case_decide; try done. rewrite Hlt in E; done.
Qed.

Lemma sorted_reverse_filter {A} (lt : A → A → bool) (P : A → Prop) `{∀ x, Decision (P x)} l :
  (∀ x y, P x → P y → lt x y = false) →
  filter P (sorted_reverse lt l) = filter P l.
Proof.
  intros Hlt. induction l as [|x l IH]; [done|].
  unfold sorted_reverse in *. cbn [foldr].
  rewrite insert_desc_filter, !filter_cons, IH; [done|]. intros y. apply Hlt.
Qed.

(** The sort of the mutations is stable: the mutations with the same key,
    and so those with the same date of deposit, are processed in the order
    of the document. *)
Theorem mutations_triees_stable (mutations : list mutation) (cle : pystr) :
  filter (λ m, cle_tri m = cle) (mutations_triees mutations)
  = filter (λ m, cle_tri m = cle) mutations.
Proof.
  apply sorted_reverse_filter. intros x y Hx Hy. unfold cle_tri in Hx, Hy.
  rewrite Hx, Hy. apply str_lt_irrefl.
Qed.

(** ** The dates that do not convert *)

(** A date with a slash that does not split into three fields has the
    default key, which is not above the key of any date DD/MM/YYYY. *)
Theorem cle_par_defaut (date_str d : pystr) :
  str_in (u "/") date_str = true →
  length (str_split (u "/") date_str) ≠ 3%nat →
  date_jjmmaaaa d →
  convertir_date_pour_tri date_str = u "0000-00-00"
  ∧ str_lt (convertir_date_pour_tri d) (convertir_date_pour_tri date_str) = false.
Proof.
  intros Hin Hlen (j1&j2&m1&m2&a1&a2&a3&a4&->&Hd).
  assert (Hkey : convertir_date_pour_tri date_str = u "0000-00-00").
  { unfold convertir_date_pour_tri. rewrite Hin.
    destruct (str_split (u "/") date_str) as [|? [|? [|? [|? ?]]]]; done. }
  split; [done|]. rewrite Hkey, convertir_date by done.
  repeat (apply Forall_cons in Hd as [? Hd]).
  change (u "0000-00-00") with [48; 48; 48; 48; 45; 48; 48; 45; 48; 48].
  cbn [str_lt].
  repeat match goal with
         | |- context [?a <? 48] => rewrite (proj2 (N.ltb_ge a 48)) by lia
         end.
  rewrite N.ltb_irrefl. cbn [orb]. by rewrite !andb_false_r.
Qed.

Lemma cle_par_defaut_exemple :
  convertir_date_pour_tri (u "12/2020") = u "0000-00-00"
  ∧ str_lt (convertir_date_pour_tri (u "01/01/2001")) (convertir_date_pour_tri (u "12/2020"))
    = false.
Proof.
  apply cle_par_defaut.
  - vm_compute. reflexivity.
  - vm_compute. discriminate.
  - exists 48, 49, 48, 49, 50, 48, 48, 49. split; [reflexivity|].
    repeat constructor; vm_compute; discriminate.
Defined.

(** ** The formalities and the segments of the text *)

Section Segments.
Context `{Unicode}.

(** Each formality is made from the segment of the text that has its
    number, which is not blank, and its content is the stripped segment
    behind the words put back at its head. *)
Theorem formalite_de_sa_section (full_text : pystr) (f : formalite) :
  f ∈ formalites_of_text full_text →
  ∃ section,
    sections_of full_text !! numero_ordre f = Some section
    ∧ (0 < numero_ordre f)%nat
    ∧ strip section ≠ []
    ∧ formalite_of_section (numero_ordre f) section = Some f
    ∧ contenu f = u "Date de depot: " ++ strip section.
Proof.
  unfold formalites_of_text. intros ([i0 s0] & Hin & Hf)%list_elem_of_omap.
  apply elem_of_lookup_imap in Hin as (i & section & [= -> ->] & Hl).
  cbn [fst snd] in Hf. unfold formalite_of_section in Hf.
  case_bool_decide as Hi; [done|]. cbv zeta in Hf.
  case_bool_decide as Hs; [done|]. injection Hf as <-. cbn [numero_ordre contenu].
  exists section. split_and!; [done|lia|done| |done].
  unfold formalite_of_section. rewrite !bool_decide_eq_false_2 by done. done.
Qed.

Lemma formalites_sans_ancre full_text :
  nombre_ancres full_text = 0%nat → formalites_of_text full_text = [].
Proof.
  intros Hn. apply (fmap_nil_inv numero_ordre). by rewrite numeros_formalites, Hn.
Qed.
End Segments.

Lemma formalite_de_sa_section_exemple :
  ∃ section,
    sections_of (H := latin1) (full_text_of pages_exemple) !! numero_ordre formalite_vente
    = Some section
    ∧ (0 < numero_ordre formalite_vente)%nat
    ∧ strip section ≠ []
    ∧ formalite_of_section (H := latin1) (numero_ordre formalite_vente) section
      = Some formalite_vente
    ∧ contenu formalite_vente = u "Date de depot: " ++ strip section.
Proof.
  apply (formalite_de_sa_section (H := latin1)). vm_compute. left.
Defined.

(** A document whose text has no anchor gives a result where everything is
    empty, and the ownership is not reconstructed. *)
Theorem extraction_sans_ancre (U : Unicode) (o : ordre_ensembles) (doc : document) :
  pages doc ≠ [] →
  nombre_ancres (full_text_of (pages doc)) = 0%nat →
  extraction_complete_ehf o doc
  = Some ({| sf_formalites := [];
             sf_hypotheques_actives := [];
             sf_mutations := [];
             sf_statistiques :=
               {| nombre_total_formalites := 0;
                  nombre_hypotheques_actives := 0;
                  nombre_mutations := 0;
                  comptage_par_type := [];
                  date_extraction := u "2024-10-30";
                  fichier_source := pdf_name doc;
                  propriete_reconstituee := false |};
             sf_propriete_actuelle := [] |},
          extract_tableau_derniere_page (length (pages doc)) (tables_derniere_page doc)).
Proof.
  intros Hp Hn. unfold extraction_complete_ehf, extract_formalites_from_pdf.
  destruct (pages doc) as [|p ps] eqn:E; [done|].
  rewrite (formalites_sans_ancre _ Hn). reflexivity.
Qed.

Lemma extraction_sans_ancre_exemple :
  extraction_complete_ehf (H := latin1) ordre_canonique document_sans_formalite
  = Some ({| sf_formalites := [];
             sf_hypotheques_actives := [];
             sf_mutations := [];
             sf_statistiques :=
               {| nombre_total_formalites := 0;
                  nombre_hypotheques_actives := 0;
                  nombre_mutations := 0;
                  comptage_par_type := [];
                  date_extraction := u "2024-10-30";
                  fichier_source := pdf_name document_sans_formalite;
                  propriete_reconstituee := false |};
             sf_propriete_actuelle := [] |},
          extract_tableau_derniere_page (H := latin1)
            (length (pages document_sans_formalite))
            (tables_derniere_page document_sans_formalite)).
Proof.
  apply (extraction_sans_ancre latin1 ordre_canonique document_sans_formalite).
  - discriminate.
  - vm_compute. reflexivity.
Defined.

(** ** The total of the count *)

Lemma length_omap_le {A B} (f : A → option B) l : (length (omap f l) ≤ length l)%nat.
Proof. induction l as [|x l IH]; cbn; [done|]. destruct (f x); cbn; lia. Qed.

Lemma sum_indicatrice (x : pystr) ks :
  NoDup ks → x ∈ ks →
  sum_list_with (λ t, if decide (x = t) then 1 else 0)%nat ks = 1%nat.
Proof.
  induction 1 as [|k ks Hk _ IH]; [by intros ?%elem_of_nil|].
  cbn [sum_list_with]. intros [->|Hin]%elem_of_cons.
  - rewrite decide_True by done.
    assert (Hz : sum_list_with (λ t, if decide (k = t) then 1 else 0)%nat ks = 0%nat).
    { clear IH. induction ks as [|y ks IH]; [done|]. cbn [sum_list_with].
      rewrite decide_False by (intros ->; apply Hk; left).
      rewrite IH; [done|]. intros ?. apply Hk. by right. }
    by rewrite Hz.
  - rewrite decide_False by (by intros ->). by rewrite IH.
Qed.

Lemma sum_occurrences_cons (x : pystr) l ks :
  sum_list_with (λ t, occurrences t (x :: l)) ks
  = (sum_list_with (λ t, if decide (x = t) then 1 else 0) ks
     + sum_list_with (λ t, occurrences t l) ks)%nat.
Proof.
  induction ks as [|k ks IH]; [done|]. cbn [sum_list_with]. rewrite IH.
  unfold occurrences. rewrite filter_cons. case_decide; cbn [length]; lia.
Qed.

Lemma sum_occurrences l : ∀ ks,
  NoDup ks → (∀ x, x ∈ l → x ∈ ks) →
  sum_list_with (λ t, occurrences t l) ks = length l.
Proof.
  induction l as [|x l IH]; intros ks Hnd Hin.
  - clear Hnd Hin. induction ks as [|k ks IHks]; [done|].
    cbn [sum_list_with length]. by rewrite IHks.
  - rewrite sum_occurrences_cons, sum_indicatrice, IH; [done|done| |done|].
    + intros y Hy. apply Hin. by right.
    + apply Hin. left.
Qed.

Section Total.
Context `{Unicode}.

(** The counts add up to the number of the formalities whose act text is
    neither blank nor the not-found value, which is at most the number of
    the formalities. *)
Theorem comptage_total (formalites : list formalite) :
  sum_list_with snd (comptage_trie formalites) = length (types_comptes formalites)
  ∧ (length (types_comptes formalites) ≤ length formalites)%nat.
Proof.
  split; [|apply length_omap_le].
  unfold comptage_trie. rewrite (sorted_reverse_perm snd), comptage_types_premier_vu.
  rewrite <-(sum_occurrences (types_comptes formalites)
               (sans_doublons (types_comptes formalites))).
  - induction (sans_doublons (types_comptes formalites)) as [|t ks IH]; [done|].
    cbn. by rewrite IH.
  - apply NoDup_sans_doublons.
  - intros x Hx. by apply elem_of_sans_doublons.
Qed.
End Total.

(** ** The lists of the mortgages and of the mutations *)

Lemma NoDup_fmap_inj {A B} (f : A → B) l x y :
  NoDup (f <$> l) → x ∈ l → y ∈ l → f x = f y → x = y.
Proof.
  intros Hnd (i & Hi)%list_elem_of_lookup (j & Hj)%list_elem_of_lookup Hf.
  assert (i = j) as ->; [|congruence].
  eapply NoDup_lookup; [exact Hnd| |]; rewrite list_lookup_fmap.
  - by rewrite Hi.
  - rewrite Hj. cbn. by rewrite Hf.
Qed.

Section Listes.
Context `{Unicode}.

Lemma NoDup_numeros full_text : NoDup (numero_ordre <$> formalites_of_text full_text).
Proof. rewrite numeros_formalites. apply NoDup_filter, NoDup_seq. Qed.

(** The active mortgages come in the order of the formalities, each
    formality at most once, and a total cancellation is never one of
    them. *)
Theorem hypotheques_actives_sous_liste (formalites : list formalite) :
  ha_numero_ordre <$> analyser_hypotheques_actives formalites
    `sublist_of` numero_ordre <$> formalites
  ∧ (length (analyser_hypotheques_actives formalites) ≤ length formalites)%nat
  ∧ Forall (λ f, est_radiation f = true →
                 hypotheque_active_de f ∉ analyser_hypotheques_actives formalites)
           formalites.
Proof.
  assert (Hsub : filter (λ h, est_radiee (radiations formalites) h = false)
                        (hypotheques formalites) `sublist_of` formalites).
  { etrans; [apply sublist_filter|]. apply sublist_filter. }
  unfold analyser_hypotheques_actives. split_and!.
  - rewrite <-list_fmap_compose.
    change (ha_numero_ordre ∘ hypotheque_active_de) with numero_ordre. by f_equiv.
  - rewrite length_fmap. by apply sublist_length.
  - apply Forall_forall. intros f _ Hrad (h & Heq & Hh)%list_elem_of_fmap.
    apply hypotheque_active_de_inj in Heq as <-.
    apply list_elem_of_filter in Hh as [_ Hh]. unfold hypotheques in Hh.
    apply list_elem_of_filter in Hh as [[Hh _] _]. congruence.
Qed.

Lemma sublist_omap_fmap {A B C} (f : A → option B) (g : B → C) (h : A → C) l :
  (∀ x y, f x = Some y → g y = h x) → g <$> omap f l `sublist_of` h <$> l.
Proof.
  intros Hf. induction l as [|x l IH]; cbn; [constructor|].
  destruct (f x) as [y|] eqn:E; cbn.
  - rewrite (Hf x y E). by constructor.
  - by constructor.
Qed.

(** The mutations come in the order of the formalities; each is made from
    a formality whose act text, in upper case, names neither a mortgage nor
    a cancellation, and in whose content a disposing party, a beneficiary or
    a building was found. *)
Theorem mutations_hors_hypotheques (formalites : list formalite) :
  mu_numero_ordre <$> analyser_mutations formalites `sublist_of` numero_ordre <$> formalites
  ∧ Forall (λ m, ∃ f,
              f ∈ formalites
              ∧ mutation_de f = Some m
              ∧ str_in (u "HYPOTHEQUE") (upper (nature_acte_redacteur f)) = false
              ∧ str_in (u "RADIATION") (upper (nature_acte_redacteur f)) = false
              ∧ extraire_mutations (contenu f) = Some (mu_mutations m)
              ∧ (md_disposant_donateur (mu_mutations m) ≠ []
                 ∨ md_beneficiaire_donataire (mu_mutations m) ≠ []
                 ∨ md_immeubles (mu_mutations m) ≠ None)
              ∧ mu_numero_ordre m = numero_ordre f
              ∧ mu_date_depot m = date_depot f
              ∧ mu_nature_acte m = nature_acte_redacteur f)
           (analyser_mutations formalites).
Proof.
  unfold analyser_mutations. split.
  - apply sublist_omap_fmap. intros f m. unfold mutation_de.
    destruct (hors_hypotheque f); [|done].
    destruct (extraire_mutations _) as [d|]; [|done].
    destruct (mutations_trouvees d); [|done]. by intros [= <-].
  - apply Forall_forall. intros m (f & Hf & Hm)%list_elem_of_omap.
    exists f. split; [done|]. split; [done|]. unfold mutation_de in Hm.
    destruct (hors_hypotheque f) eqn:Hh; [|done].
    destruct (extraire_mutations _) as [d|] eqn:Hd; [|done].
    destruct (mutations_trouvees d) eqn:Ht; [|done]. injection Hm as <-.
    cbn [mu_mutations mu_numero_ordre mu_date_depot mu_nature_acte].
    unfold hors_hypotheque in Hh. cbv zeta in Hh.
    apply andb_true_iff in Hh as [Hh1%negb_true_iff Hh2%negb_true_iff].
    split_and!; [done..| |done|done|done].
    unfold mutations_trouvees in Ht.
    apply orb_true_iff in Ht as [Ht|Ht%bool_decide_eq_true];
      [apply orb_true_iff in Ht as [Ht%bool_decide_eq_true|Ht%bool_decide_eq_true]|];
      eauto.
Qed.

(** In the result of the extraction of a text, a formality that is both
    an active mortgage and a mutation was taken for a mortgage by the
    implicit criterion alone. *)
Theorem double_classement_implicite (full_text : pystr)
    (a : hypotheque_active) (m : mutation) :
  a ∈ analyser_hypotheques_actives (formalites_of_text full_text) →
  m ∈ analyser_mutations (formalites_of_text full_text) →
  ha_numero_ordre a = mu_numero_ordre m →
  ∃ f, f ∈ formalites_of_text full_text
       ∧ a = hypotheque_active_de f
       ∧ mutation_de f = Some m
       ∧ est_hypotheque_explicite f = false
       ∧ est_hypotheque_implicite f = true.
Proof.
  intros (h & -> & Hh)%list_elem_of_fmap (f & Hf & Hm)%list_elem_of_omap Hnum.
  apply list_elem_of_filter in Hh as [_ Hh]. unfold hypotheques in Hh.
  apply list_elem_of_filter in Hh as [[_ Hcrit] Hh].
  assert (Hnf : mu_numero_ordre m = numero_ordre f).
  { unfold mutation_de in Hm. destruct (hors_hypotheque f); [|done].
    destruct (extraire_mutations _) as [d|]; [|done].
    destruct (mutations_trouvees d); [|done]. by injection Hm as <-. }
  assert (h = f) as ->.
  { eapply (NoDup_fmap_inj numero_ordre); [apply NoDup_numeros|done|done|].
    cbn in Hnum. congruence. }
  exists f. split_and!; [done..| |].
  - unfold mutation_de in Hm. destruct (hors_hypotheque f) eqn:Hhors; [|done].
    unfold hors_hypotheque in Hhors. cbv zeta in Hhors.
    apply andb_true_iff in Hhors as [Hh1%negb_true_iff _]. done.
  - unfold mutation_de in Hm. destruct (hors_hypotheque f) eqn:Hhors; [|done].
    unfold hors_hypotheque in Hhors. cbv zeta in Hhors.
    apply andb_true_iff in Hhors as [Hh1%negb_true_iff _].
    unfold est_hypotheque_explicite in Hcrit. rewrite Hh1 in Hcrit. done.
Qed.
End Listes.

Lemma double_classement_implicite_exemple :
  ∃ f, f ∈ formalites_of_text (H := latin1) (full_text_of [page_pret])
       ∧ hypotheque_active_de (H := latin1) formalite_pret
         = hypotheque_active_de (H := latin1) f
       ∧ mutation_de (H := latin1) f = Some mutation_pret
       ∧ est_hypotheque_explicite (H := latin1) f = false
       ∧ est_hypotheque_implicite (H := latin1) f = true.
Proof.
  apply (double_classement_implicite (H := latin1)).
  - vm_compute. left.
  - vm_compute. left.
  - reflexivity.
Defined.

(** ** The buildings of a mutation and the lots of a mortgage *)

Lemma elem_of_flat_map {A B} (f : A → list B) l y :
  y ∈ flat_map f l ↔ ∃ x, x ∈ l ∧ y ∈ f x.
Proof.
  rewrite list_elem_of_In, in_flat_map. split; intros (x & Hx & Hy); exists x;
    by rewrite ?list_elem_of_In in *.
Qed.

Section Immeubles.
Context `{Unicode}.

Lemma lignes_immeubles_volume immeubles_text patterns :
  Forall (λ ligne, li_volume ligne = []) (lignes_immeubles immeubles_text patterns).
Proof.
  induction patterns as [|p patterns IH]; cbn [lignes_immeubles]; [constructor|].
  destruct (ligne_immeuble_de immeubles_text <$> re_finditer M_ p immeubles_text)
    as [|l ls] eqn:E; [done|].
  rewrite <-E. apply Forall_fmap, Forall_forall. done.
Qed.

(** The buildings of a mutation, when the table was read: there is at
    least one line; the beneficiary, the rights, the commune and the
    designation are those of the first line; the lots are those of all the
    lines, each once; no volume is ever read. *)
Theorem immeubles_de_la_premiere_ligne (contenu : pystr)
    (d : mutations_data) (im : immeubles_mutation) :
  extraire_mutations contenu = Some d →
  md_immeubles d = Some im →
  ∃ premiere_ligne suite,
    im_lignes_detaillees im = premiere_ligne :: suite
    ∧ im_beneficiaire_numero im = li_beneficiaire_numero premiere_ligne
    ∧ im_droits im = li_droits premiere_ligne
    ∧ im_commune im = li_commune premiere_ligne
    ∧ im_designation_cadastrale im = li_designation_cadastrale premiere_ligne
    ∧ NoDup (im_lots im)
    ∧ (∀ lot, lot ∈ im_lots im
              ↔ ∃ ligne, ligne ∈ im_lignes_detaillees im ∧ lot ∈ li_lots ligne)
    ∧ im_volume im = []
    ∧ Forall (λ ligne, li_volume ligne = []) (im_lignes_detaillees im).
Proof.
  unfold extraire_mutations. case_bool_decide; [done|]. intros [= <-].
  cbn [md_immeubles]. unfold extraire_immeubles. cbv zeta.
  case_bool_decide; [done|].
  pose proof (lignes_immeubles_volume
                match first_some (λ pattern, re_search IS_ pattern contenu) immeubles_patterns
                with
                | Some m => strip (group' contenu m 1)
                | None => []
                end ligne_patterns) as Hvol.
  destruct (lignes_immeubles _ _) as [|premiere_ligne suite]; [done|].
  intros [= <-]. exists premiere_ligne, suite.
  cbn [im_lignes_detaillees im_beneficiaire_numero im_droits im_commune
       im_designation_cadastrale im_lots im_volume].
  split_and!; [done..|apply NoDup_sans_doublons| |done|done].
  intros lot. rewrite elem_of_sans_doublons.
  apply (elem_of_flat_map li_lots (premiere_ligne :: suite)).
Qed.

(** The lots of a mortgage are written with digits only and each of them
    is listed once. *)
Theorem lots_hypotheque_chiffres_distincts (contenu : pystr) :
  NoDup (lv_lots (extraire_lots_volumes_hypotheque contenu))
  ∧ Forall (λ lot, isdigit lot = true) (lv_lots (extraire_lots_volumes_hypotheque contenu)).
Proof.
  unfold extraire_lots_volumes_hypotheque. case_bool_decide.
  { cbn [lv_lots]. split; constructor. }
  destruct (match re_search IS_ _ contenu with Some _ => _ | None => _ end)
    as [[[lots volume] commune] designation].
  cbn [lv_lots]. split; [apply NoDup_sans_doublons|].
  apply Forall_forall. intros lot Hlot.
  apply (proj1 (elem_of_sans_doublons _ _)) in Hlot.
  apply list_elem_of_fmap in Hlot as (x & -> & Hx).
  by apply list_elem_of_filter in Hx as [Hx _].
Qed.
End Immeubles.

Lemma immeubles_de_la_premiere_ligne_exemple :
  ∃ premiere_ligne suite,
    im_lignes_detaillees immeubles_vente = premiere_ligne :: suite
    ∧ im_beneficiaire_numero immeubles_vente = li_beneficiaire_numero premiere_ligne
    ∧ im_droits immeubles_vente = li_droits premiere_ligne
    ∧ im_commune immeubles_vente = li_commune premiere_ligne
    ∧ im_designation_cadastrale immeubles_vente = li_designation_cadastrale premiere_ligne
    ∧ NoDup (im_lots immeubles_vente)
    ∧ (∀ lot, lot ∈ im_lots immeubles_vente
              ↔ ∃ ligne, ligne ∈ im_lignes_detaillees immeubles_vente ∧ lot ∈ li_lots ligne)
    ∧ im_volume immeubles_vente = []
    ∧ Forall (λ ligne, li_volume ligne = []) (im_lignes_detaillees immeubles_vente).
Proof.
  apply (immeubles_de_la_premiere_ligne (H := latin1) contenu_vente mutations_vente).
  - vm_compute. reflexivity.
  - reflexivity.
Defined.

(** ** The header of the table *)

Section Entetes.
Context `{Unicode}.

Lemma immeubles_de_table_sans_entete page_num table :
  Forall (λ row, est_entete row = false) table → immeubles_de_table page_num table = [].
Proof.
  induction 1 as [|row table Hrow _ IH]; cbn [immeubles_de_table]; [done|].
  by rewrite Hrow, andb_false_r, IH.
Qed.

Lemma immeubles_de_table_avant page_num avant table :
  Forall (λ row, est_entete row = false) avant →
  immeubles_de_table page_num (avant ++ table) = immeubles_de_table page_num table.
Proof.
  induction 1 as [|row avant Hrow _ IH]; cbn [immeubles_de_table app]; [done|].
  by rewrite Hrow, andb_false_r, IH.
Qed.

Lemma est_entete_non_vide row : est_entete row = true → row ≠ [].
Proof. intros Hrow ->. vm_compute in Hrow. done. Qed.

Lemma immeubles_de_table_entete page_num entete suite :
  est_entete entete = true →
  immeubles_de_table page_num (entete :: suite)
  = omap (immeuble_de page_num) suite ++ immeubles_de_table page_num suite.
Proof.
  intros He. cbn [immeubles_de_table].
  by rewrite He, bool_decide_eq_true_2 by (by apply est_entete_non_vide).
Qed.

(** A table in which no row has one of the words of the header gives no
    building, whatever its rows. *)
Theorem table_sans_entete (total_pages : nat) (table : list rangee) :
  Forall (λ row, est_entete row = false) table →
  extract_tableau_derniere_page total_pages [table] = [].
Proof.
  intros Ht. unfold extract_tableau_derniere_page. cbn [flat_map].
  by rewrite immeubles_de_table_sans_entete, app_nil_r.
Qed.

(** With one header row, the rows before it are left out and each row
    after it gives at most one building, in the order of the table. *)
Theorem table_un_entete (total_pages : nat) (avant : list rangee) (entete : rangee)
    (suite : list rangee) :
  Forall (λ row, est_entete row = false) avant →
  est_entete entete = true →
  Forall (λ row, est_entete row = false) suite →
  extract_tableau_derniere_page total_pages [avant ++ entete :: suite]
  = omap (immeuble_de total_pages) suite.
Proof.
  intros Ha He Hs. unfold extract_tableau_derniere_page. cbn [flat_map].
  rewrite immeubles_de_table_avant, immeubles_de_table_entete by done.
  by rewrite immeubles_de_table_sans_entete, !app_nil_r.
Qed.

(** With a second header row further down, that row is read as a row of
    data of the first header, and the rows after it are read twice. *)
Theorem table_deux_entetes_doublons (total_pages : nat) (entete1 entete2 : rangee)
    (milieu suite : list rangee) :
  est_entete entete1 = true →
  Forall (λ row, est_entete row = false) milieu →
  est_entete entete2 = true →
  Forall (λ row, est_entete row = false) suite →
  extract_tableau_derniere_page total_pages [entete1 :: milieu ++ entete2 :: suite]
  = omap (immeuble_de total_pages) milieu
    ++ omap (immeuble_de total_pages) [entete2]
    ++ omap (immeuble_de total_pages) suite
    ++ omap (immeuble_de total_pages) suite.
Proof.
  intros H1 Hm H2 Hs. unfold extract_tableau_derniere_page. cbn [flat_map].
  rewrite immeubles_de_table_entete, immeubles_de_table_avant by done.
  rewrite immeubles_de_table_entete, immeubles_de_table_sans_entete by done.
  rewrite !app_nil_r, omap_app. change (entete2 :: suite) with ([entete2] ++ suite).
  by rewrite omap_app, <-!(assoc_L (++)).
Qed.
End Entetes.

Lemma table_sans_entete_exemple :
  extract_tableau_derniere_page (H := latin1) 3
    [[ [Some (u "75"); Some (u "PARIS 15"); Some (u "CJ 42"); None; Some (u "9")] ]] = [].
Proof. apply (table_sans_entete (H := latin1)). repeat constructor. Defined.

Lemma table_un_entete_exemple :
  extract_tableau_derniere_page (H := latin1) 3
    [ [ [Some (u "Relevé")] ] ++
      [Some (u "Code"); Some (u "Commune"); Some (u "Lot")]
      :: [ [Some (u "75"); Some (u "PARIS 15"); Some (u "CJ 42"); None; Some (u "9")] ] ]
  = omap (immeuble_de (H := latin1) 3)
      [ [Some (u "75"); Some (u "PARIS 15"); Some (u "CJ 42"); None; Some (u "9")] ].
Proof. apply (table_un_entete (H := latin1)); repeat constructor. Defined.

Lemma table_deux_entetes_doublons_exemple :
  extract_tableau_derniere_page (H := latin1) 3
    [ [Some (u "Code"); Some (u "Commune"); Some (u "Lot")]
      :: [ [Some (u "75"); Some (u "PARIS 15"); Some (u "CJ 42"); None; Some (u "9")] ]
      ++ [Some (u "Code"); Some (u "Commune"); Some (u "Lot")]
      :: [ [Some (u "92"); Some (u "VANVES"); Some (u "O 32"); None; Some (u "4")] ] ]
  = omap (immeuble_de (H := latin1) 3)
      [ [Some (u "75"); Some (u "PARIS 15"); Some (u "CJ 42"); None; Some (u "9")] ]
    ++ omap (immeuble_de (H := latin1) 3)
         [ [Some (u "Code"); Some (u "Commune"); Some (u "Lot")] ]
    ++ omap (immeuble_de (H := latin1) 3)
         [ [Some (u "92"); Some (u "VANVES"); Some (u "O 32"); None; Some (u "4")] ]
    ++ omap (immeuble_de (H := latin1) 3)
         [ [Some (u "92"); Some (u "VANVES"); Some (u "O 32"); None; Some (u "4")] ].
Proof. apply (table_deux_entetes_doublons (H := latin1)); repeat constructor. Defined.

(** ** The buildings read from the table *)

Lemma strip_last s c r : strip s = r ++ [c] → is_space c = false.
Proof.
  unfold strip, rstrip. intros Hs. apply (f_equal reverse) in Hs.
  rewrite reverse_involutive, reverse_app in Hs. by apply lstrip_head in Hs.
Qed.

Lemma strip_sans_blanc s : sans_blanc_au_bord (strip s).
Proof. split; intros c r Hs; [by eapply strip_head|by eapply strip_last]. Qed.

Lemma colonne_sans_blanc data_row k : sans_blanc_au_bord (colonne data_row k).
Proof.
  unfold colonne. destruct (data_row !! k) as [[[|c s]|]|]; try apply strip_sans_blanc;
    (split; intros c' r Hs; [done|by destruct r]).
Qed.

Lemma lignes_non_vides_nettes s :
  Forall (λ x, x ≠ [] ∧ sans_blanc_au_bord x) (lignes_non_vides s).
Proof.
  unfold lignes_non_vides. apply Forall_forall.
  intros x [Hx (y & -> & _)%list_elem_of_fmap]%list_elem_of_filter.
  split; [done|apply strip_sans_blanc].
Qed.

Lemma digits_of_acc fuel : ∀ n acc, ∃ p, digits_of fuel n acc = p ++ acc.
Proof.
  induction fuel as [|fuel IH]; intros n acc; cbn [digits_of]; [by exists []|].
  destruct (n <? 10).
  - by exists [48 + n mod 10].
  - destruct (IH (n / 10) ((48 + n mod 10) :: acc)) as [p ->].
    exists (p ++ [48 + n mod 10]). by rewrite <-(assoc_L (++)).
Qed.

Lemma str_of_Z_non_vide z : str_of_Z z ≠ [].
Proof.
  unfold str_of_Z. cbv zeta. destruct (z <? 0)%Z; [done|].
  cbn [digits_of]. destruct (_ <? 10); [done|].
  destruct (digits_of_acc (N.to_nat (N.log2 (Z.abs_N z))) (Z.abs_N z / 10)
              [48 + Z.abs_N z mod 10]) as [p ->].
  by destruct p.
Qed.

Section Immeubles.
Context `{Unicode}.

Lemma traiter_volume_part_non_vide volume_part :
  volume_part ≠ [] → Forall (λ x, x ≠ []) (traiter_volume_part volume_part).
Proof.
  intros Hv. unfold traiter_volume_part.
  destruct (str_in _ _); [|by repeat constructor].
  destruct (str_split _ _) as [|a [|b [|? ?]]]; try by repeat constructor.
  destruct (py_int (strip a)), (py_int (strip b)); try by repeat constructor.
  apply Forall_fmap, Forall_forall. intros k _. apply str_of_Z_non_vide.
Qed.

Lemma elem_of_immeubles_de_table page_num table im :
  im ∈ immeubles_de_table page_num table →
  ∃ data_row, data_row ∈ table ∧ immeuble_de page_num data_row = Some im.
Proof.
  induction table as [|row table IH]; cbn [immeubles_de_table]; [by intros ?%elem_of_nil|].
  intros [Hin|Hin]%elem_of_app.
  - destruct (_ && _); [|by apply elem_of_nil in Hin].
    apply list_elem_of_omap in Hin as (data_row & Hd & Him).
    exists data_row. split; [by right|done].
  - destruct (IH Hin) as (data_row & Hd & Him). exists data_row. split; [by right|done].
Qed.

(** Every building read from the last page has the number of that page,
    a code or a commune, texts without white space at their ends, and lists
    of lots and of volumes without empty entry. *)
Theorem immeubles_extraits_bien_formes (total_pages : nat) (tables : list (list rangee)) :
  Forall (λ im,
            i_page im = total_pages
            ∧ (i_code im ≠ [] ∨ i_commune im ≠ [])
            ∧ sans_blanc_au_bord (i_code im)
            ∧ sans_blanc_au_bord (i_commune im)
            ∧ sans_blanc_au_bord (i_designation_cadastrale im)
            ∧ (∀ lots, i_lot im = Liste lots →
                 Forall (λ lot, lot ≠ [] ∧ sans_blanc_au_bord lot) lots)
            ∧ (∀ volumes, i_volume im = Liste volumes → Forall (λ v, v ≠ []) volumes))
         (extract_tableau_derniere_page total_pages tables).
Proof.
  apply Forall_forall. intros im Him. unfold extract_tableau_derniere_page in Him.
  apply elem_of_flat_map in Him as (table & _ & Him).
  apply elem_of_immeubles_de_table in Him as (data_row & _ & Him).
  unfold immeuble_de in Him. destruct (_ || _); [done|]. cbv zeta in Him.
  destruct (bool_decide (colonne data_row 0 ≠ []) || bool_decide (colonne data_row 1 ≠ []))
    eqn:Hcle; [|done].
  injection Him as <-. cbn [i_page i_code i_commune i_designation_cadastrale i_lot i_volume].
  split_and!; [done| |apply colonne_sans_blanc..| |].
  - apply orb_true_iff in Hcle as [?%bool_decide_eq_true|?%bool_decide_eq_true];
      [by left|by right].
  - intros lots. unfold traiter_lot. destruct (_ && _); [|done].
    intros [= <-]. apply lignes_non_vides_nettes.
  - intros volumes. unfold traiter_volume. destruct (_ && _); [|done].
    intros [= <-]. apply Forall_forall. intros v (part & Hp & Hv)%elem_of_flat_map.
    pose proof (lignes_non_vides_nettes (colonne data_row 3)) as Hl.
    eapply Forall_forall in Hl as [Hne _]; [|exact Hp].
    pose proof (traiter_volume_part_non_vide part Hne) as Hf.
    by eapply Forall_forall in Hf.
Qed.

(** ** The ranges of volumes *)

(** A range whose bounds [int] reads, each of at most 4300 digits, gives
    as many volumes as there are integers from its first bound to its last:
    none at all when the bounds are inverted, so that the line disappears
    from the list. *)
Theorem plage_longueur (a b : pystr) (start end_ : Z) :
  Forall (λ c, c ≠ 224) a → Forall (λ c, c ≠ 224) b →
  py_int (strip a) = Some start → py_int (strip b) = Some end_ →
  length (traiter_volume_part (a ++ u " à " ++ b)) = Z.to_nat (end_ + 1 - start)
  ∧ ((end_ < start)%Z → traiter_volume_part (a ++ u " à " ++ b) = []).
Proof.
  intros Ha Hb Hs He. rewrite (traiter_volume_part_plage a b start end_) by done.
  split.
  - by rewrite length_fmap, length_range_incl.
  - intros Hlt. unfold range_incl. by replace (Z.to_nat (end_ + 1 - start)) with 0%nat by lia.
Qed.

(** A line with the separator of a range whose bounds are not both
    integers is kept as it is. *)
Theorem plage_non_entiere (a b : pystr) :
  Forall (λ c, c ≠ 224) a → Forall (λ c, c ≠ 224) b →
  py_int (strip a) = None ∨ py_int (strip b) = None →
  traiter_volume_part (a ++ u " à " ++ b) = [a ++ u " à " ++ b].
Proof.
  intros Ha Hb Hint. unfold traiter_volume_part.
  rewrite str_in_middle, str_split_plage by done.
  destruct Hint as [->| ->]; [done|]. by destruct (py_int (strip a)).
Qed.
End Immeubles.

Lemma plage_longueur_exemple :
  length (traiter_volume_part (H := latin1) (u "72" ++ u " à " ++ u "71"))
  = Z.to_nat (71 + 1 - 72)
  ∧ ((71 < 72)%Z → traiter_volume_part (H := latin1) (u "72" ++ u " à " ++ u "71") = []).
Proof.
  apply (plage_longueur (H := latin1)).
  - repeat constructor; discriminate.
  - repeat constructor; discriminate.
  - vm_compute. reflexivity.
  - vm_compute. reflexivity.
Defined.

Lemma plage_non_entiere_exemple :
  traiter_volume_part (H := latin1) (u "A" ++ u " à " ++ u "12")
  = [u "A" ++ u " à " ++ u "12"].
Proof.
  apply (plage_non_entiere (H := latin1)).
  - repeat constructor; discriminate.
  - repeat constructor; discriminate.
  - left. vm_compute. reflexivity.
Defined.

(** ** The name of the uploaded file *)

Lemma split_once_go_char sep a rest : ∀ cur,
  sep ∉ a → split_once_go [sep] cur (a ++ sep :: rest) = [reverse cur ++ a; rest].
Proof.
  induction a as [|c a IH]; intros cur Ha; cbn [app split_once_go starts_with length drop].
  - rewrite N.eqb_refl. cbn [andb]. by rewrite app_nil_r.
  - apply not_elem_of_cons in Ha as [Hc Ha].
    apply N.eqb_neq in Hc as ->. cbn [andb]. rewrite IH by done.
    by rewrite reverse_cons, <-(assoc_L (++)).
Qed.

Lemma str_rsplit_once_char sep avant apres :
  sep ∉ apres → str_rsplit_once [sep] (avant ++ sep :: apres) = [avant; apres].
Proof.
  intros Ha. unfold str_rsplit_once, str_split_once.
  change (reverse [sep]) with [sep].
  rewrite reverse_app, reverse_cons, <-(assoc_L (++)). cbn [app].
  assert (Hr : sep ∉ reverse apres) by (intros Hin; apply Ha; by apply elem_of_reverse).
  rewrite (split_once_go_char sep (reverse apres) (reverse avant) [] Hr).
  rewrite reverse_nil. cbn [app]. by rewrite !reverse_involutive.
Qed.

Lemma str_in_char_elem sep s : str_in [sep] s = true ↔ sep ∈ s.
Proof.
  split.
  - induction s as [|c s IH]; cbn [str_in starts_with]; [done|].
    intros [Hc|Hs]%orb_true_iff.
    + apply andb_true_iff in Hc as [->%N.eqb_eq _]. left.
    + right. by apply IH.
  - intros (a & rest & ->)%list_elem_of_split. apply str_in_char.
Qed.

Section Televersement.
Context `{Minuscules}.

(** A file name is accepted exactly when, in lower case, the text after
    its last dot is the extension pdf; what comes before that dot plays no
    part. *)
Theorem allowed_file_derniere_extension (filename : pystr) :
  allowed_file filename = true
  ↔ ∃ stem extension,
      filename = stem ++ u "." ++ extension
      ∧ (46 ∉ extension)
      ∧ py_lower extension = u "pdf".
Proof.
  unfold allowed_file. change (u ".") with [46]. split.
  - intros [Hin Hext]%andb_true_iff.
    apply str_in_char_elem, list_elem_of_split_r in Hin as (stem & extension & -> & Hlast).
    rewrite str_rsplit_once_char in Hext by done. cbn [lookup list_lookup] in Hext.
    apply bool_decide_eq_true in Hext. exists stem, extension.
    split_and!; [done|done|]. unfold ALLOWED_EXTENSIONS in Hext. set_solver.
  - intros (stem & extension & -> & Hlast & Hext). cbn [app].
    rewrite str_in_char, str_rsplit_once_char by done. cbn [lookup list_lookup andb].
    apply bool_decide_eq_true. rewrite Hext. unfold ALLOWED_EXTENSIONS. set_solver.
Qed.

End Televersement.

(** The stem may be anything, a path or another extension, and may be
    empty; a name without dot is refused. *)
Lemma allowed_file_exemples :
  allowed_file (H := latin1_minuscules) (u "../rapport.exe.PDF") = true
  ∧ allowed_file (H := latin1_minuscules) (u "rapport.pdf.exe") = false
  ∧ allowed_file (H := latin1_minuscules) (u "pdf") = false
  ∧ allowed_file (H := latin1_minuscules) (u ".pdf") = true.
Proof. vm_compute. done. Qed.

(** ** The date of deposit of a formality *)

Section DateDepot.
Context `{Unicode}.

Lemma compile_date :
  re_compile NOFLAG (u "(\d{2}/\d{2}/\d{4})")
  = Some (Group 1
            (Seq (rep 2 (Chr is_decimal))
               (Seq (Chr (N.eqb 47))
                  (Seq (rep 2 (Chr is_decimal))
                     (Seq (Chr (N.eqb 47)) (rep 4 (Chr is_decimal))))))).
Proof. lazy -[is_decimal]. reflexivity. Qed.

Ltac un_caractere p :=
  match goal with
  | |- context [match ?rest with [] => None | _ :: _ => _ end] =>
    destruct rest as [|p rest]; cbv beta iota; [done|]
  end;
  match goal with
  | |- context [if is_decimal p then _ else _] =>
    destruct (is_decimal p) eqn:?; cbv beta iota; [|done]
  | |- context [if 47 =? p then _ else _] =>
    destruct (N.eqb_spec 47 p) as [<-|?]; cbv beta iota; [|done]
  end.

Lemma is_decimal_spec c : is_decimal c = true → uc_decimal c ≠ None.
Proof. unfold is_decimal. by destruct (uc_decimal c). Qed.

Lemma recherche_date contenu m :
  re_search NOFLAG (u "(\d{2}/\d{2}/\d{4})") contenu = Some m →
  ∃ avant apres,
    contenu = avant ++ group' contenu m 1 ++ apres
    ∧ date_chiffres (group' contenu m 1).
Proof.
  unfold re_search. rewrite compile_date. cbn [mbind option_bind].
  intros (skipped & rest & -> & Hm)%search_go_spec.
  rewrite app_nil_r in Hm. unfold match_at in Hm. cbn [rx rep] in Hm. revert Hm.
  un_caractere j1. un_caractere j2. un_caractere s1.
  un_caractere m1. un_caractere m2. un_caractere s2.
  un_caractere a1. un_caractere a2. un_caractere a3. un_caractere a4.
  intros [= <-].
  match goal with
  | |- context [group' ?s ?m 1] =>
    assert (Hg : group' s m 1 = [j1; j2; 47; m1; m2; 47; a1; a2; a3; a4])
  end.
  { unfold group', group. cbn [m_caps list_find fst snd decide_rel]. rewrite decide_True by done.
    cbn [fmap option_fmap option_map default from_option id length].
    rewrite length_reverse.
    replace (S (S (S (S (S (S (S (S (S (S (length skipped)))))))))) - length skipped)%nat
      with 10%nat by lia.
    by rewrite drop_app_length. }
  rewrite Hg. exists skipped, rest. split; [done|].
  exists j1, j2, m1, m2, a1, a2, a3, a4. split; [done|].
  repeat (constructor; [by apply is_decimal_spec|]). constructor.
Qed.
End DateDepot.

Section DateDepotFormalite.
Context `{Unicode}.

(** The date of deposit of a formality is the not-found value, or a text
    DD/MM/YYYY of decimal digits that is read in its content. *)
Theorem date_depot_forme (full_text : pystr) (f : formalite) :
  f ∈ formalites_of_text full_text →
  date_depot f = NON_TROUVE
  ∨ (date_chiffres (date_depot f)
     ∧ ∃ avant apres,
         contenu f = u "Date de depot: " ++ avant ++ date_depot f ++ apres).
Proof.
  unfold formalites_of_text. intros ([i0 s0] & Hin & Hf)%list_elem_of_omap.
  apply elem_of_lookup_imap in Hin as (i & section & [= -> ->] & Hl).
  cbn [fst snd] in Hf. unfold formalite_of_section in Hf.
  case_bool_decide as Hi; [done|]. cbv zeta in Hf.
  case_bool_decide as Hs; [done|]. injection Hf as <-. cbn [date_depot contenu].
  destruct (re_search NOFLAG (u "(\d{2}/\d{2}/\d{4})") (strip section)) as [m|] eqn:Hm;
    [|by left].
  right. destruct (recherche_date _ _ Hm) as (avant & apres & Hc & Hd).
  split; [done|]. exists avant, apres. by rewrite <-Hc.
Qed.
End DateDepotFormalite.

Lemma date_depot_forme_exemple :
  date_depot formalite_vente = NON_TROUVE
  ∨ (date_chiffres (H := latin1) (date_depot formalite_vente)
     ∧ ∃ avant apres,
         contenu formalite_vente
         = u "Date de depot: " ++ avant ++ date_depot formalite_vente ++ apres).
Proof.
  apply (date_depot_forme (H := latin1) (full_text_of pages_exemple)). vm_compute. left.
Defined.

(** ** The lots of the entries of the result *)

Lemma sorted_croissant l : StronglySorted (λ a b, str_lt b a = false) (sorted str_lt l).
Proof.
  rewrite sorted_sorted_reverse.
  apply (sorted_reverse_sorted_gen (λ a b, str_lt b a)).
  - intros x y. apply str_lt_asym.
  - intros x y z H1 H2. by eapply str_lt_negtrans.
Qed.

Lemma NoDup_concat {A} (ls : list (list A)) l : NoDup (concat ls) → l ∈ ls → NoDup l.
Proof.
  induction ls as [|l0 ls IH]; cbn [concat]; [by intros _ ?%elem_of_nil|].
  intros (H0 & _ & Hls)%NoDup_app [->|Hin]%elem_of_cons; [done|by apply IH].
Qed.

Lemma Forall_dict_set {V} (Q : V → Prop) (G : dict V) k v :
  Forall (λ x, Q x.2) G → Q v → Forall (λ x, Q x.2) (dict_set G k v).
Proof.
  intros HG Hv. induction HG as [|[k0 v0] G H0 HG IH]; cbn [dict_set].
  - constructor; [exact Hv|constructor].
  - case_bool_decide; constructor; done.
Qed.

Section Entrees.
Context `{Unicode} (o : ordre_ensembles).

Lemma foldl_grouper_non_vides d : ∀ G,
  Forall (λ x, g_lots x.2 ≠ []) G → Forall (λ x, g_lots x.2 ≠ []) (foldl grouper G d).
Proof.
  induction d as [|[lot info] d IH]; intros G HG; cbn [foldl]; [done|].
  apply IH. rewrite grouper_dict_set.
  apply (Forall_dict_set (λ g, g_lots g ≠ [])); [done|].
  cbn [ajouter_au_groupe g_lots]. intros Hx. by apply app_eq_nil in Hx as [_ ?].
Qed.

Lemma lots_propriete_de ref g :
  g_lots g ≠ [] → NoDup (g_lots g) →
  pr_lots (propriete_de ref g) ≠ []
  ∧ NoDup (pr_lots (propriete_de ref g))
  ∧ StronglySorted (λ a b, str_lt b a = false) (pr_lots (propriete_de ref g)).
Proof.
  intros Hne Hnd. cbn [propriete_de pr_lots]. case_bool_decide as Hie.
  - split_and!; [done|apply NoDup_singleton|repeat constructor].
  - rewrite filter_tout by (apply Forall_forall; by intros x Hx ->).
    split_and!.
    + intros Hs. apply Hne. apply Permutation_nil_r. by rewrite <-Hs, sorted_perm.
    + by rewrite sorted_perm.
    + apply sorted_croissant.
Qed.

(** In every entry of the result the lots are not empty, without repeat,
    and in the ascending order of the strings. *)
Theorem lots_des_entrees_tries (mutations : list mutation) (immeubles : list immeuble) :
  Forall (λ p, pr_lots p ≠ []
               ∧ NoDup (pr_lots p)
               ∧ StronglySorted (λ a b, str_lt b a = false) (pr_lots p))
         (reconstituer_propriete o mutations immeubles).
Proof.
  destruct mutations as [|m ms]; [constructor|].
  destruct immeubles as [|immeuble_ref autres]; [constructor|].
  rewrite reconstituer_propriete_cons. cbv zeta.
  set (d := (attributions o (m :: ms) immeuble_ref).1).
  apply Forall_app. split.
  - apply Forall_fmap, Forall_forall. intros g Hg. cbv [compose].
    apply lots_propriete_de.
    + pose proof (foldl_grouper_non_vides d [] ltac:(constructor)) as Hf.
      apply list_elem_of_fmap in Hg as ([k g'] & -> & Hin).
      by eapply Forall_forall in Hf.
    + apply (NoDup_concat (g_lots <$> (foldl grouper [] d).*2)).
      * rewrite (concat_lots_foldl_grouper d []). cbn. apply attributions_NoDup.
      * by apply list_elem_of_fmap_2.
  - case_bool_decide as Hx; [|constructor]. repeat constructor; cbn [pr_lots].
    + intros Hs. apply Hx. apply set_eq. intros x.
      rewrite <-elem_of_elements, <-(enum_perm o), <-(sorted_perm str_lt), Hs. set_solver.
    + rewrite sorted_perm, enum_perm. apply NoDup_elements.
    + apply sorted_croissant.
Qed.
End Entrees.

(** ** The result of the pipeline *)

Section Resultat.
Context `{Unicode} (o : ordre_ensembles).

Lemma immeubles_page total_pages tables :
  Forall (λ im, i_page im = total_pages) (extract_tableau_derniere_page total_pages tables).
Proof.
  apply Forall_forall. intros im Him. unfold extract_tableau_derniere_page in Him.
  apply elem_of_flat_map in Him as (table & _ & Him).
  apply elem_of_immeubles_de_table in Him as (data_row & _ & Him).
  unfold immeuble_de in Him. destruct (_ || _); [done|]. cbv zeta in Him.
  destruct (_ || _); [|done]. by injection Him as <-.
Qed.

(** The pipeline fails exactly when the file has no page.  Otherwise the
    numbers of the formalities increase strictly, there are at most as many
    active mortgages and as many mutations as formalities, the buildings
    carry the number of the last page, and the flag of the reconstruction
    says whether the list of the owners is not empty. *)
Theorem resultat_coherent (doc : document) :
  match extraction_complete_ehf o doc with
  | Some (sf, immeubles) =>
    pages doc ≠ []
    ∧ StronglySorted lt (numero_ordre <$> sf_formalites sf)
    ∧ nombre_total_formalites (sf_statistiques sf) = length (sf_formalites sf)
    ∧ (nombre_hypotheques_actives (sf_statistiques sf)
       ≤ nombre_total_formalites (sf_statistiques sf))%nat
    ∧ (nombre_mutations (sf_statistiques sf)
       ≤ nombre_total_formalites (sf_statistiques sf))%nat
    ∧ (propriete_reconstituee (sf_statistiques sf) = true ↔ sf_propriete_actuelle sf ≠ [])
    ∧ Forall (λ im, i_page im = length (pages doc)) immeubles
  | None => pages doc = []
  end.
Proof.
  unfold extraction_complete_ehf, extract_formalites_from_pdf.
  destruct (pages doc) as [|p ps] eqn:Hp; [done|]. cbv zeta.
  cbn [sf_formalites sf_statistiques sf_propriete_actuelle nombre_total_formalites
       nombre_hypotheques_actives nombre_mutations propriete_reconstituee].
  split_and!.
  - done.
  - rewrite numeros_formalites. apply StronglySorted_filter, StronglySorted_lt_seq.
  - done.
  - unfold analyser_hypotheques_actives. rewrite length_fmap.
    etrans; [apply length_filter|]. apply length_filter.
  - apply length_omap_le.
  - apply bool_decide_eq_true.
  - apply immeubles_page.
Qed.
End Resultat.

(** ** The mutation that gives a lot its owner *)

Lemma first_some_app {A B} (f : A → option B) l1 l2 :
  first_some f (l1 ++ l2)
  = match first_some f l1 with Some y => Some y | None => first_some f l2 end.
Proof. induction l1 as [|x l1 IH]; cbn; [done|]. by destruct (f x). Qed.

Lemma first_some_None {A B} (f : A → option B) l :
  first_some f l = None ↔ ∀ x, x ∈ l → f x = None.
Proof.
  induction l as [|x l IH]; cbn.
  - split; [by intros _ ? ?%elem_of_nil|done].
  - destruct (f x) eqn:Hx.
    + split; [done|]. intros Hl. specialize (Hl x (list_elem_of_here _ _)). congruence.
    + rewrite IH. split.
      * intros Hl y [->|Hy]%elem_of_cons; auto.
      * intros Hl y Hy. apply Hl. by right.
Qed.

Lemma first_some_Some {A B} (f : A → option B) l y :
  first_some f l = Some y →
  ∃ pre x post, l = pre ++ x :: post ∧ f x = Some y ∧ ∀ x', x' ∈ pre → f x' = None.
Proof.
  induction l as [|x l IH]; cbn; [done|]. destruct (f x) eqn:Hx.
  - intros [= ->]. exists [], x, l. split_and!; [done|done|by intros ? ?%elem_of_nil].
  - intros (pre & x0 & post & -> & H0 & Hpre)%IH. exists (x :: pre), x0, post.
    split_and!; [done|done|]. intros x' [->|?]%elem_of_cons; auto.
Qed.

Lemma elem_of_lots_concernes_de lots_ref mutation lot :
  lot ∈ lots_concernes_de lots_ref mutation ↔ nomme lots_ref mutation lot.
Proof.
  unfold lots_concernes_de, nomme. cbv zeta.
  destruct (bool_decide_reflect (lots_ref = ∅)) as [->|Hne]; cbn [andb].
  - case_bool_decide as Hm.
    + rewrite elem_of_singleton. split; [|set_solver]. intros ->. right.
      split_and!; [done..|]. destruct (im_get im_lots [] mutation); [done|set_solver].
    + split; [set_solver|]. intros [[? _]|(_ & _ & Hl)]; [set_solver|].
      rewrite Hl in Hm. set_solver.
  - rewrite elem_of_intersection, elem_of_list_to_set. naive_solver.
Qed.

Section Dons.
Context `{Unicode} (o : ordre_ensembles).

Lemma traiter_ligne_get mutation lots_concernes beneficiaires d ligne lot :
  dict_get (traiter_ligne o mutation lots_concernes beneficiaires d ligne) lot
  = match dict_get d lot with
    | Some a => Some a
    | None => ligne_donne mutation lots_concernes beneficiaires lot ligne
    end.
Proof.
  unfold traiter_ligne, ligne_donne. cbv zeta.
  set (L := if bool_decide (IMMEUBLE_ENTIER ∈ lots_concernes) then _ else _).
  case_bool_decide as HL.
  - destruct (list_find _ _) as [[i b]|].
    + rewrite attribuer_get. destruct (dict_get d lot); [done|].
      by rewrite (bool_decide_ext _ _ (elem_of_enum o L lot)).
    + destruct (dict_get d lot); [done|]. by case_bool_decide.
  - destruct (dict_get d lot); [done|]. rewrite bool_decide_eq_false_2; [done|].
    intros Hl. rewrite HL in Hl. set_solver.
Qed.

Lemma foldl_traiter_ligne_get mutation lots_concernes beneficiaires lignes lot : ∀ d,
  dict_get (foldl (traiter_ligne o mutation lots_concernes beneficiaires) d lignes) lot
  = match dict_get d lot with
    | Some a => Some a
    | None => first_some (ligne_donne mutation lots_concernes beneficiaires lot) lignes
    end.
Proof.
  induction lignes as [|ligne lignes IH]; intros d; cbn [foldl first_some].
  - by destruct (dict_get d lot).
  - rewrite IH, traiter_ligne_get. destruct (dict_get d lot); [done|].
    by destruct (ligne_donne _ _ _ _ _).
Qed.

Lemma ligne_donne_vide mutation beneficiaires lot ligne :
  ligne_donne mutation ∅ beneficiaires lot ligne = None.
Proof.
  unfold ligne_donne. cbv zeta. rewrite (bool_decide_eq_false_2 (IMMEUBLE_ENTIER ∈ ∅)) by set_solver.
  rewrite bool_decide_eq_false_2; [done|set_solver].
Qed.

Lemma traiter_mutation_get lots_ref commune_ref designation_ref d mutation lot :
  dict_get (traiter_mutation o lots_ref commune_ref designation_ref d mutation) lot
  = match dict_get d lot with
    | Some a => Some a
    | None => mutation_donne lots_ref commune_ref designation_ref mutation lot
    end.
Proof.
  unfold traiter_mutation, mutation_donne. cbv zeta.
  destruct (concerne_immeuble _ _ _); [|by destruct (dict_get d lot)].
  case_bool_decide as Hc.
  - destruct (md_beneficiaire_donataire (mu_mutations mutation)) as [|b bs];
      [by destruct (dict_get d lot)|].
    destruct (im_get im_lignes_detaillees [] mutation) as [|l ls].
    + rewrite attribuer_get. destruct (dict_get d lot); [done|].
      by rewrite (bool_decide_ext _ _ (elem_of_enum o (lots_concernes_de lots_ref mutation) lot)).
    + apply foldl_traiter_ligne_get.
  - rewrite Hc. destruct (dict_get d lot); [done|].
    destruct (md_beneficiaire_donataire (mu_mutations mutation)) as [|b bs]; [done|].
    destruct (im_get im_lignes_detaillees [] mutation) as [|l ls].
    + rewrite bool_decide_eq_false_2; [done|set_solver].
    + symmetry. apply first_some_None. intros x _. apply ligne_donne_vide.
Qed.

Lemma foldl_traiter_mutation_get lots_ref commune_ref designation_ref l lot : ∀ d,
  dict_get (foldl (traiter_mutation o lots_ref commune_ref designation_ref) d l) lot
  = match dict_get d lot with
    | Some a => Some a
    | None => first_some (λ m, mutation_donne lots_ref commune_ref designation_ref m lot) l
    end.
Proof.
  induction l as [|m l IH]; intros d; cbn [foldl first_some].
  - by destruct (dict_get d lot).
  - rewrite IH, traiter_mutation_get. destruct (dict_get d lot); [done|].
    by destruct (mutation_donne _ _ _ _ _).
Qed.

(** What a line gives, it gives to a lot that the line and the mutation
    name, for a beneficiary that has the number of the line. *)
Lemma ligne_donne_Some mutation lots_concernes beneficiaires lot ligne a :
  ligne_donne mutation lots_concernes beneficiaires lot ligne = Some a →
  lot ∈ lots_concernes
  ∧ (lot ∈ li_lots ligne ∨ lot = IMMEUBLE_ENTIER)
  ∧ ∃ b, b ∈ beneficiaires ∧ p_numero b = li_beneficiaire_numero ligne
         ∧ a = attribution_de mutation b (li_droits ligne).
Proof.
  unfold ligne_donne. cbv zeta. case_bool_decide as Hl; [|done].
  destruct (list_find _ _) as [[i b]|] eqn:Hfind; [|done]. intros [= <-].
  apply list_find_Some in Hfind as (Hb & Hn & _).
  assert (Hlot : lot ∈ lots_concernes ∧ (lot ∈ li_lots ligne ∨ lot = IMMEUBLE_ENTIER)).
  { case_bool_decide as Hie.
    - apply elem_of_singleton in Hl as ->. auto.
    - apply elem_of_intersection in Hl as [? ?%elem_of_list_to_set]. auto. }
  destruct Hlot as [? ?]. split_and!; [done..|].
  exists b. split_and!; [by eapply list_elem_of_lookup_2|done|done].
Qed.

(** A mutation gives a lot only if it is on the building of reference and
    names the lot, and what it gives comes from it. *)
Lemma mutation_donne_Some lots_ref commune_ref designation_ref mutation lot a :
  mutation_donne lots_ref commune_ref designation_ref mutation lot = Some a →
  concerne_immeuble commune_ref designation_ref mutation = true
  ∧ nomme lots_ref mutation lot
  ∧ vient_de mutation a
  ∧ match im_get im_lignes_detaillees [] mutation with
    | [] => ∃ b, head (md_beneficiaire_donataire (mu_mutations mutation)) = Some b
                 ∧ a = attribution_de mutation b (im_get im_droits [] mutation)
    | lignes => ∃ ligne b, ligne ∈ lignes
                  ∧ (lot ∈ li_lots ligne ∨ lot = IMMEUBLE_ENTIER)
                  ∧ b ∈ md_beneficiaire_donataire (mu_mutations mutation)
                  ∧ p_numero b = li_beneficiaire_numero ligne
                  ∧ a = attribution_de mutation b (li_droits ligne)
    end.
Proof.
  unfold mutation_donne. cbv zeta.
  destruct (concerne_immeuble _ _ _); [|done].
  destruct (md_beneficiaire_donataire (mu_mutations mutation)) as [|b0 bs] eqn:Hb; [done|].
  destruct (im_get im_lignes_detaillees [] mutation) as [|l ls] eqn:Hlignes.
  - case_bool_decide as Hl; [|done]. intros [= <-].
    split_and!; [done|by apply elem_of_lots_concernes_de| |by exists b0].
    apply attribution_de_vient_de. rewrite Hb. left.
  - intros (pre & ligne & post & Heq & Hd & _)%first_some_Some.
    apply ligne_donne_Some in Hd as (Hl & Hll & b & Hbin & Hnum & ->).
    split_and!; [done|by apply elem_of_lots_concernes_de| |].
    + apply attribution_de_vient_de. by rewrite Hb.
    + exists ligne, b. split_and!; [|done..]. rewrite Heq. set_solver.
Qed.

(** A mutation on the building of reference that names a lot gives it when
    it has a beneficiary and no detailed line, or a detailed line with the
    lot whose number is the number of a beneficiary. *)
Lemma mutation_donne_is_Some lots_ref commune_ref designation_ref mutation lot :
  concerne_immeuble commune_ref designation_ref mutation = true →
  nomme lots_ref mutation lot →
  (im_get im_lignes_detaillees [] mutation = []
   ∧ md_beneficiaire_donataire (mu_mutations mutation) ≠ [])
  ∨ (∃ ligne b, ligne ∈ im_get im_lignes_detaillees [] mutation
       ∧ (lot = IMMEUBLE_ENTIER ∨ ((IMMEUBLE_ENTIER ∉ lots_ref) ∧ lot ∈ li_lots ligne))
       ∧ b ∈ md_beneficiaire_donataire (mu_mutations mutation)
       ∧ p_numero b = li_beneficiaire_numero ligne) →
  is_Some (mutation_donne lots_ref commune_ref designation_ref mutation lot).
Proof.
  intros Hc Hn Hb. unfold mutation_donne. cbv zeta. rewrite Hc.
  pose proof (proj2 (elem_of_lots_concernes_de lots_ref mutation lot) Hn) as Hl.
  destruct Hb as [[Hlignes Hb]|(ligne & b & Hligne & Hlot & Hbin & Hnum)].
  - rewrite Hlignes. destruct (md_beneficiaire_donataire (mu_mutations mutation)); [done|].
    by rewrite bool_decide_eq_true_2.
  - destruct (md_beneficiaire_donataire (mu_mutations mutation)) as [|b0 bs] eqn:Heqb;
      [by apply elem_of_nil in Hbin|].
    destruct (im_get im_lignes_detaillees [] mutation) as [|l0 ls] eqn:Heql;
      [by apply elem_of_nil in Hligne|].
    destruct (first_some _ (l0 :: ls)) as [a|] eqn:Hf; [by eexists|].
    exfalso. pose proof (proj1 (first_some_None _ _) Hf ligne Hligne) as Hd.
    revert Hd. unfold ligne_donne. cbv zeta.
    assert (Hin : lot ∈ (if bool_decide (IMMEUBLE_ENTIER ∈ lots_concernes_de lots_ref mutation)
                         then ({[ IMMEUBLE_ENTIER ]} : gset pystr)
                         else lots_concernes_de lots_ref mutation ∩ list_to_set (li_lots ligne))).
    { case_bool_decide as Hie.
      - destruct Hlot as [->|[Hnie Hll]]; [set_solver|].
        apply elem_of_lots_concernes_de in Hie as [[? _]|(_ & Hv & _)]; [done|].
        destruct Hn as [[Hr _]|(-> & _)]; [|set_solver]. rewrite Hv in Hr. set_solver.
      - destruct Hlot as [->|[Hnie Hll]]; [done|].
        apply elem_of_intersection. split; [done|by apply elem_of_list_to_set]. }
    rewrite bool_decide_eq_true_2 by done.
    destruct (list_find _ _) as [[i b']|] eqn:Hfind; [done|].
    intros _. apply list_find_None in Hfind.
    eapply Forall_forall in Hfind; [|exact Hbin]. done.
Qed.
End Dons.

Section Gagnant.
Context `{Unicode} (o : ordre_ensembles).

(** The owner of a lot at the end of the loop is given by the first of the
    sorted mutations that gives the lot: the end of the loop before the
    last mutation changes nothing to it. *)
Lemma attributions_get mutations immeuble_ref lot :
  dict_get (attributions o mutations immeuble_ref).1 lot
  = first_some (λ m, mutation_donne (lots_ref_de mutations immeuble_ref)
                       (i_commune immeuble_ref) (i_designation_cadastrale immeuble_ref) m lot)
               (mutations_triees mutations).
Proof.
  destruct (attributions_spec o mutations immeuble_ref) as (Hr & (reste & Hl & Hreste) & _).
  cbv zeta in Hr, Hl, Hreste.
  assert (Hget : dict_get (attributions o mutations immeuble_ref).1 lot
            = first_some (λ m, mutation_donne (lots_ref_de mutations immeuble_ref)
                       (i_commune immeuble_ref) (i_designation_cadastrale immeuble_ref) m lot)
                (attributions o mutations immeuble_ref).2).
  { rewrite Hr at 1. unfold etat_apres. by rewrite foldl_traiter_mutation_get. }
  rewrite Hl, first_some_app, <- Hget.
  destruct (dict_get _ lot) eqn:Hlot; [done|]. symmetry.
  apply first_some_None. intros m Hm.
  destruct (mutation_donne _ _ _ m lot) as [a|] eqn:Hd; [exfalso|done].
  apply mutation_donne_Some in Hd as (_ & Hn & _).
  assert (Hne : reste ≠ []) by (intros ->; by apply elem_of_nil in Hm).
  apply Hreste, tous_attribues_spec in Hne.
  apply dict_get_None in Hlot.
  destruct Hne as [[Hnv Hk]|[Hv Hie]], Hn as [[Hr' _]|(-> & Hv' & _)].
  - apply Hlot. rewrite <- Hk in Hr'. by apply elem_of_list_to_set in Hr'.
  - done.
  - rewrite Hv in Hr'. set_solver.
  - done.
Qed.
End Gagnant.

(** Claim C1, as the code has it.  In the reconstruction a lot, or the mark
    of the whole building, has at most one owner, and this owner is the one
    given by the first mutation, in the order of the sort, most recent
    first, that gives the lot: the loop and its end before the last mutation
    change nothing to it, and an older mutation leaves the lot to its owner.
    A mutation gives a lot only if it is on the building of reference and
    names the lot, a lot of reference in its list of lots, or the mark of the
    whole building when neither has lots; and it gives it when, besides, it
    has a beneficiary and no detailed line, or a detailed line with the lot
    whose number is the number of one of its beneficiaries.  So the first
    mutation that names the lot wins when it gives it.  It does not always:
    in [pages_deux_ventes] the line of the recent sale names its
    beneficiaries by the range [2 à 3], which is the number of none of them,
    the sale gives the lot 9 to nobody, and the lot stays to the seller, who
    bought it in the older sale; with the number 2 on the line, the lot 9
    goes to the buyer.  A mutation without table of buildings names no lot of
    reference and gives none.  With the lots 9 and 17 of reference, the
    mutation A, the most recent, giving the lot 9 to X, and the mutation B,
    older, giving the lots 9 and 17 to Y, the lot 9 is owned by X and the
    lot 17 by Y. *)
Theorem proprietaire_par_premier_don :
  (∀ (U : Unicode) (o : ordre_ensembles) (mutations : list mutation)
     (immeuble_ref : immeuble),
     let lots_ref := lots_ref_de mutations immeuble_ref in
     let commune_ref := i_commune immeuble_ref in
     let designation_ref := i_designation_cadastrale immeuble_ref in
     let donne := mutation_donne lots_ref commune_ref designation_ref in
     let apres := etat_apres o lots_ref commune_ref designation_ref in
     let r := attributions o mutations immeuble_ref in
     NoDup (dict_keys r.1)
     ∧ (∀ lot, dict_get r.1 lot
               = first_some (λ m, donne m lot) (mutations_triees mutations))
     ∧ (∀ pre m post lot a,
          mutations_triees mutations = pre ++ m :: post →
          (∀ m', m' ∈ pre → donne m' lot = None) → donne m lot = Some a →
          dict_get r.1 lot = Some a)
     ∧ (∀ m lot a, donne m lot = Some a →
          concerne_immeuble commune_ref designation_ref m = true
          ∧ nomme lots_ref m lot
          ∧ vient_de m a
          ∧ match im_get im_lignes_detaillees [] m with
            | [] => ∃ b, head (md_beneficiaire_donataire (mu_mutations m)) = Some b
                         ∧ a = attribution_de m b (im_get im_droits [] m)
            | lignes => ∃ ligne b, ligne ∈ lignes
                          ∧ (lot ∈ li_lots ligne ∨ lot = IMMEUBLE_ENTIER)
                          ∧ b ∈ md_beneficiaire_donataire (mu_mutations m)
                          ∧ p_numero b = li_beneficiaire_numero ligne
                          ∧ a = attribution_de m b (li_droits ligne)
            end)
     ∧ (∀ m lot,
          concerne_immeuble commune_ref designation_ref m = true →
          nomme lots_ref m lot →
          (im_get im_lignes_detaillees [] m = []
           ∧ md_beneficiaire_donataire (mu_mutations m) ≠ [])
          ∨ (∃ ligne b, ligne ∈ im_get im_lignes_detaillees [] m
               ∧ (lot = IMMEUBLE_ENTIER
                  ∨ ((IMMEUBLE_ENTIER ∉ lots_ref) ∧ lot ∈ li_lots ligne))
               ∧ b ∈ md_beneficiaire_donataire (mu_mutations m)
               ∧ p_numero b = li_beneficiaire_numero ligne) →
          is_Some (donne m lot))
     ∧ (∀ pre m post lot,
          mutations_triees mutations = pre ++ m :: post →
          (∀ m', m' ∈ pre →
             ¬ (concerne_immeuble commune_ref designation_ref m' = true
                ∧ nomme lots_ref m' lot)) →
          is_Some (donne m lot) →
          ∃ a, dict_get r.1 lot = Some a ∧ vient_de m a)
     ∧ (∀ pre m post lot,
          r.2 = pre ++ m :: post →
          match dict_get (apres pre) lot with
          | Some a => dict_get (apres (pre ++ [m])) lot = Some a ∧ dict_get r.1 lot = Some a
          | None => ∀ a, dict_get (apres (pre ++ [m])) lot = Some a →
                         vient_de m a ∧ dict_get r.1 lot = Some a
          end))
  ∧ (extract_formalites_from_pdf (H := latin1) pages_deux_ventes).2
    = [vente_ancienne; vente_recente]
  ∧ mutations_triees [vente_ancienne; vente_recente] = [vente_recente; vente_ancienne]
  ∧ (let lots_ref := lots_ref_de (H := latin1) [vente_ancienne; vente_recente] immeuble_exemple in
     concerne_immeuble (H := latin1) (u "PARIS 15") (u "CJ 42") vente_recente = true
     ∧ nomme lots_ref vente_recente (u "9")
     ∧ mutation_donne (H := latin1) lots_ref (u "PARIS 15") (u "CJ 42") vente_recente (u "9")
       = None
     ∧ mutation_donne (H := latin1) lots_ref (u "PARIS 15") (u "CJ 42") vente_ancienne (u "9")
       = Some (attribution_de vente_ancienne yves_marc (u "PP")))
  ∧ (attributions (H := latin1) ordre_canonique [vente_ancienne; vente_recente]
       immeuble_exemple).1
    = [ (u "9", attribution_de vente_ancienne yves_marc (u "PP"));
        (u "17", attribution_de vente_ancienne yves_marc (u "PP")) ]
  ∧ (λ p, (pr_proprietaire p, pr_lots p, pr_date_acquisition p))
      <$> reconstituer_propriete (H := latin1) ordre_canonique
            (extract_formalites_from_pdf (H := latin1) pages_deux_ventes).2
            [immeuble_exemple]
    = [ (yves_marc, [u "17"; u "9"], u "20/12/2010") ]
  ∧ (λ p, (pr_proprietaire p, pr_lots p, pr_date_acquisition p))
      <$> reconstituer_propriete (H := latin1) ordre_canonique
            (extract_formalites_from_pdf (H := latin1) pages_deux_ventes_numero).2
            [immeuble_exemple]
    = [ (xavier_paul, [u "9"], u "15/06/2020"); (yves_marc, [u "17"], u "20/12/2010") ]
  ∧ (attributions (H := latin1) ordre_canonique [mutation_B; mutation_sans_immeubles]
       immeuble_exemple).1
    = [ (u "9", attribution_de mutation_B proprietaire_Y (u "PP"));
        (u "17", attribution_de mutation_B proprietaire_Y (u "PP")) ]
  ∧ (attributions (H := latin1) ordre_canonique [mutation_B; mutation_A] immeuble_exemple).1
    = [ (u "9", attribution_de mutation_A proprietaire_X (u "PP"));
        (u "17", attribution_de mutation_B proprietaire_Y (u "PP")) ]
  ∧ (λ p, (pr_proprietaire p, pr_lots p))
      <$> reconstituer_propriete (H := latin1) ordre_canonique
            [mutation_B; mutation_A] [immeuble_exemple]
    = [ (proprietaire_X, [u "9"]); (proprietaire_Y, [u "17"]) ].
Proof.
  split_and!.
  - intros U o mutations immeuble_ref lots_ref commune_ref designation_ref donne apres r.
    assert (Hget : ∀ lot, dict_get r.1 lot
                          = first_some (λ m, donne m lot) (mutations_triees mutations))
      by (intros lot; apply attributions_get).
    assert (Hpremier : ∀ pre m post lot a,
              mutations_triees mutations = pre ++ m :: post →
              (∀ m', m' ∈ pre → donne m' lot = None) → donne m lot = Some a →
              dict_get r.1 lot = Some a).
    { intros pre m post lot a Heq Hpre Hm. rewrite Hget, Heq, first_some_app.
      rewrite (proj2 (first_some_None _ pre)) by done. cbn [first_some]. by rewrite Hm. }
    destruct (attributions_premiere o mutations immeuble_ref) as (Hnd & Hp).
    split_and!; [done|done|done| | | |done].
    + intros m lot a. apply mutation_donne_Some.
    + intros m lot. apply mutation_donne_is_Some.
    + intros pre m post lot Heq Hpre [a Ha]. exists a. split.
      * eapply Hpremier; [done| |done]. intros m' Hm'.
        destruct (donne m' lot) as [a'|] eqn:Hd; [|done].
        apply mutation_donne_Some in Hd as (Hc & Hn & _). by destruct (Hpre m' Hm').
      * by apply mutation_donne_Some in Ha as (_ & _ & ? & _).
  - vm_compute. reflexivity.
  - vm_compute. reflexivity.
  - cbv zeta. split_and!.
    + vm_compute. reflexivity.
    + unfold nomme. par_calcul.
    + vm_compute. reflexivity.
    + vm_compute. reflexivity.
  - vm_compute. reflexivity.
  - vm_compute. reflexivity.
  - vm_compute. reflexivity.
  - vm_compute. reflexivity.
  - vm_compute. reflexivity.
  - vm_compute. reflexivity.
Qed.
